(** * DBgen: entities, generator graphs, the generator runtime and serialization

    A shallow embedding of the parts of DBgen that the specification talks
    about, with the properties the specification states for them.

    - [Entity]  : [dbgen/core/entity.py]   (metaclass inheritance, [load])
    - [Gen]     : [dbgen/core/generator.py], [dbgen/utils/graphs.py]
    - [RunGen]  : [dbgen/core/model/run_gen.py]
    - [Serial]  : [dbgen/utils/misc.py]    ([to_dict], [from_dict], [hash])
    - [SqlTypes] : [dbgen/core/expr/sqltypes.py] ([from_str], [__str__])

    Python exceptions are values of [exn]; a computation that may raise
    returns a [result]. *)

From stdpp Require Import gmap strings list.
From Stdlib Require Import OrderedTypeEx.
From Stdlib Require QArith Qround.
From Stdlib Require DecimalString DecimalZ DecimalPos.

#[local] Open Scope string_scope.
#[local] Open Scope list_scope.
#[local] Open Scope nat_scope.

(** ** Exceptions and results *)

Inductive exn : Type :=
| ValueError
| AssertionError
| AttributeError
| TypeError
| KeyError
| IndexError
| UnboundLocalError
| NotImplementedError
| ImportError
| NetworkXUnfeasible
| DBgenMissingInfo
| DBgenInvalidArgument
| ExternalError (msg : string)
| OtherError (msg : string).

Inductive result (A : Type) : Type :=
| Ok (a : A)
| Raise (e : exn).
Arguments Ok {A} a.
Arguments Raise {A} e.

#[global] Instance result_ret : MRet result := fun A a => Ok a.
#[global] Instance result_bind : MBind result :=
  fun A B f m => match m with Ok a => f a | Raise e => Raise e end.

Definition is_ok {A} (r : result A) : bool :=
  match r with Ok _ => true | Raise _ => false end.

#[global] Instance exn_eq_dec : EqDecision exn.
Proof. solve_decision. Defined.

(* ===================================================================== *)
(** ** [dbgen/core/entity.py] *)
(* ===================================================================== *)

Module Entity.

(** What [getattr] finds for one attribute of a class: nothing, [None], a
    value of the expected type, or a value of another type (of which only
    its truth value and its [str()] matter). *)
Inductive attr (A : Type) : Type :=
| Missing
| IsNone
| Val (a : A)
| Other (truthy : bool) (repr : string).
Arguments Missing {A}.
Arguments IsNone {A}.
Arguments Val {A} a.
Arguments Other {A} truthy repr.

#[global] Instance attr_eq_dec {A} `{EqDecision A} : EqDecision (attr A).
Proof. solve_decision. Defined.

(** A base class, as the metaclass reads it: [getattr(base, f)] for the four
    inherited attributes, and [base.__config__.table]. *)
Record base_class : Type := {
  b_name : string;
  b_identifying : attr (gset string);
  b_hashexclude : attr (gset string);
  b_hashinclude : attr (gset string);
  b_schema : attr string;
  b_config_table : bool
}.

(** [inherit_field(bases, field_name, initial_value, joiner)]: the field is
    the projection [field]; [getattr(base, field_name, initial_value)]
    falls back on [initial_value]; [None] is skipped; a value of another
    type fails the assertion. *)
Definition inherit_field {A} (bases : list base_class)
    (field : base_class → attr A) (initial_value : A) (joiner : A → A → A)
    : result A :=
  foldl (fun acc base =>
           field_val ← acc;
           match field base with
           | Missing => Ok (joiner field_val initial_value)
           | IsNone => Ok field_val
           | Val curr_id => Ok (joiner field_val curr_id)
           | Other _ _ => Raise AssertionError
           end)
        (Ok initial_value) (reverse bases).

Definition inherit_set (bases : list base_class)
    (field : base_class → attr (gset string)) : result (gset string) :=
  inherit_field bases field ∅ (fun x y => x ∪ y).

(** [overwrite_parent = partial(inherit_field, initial_value="", joiner=lambda x, y: y)] *)
Definition overwrite_parent (bases : list base_class)
    (field : base_class → attr string) : result string :=
  inherit_field bases field "" (fun x y => y).

(** The class statement handed to [EntityMetaclass.__new__]: the class body
    ([attrs]), the bases, the keyword arguments, and what the parent
    metaclass ([SQLModelMetaclass], a library) provides on the new class:
    [__fields__], [__tablename__], [__config__.table]. *)
Record class_decl : Type := {
  d_name : string;
  d_bases : list base_class;
  d_identifying : attr (gset string);
  d_hashexclude : attr (gset string);
  d_hashinclude : attr (gset string);
  d_schema : attr string;
  d_annotations : gset string;
  d_all_id : bool;
  d_table : bool;
  d_fields : gset string;
  d_tablename : string;
  d_config_table : bool
}.

(** The class the metaclass returns. *)
Record entity_class : Type := {
  __name__ : string;
  __identifying__ : gset string;
  _hashexclude_ : gset string;
  _hashinclude_ : gset string;
  _is_table : bool;
  __schema__ : attr string;
  __tablename__ : string;
  __fulltablename__ : string;
  __fields__ : gset string;
  config_table : bool
}.

(** [new_attrs.get(field, set())] followed by [.union]: only a set has it. *)
Definition starting_set (a : attr (gset string)) : result (gset string) :=
  match a with
  | Missing => Ok ∅
  | Val s => Ok s
  | IsNone | Other _ _ => Raise AttributeError
  end.

Definition joined (own : attr (gset string)) (bases : list base_class)
    (field : base_class → attr (gset string)) : result (gset string) :=
  starting ← starting_set own;
  inherited ← inherit_set bases field;
  Ok (starting ∪ inherited).

Definition truthy {A} (empty : A → bool) (a : attr A) : bool :=
  match a with
  | Missing | IsNone => false
  | Val v => negb (empty v)
  | Other t _ => t
  end.

Definition str_empty (s : string) : bool := bool_decide (s = "").

(** [str(schema)] inside the f-string. *)
Definition py_str (a : attr string) : string :=
  match a with
  | Val s => s
  | Other _ r => r
  | IsNone => "None"
  | Missing => ""
  end.

(** [getattr(cls, "__schema__", "")]: the class body first, then the bases
    in order. *)
Definition getattr_schema (d : class_decl) : attr string :=
  match d_schema d with
  | Missing =>
      match filter (fun b => b_schema b ≠ Missing) (d_bases d) with
      | b :: _ => b_schema b
      | [] => Val ""
      end
  | a => a
  end.

Definition EntityMetaclass_new (d : class_decl) : result entity_class :=
  identifying0 ← joined (d_identifying d) (d_bases d) b_identifying;
  hashexclude ← joined (d_hashexclude d) (d_bases d) b_hashexclude;
  hashinclude0 ← joined (d_hashinclude d) (d_bases d) b_hashinclude;
  identifying ←
    (if d_all_id d then
       if bool_decide (d_identifying d = Missing)
       then Ok (identifying0 ∪ d_annotations d)
       else Raise AssertionError
     else Ok identifying0);
  let hashinclude := hashinclude0 ∪ identifying in
  let current_cls_is_table := d_config_table d && d_table d in
  _ ← (if current_cls_is_table && existsb b_config_table (d_bases d)
       then Raise ValueError else Ok ());
  let found := getattr_schema d in
  schema0 ← (if truthy str_empty found then Ok found
             else s ← overwrite_parent (d_bases d) b_schema; Ok (Val s));
  let schema := if truthy str_empty schema0 then schema0 else Val "public" in
  let unknown_ids := filter (fun x => x ∉ d_fields d) (elements identifying) in
  match unknown_ids with
  | _ :: _ => Raise ValueError
  | [] =>
      Ok {| __name__ := d_name d;
            __identifying__ := identifying;
            _hashexclude_ := hashexclude;
            _hashinclude_ := hashinclude;
            _is_table := current_cls_is_table;
            __schema__ := schema;
            __tablename__ := d_tablename d;
            __fulltablename__ := py_str schema +:+ "." +:+ d_tablename d;
            __fields__ := d_fields d;
            config_table := d_config_table d |}
  end.

(** An entity class used as a base of another one. *)
Definition as_base (c : entity_class) : base_class :=
  {| b_name := __name__ c;
     b_identifying := Val (__identifying__ c);
     b_hashexclude := Val (_hashexclude_ c);
     b_hashinclude := Val (_hashinclude_ c);
     b_schema := __schema__ c;
     b_config_table := config_table c |}.

(** *** [BaseEntity.load] *)

(** Values passed as keyword arguments. [Arg] and [Const] are the [ArgLike]
    classes; a [Load] is known by its hash, which is all [v["out"]] needs;
    [VPlain] is any other Python value. *)
Inductive const : Type := CNone | CInt (z : Z) | CStr (s : string).

Inductive kwval : Type :=
| VArg (key name : string)
| VConst (c : const)
| VLoad (hash : string)
| VPlain (truth : bool).

#[global] Instance const_eq_dec : EqDecision const.
Proof. solve_decision. Defined.
#[global] Instance kwval_eq_dec : EqDecision kwval.
Proof. solve_decision. Defined.

(** [isinstance(v, (ArgLike, Load))] *)
Definition is_arglike_or_load (v : kwval) : bool :=
  match v with VArg _ _ | VConst _ | VLoad _ => true | VPlain _ => false end.

Definition is_load (v : kwval) : bool :=
  match v with VLoad _ => true | _ => false end.

(** Truth value of [pk]: instances of [ArgLike] and [Load] are plain
    objects, hence true; [None] (no value) is false. *)
Definition pk_truthy (pk : option kwval) : bool :=
  match pk with
  | None => false
  | Some (VPlain t) => t
  | Some _ => true
  end.

(** [load["out"]]: the argument that names the output of a load. *)
Definition load_out (v : kwval) : kwval :=
  match v with VLoad h => VArg h "out" | _ => v end.

Record column : Type := {
  col_name : string;
  col_foreign_keys : bool      (* [col.foreign_keys] is not empty *)
}.

(** An entity class together with its table as SQLAlchemy knows it:
    [cls.metadata.tables.get(cls.__fulltablename__)], the names of
    [cls.__table__.primary_key] and the type name of each field. *)
Record table_class : Type := {
  cls : entity_class;
  metadata_table : option (list column);
  primary_key_names : list string;
  field_type_name : gmap string string
}.

Record LoadEntity : Type := {
  le_name : string;
  le_schema : attr string;
  le_primary_key_name : string;
  le_identifying_attributes : gmap string string;
  le_identifying_foreign_keys : list string
}.

Record Load : Type := {
  load_entity : LoadEntity;
  primary_key : option kwval;
  inputs : gmap string kwval;
  insert : bool
}.

(** [cls._columns()]; [__fulltablename__] is a string by construction. *)
Definition _columns (c : table_class) : result (list column) :=
  match metadata_table c with
  | Some table => Ok table
  | None => Raise ValueError
  end.

Definition all_attrs (columns : list column) : list string :=
  col_name <$> filter (fun col => col_foreign_keys col = false) columns.

Definition all_fks (columns : list column) : list string :=
  col_name <$> filter (fun col => col_foreign_keys col = true) columns.

Definition _get_load_entity (c : table_class) : result LoadEntity :=
  if negb (_is_table (cls c)) then Raise ValueError else
  columns ← _columns c;
  match primary_key_names c with
  | _ :: _ :: _ => Raise NotImplementedError
  | [] => Raise ValueError
  | primary_key_name :: [] =>
      identifying_attributes ←
        foldl (fun acc x =>
                 m ← acc;
                 match field_type_name c !! x with
                 | Some ty => Ok (<[x := ty]> m)
                 | None => Raise KeyError
                 end)
              (Ok ∅)
              (filter (fun x => x ∈ __identifying__ (cls c)) (all_attrs columns));
      let identifying_fks :=
        filter (fun x => x ∈ __identifying__ (cls c)) (all_fks columns) in
      Ok {| le_name := __tablename__ (cls c);
            le_schema := __schema__ (cls c);
            le_primary_key_name := primary_key_name;
            le_identifying_attributes := identifying_attributes;
            le_identifying_foreign_keys := identifying_fks |}
  end.

(** [cls.load(insert, **kwargs)].  [insert] is a named parameter, so no
    keyword is called "insert"; the filter is kept as written. *)
Definition load (c : table_class) (insert : bool) (kwargs : gmap string kwval)
    : result Load :=
  let name := __tablename__ (cls c) in
  let invalid_args :=
    filter (fun kv => kv.1 ≠ "insert" ∧ is_arglike_or_load kv.2 = false)
           (map_to_list kwargs) in
  match invalid_args with
  | _ :: _ => Raise ValueError
  | [] =>
      let pk := kwargs !! name in
      let kwargs := delete name kwargs in
      let missing := __identifying__ (cls c) ∖ dom kwargs in
      if negb (pk_truthy pk) && negb (bool_decide (missing = ∅))
      then Raise DBgenMissingInfo
      else
        class_columns ← _columns c;
        let attrs := filter (fun kv => kv.1 ∈ all_attrs class_columns) kwargs in
        let fks := filter (fun kv => kv.1 ∉ dom attrs) kwargs in
        match filter (fun fk => fk ∉ all_fks class_columns) (elements (dom fks)) with
        | _ :: _ => Raise DBgenInvalidArgument
        | [] =>
            let fks := load_out <$> fks in
            le ← _get_load_entity c;
            Ok {| load_entity := le;
                  primary_key := pk;
                  inputs := fks ∪ attrs;
                  insert := insert |}
        end
  end.

(** *** [BaseEntity.foreign_key] *)

(** The [Field] that [foreign_key] returns: its default is [None]. *)
Record Field : Type := {
  field_foreign_key : string;
  field_primary_key : bool
}.

Definition foreign_key (c : table_class) (primary_key : bool) : result Field :=
  load_entity ← _get_load_entity c;
  Ok {| field_foreign_key :=
          __fulltablename__ (cls c) +:+ "." +:+ le_primary_key_name load_entity;
        field_primary_key := primary_key |}.

(** *** [create_entity] *)

(** A value of [field_definitions]: a type annotation, of which the truth
    value matters, or a tuple, given by the truth values of its members. *)
Inductive field_def : Type :=
| FAnnotation (truth : bool)
| FTuple (members : list bool).

(** The annotation that the loop takes from a definition.  A tuple of more
    than two members cannot be unpacked ([ValueError], raised again as
    [ValueError]); the empty tuple has no member 0. *)
Definition f_annotation (f_def : field_def) : result bool :=
  match f_def with
  | FAnnotation t => Ok t
  | FTuple [] => Raise IndexError
  | FTuple [a] => Ok a
  | FTuple [a; _] => Ok a
  | FTuple _ => Raise ValueError
  end.

(** [create_entity].  [BaseEntity] is the default base; [registry] tells
    whether the keyword "registry" is given and is a registry; [fields],
    [tablename] and [config_table] are what [SQLModelMetaclass] provides
    for the class statement. *)
Definition create_entity (BaseEntity : base_class) (model_name : string)
    (field_definitions : list (string * field_def)) (base : option base_class)
    (identifying : option (gset string)) (schema : option string)
    (all_id table : bool) (registry : option bool)
    (fields : gset string) (tablename : string) (config_table : bool)
    : result entity_class :=
  let base := default BaseEntity base in
  let identifying := default ∅ identifying in
  annotations ←
    foldl (fun acc (f : string * field_def) =>
             annotations ← acc;
             if String.prefix "_" f.1 then Raise ValueError
             else
               a ← f_annotation f.2;
               Ok (if a : bool then annotations ∪ {[ f.1 ]} else annotations))
          (Ok (∅ : gset string)) field_definitions;
  if bool_decide (registry = Some false) then Raise AssertionError
  else
    EntityMetaclass_new
      {| d_name := model_name; d_bases := [base];
         d_identifying := Val identifying;
         d_hashexclude := Missing; d_hashinclude := Missing;
         d_schema := match schema with Some s => Val s | None => Missing end;
         d_annotations := annotations;
         d_all_id := all_id; d_table := table;
         d_fields := fields; d_tablename := tablename;
         d_config_table := config_table |}.

End Entity.

(* ===================================================================== *)
(** ** [dbgen/core/generator.py] and [dbgen/utils/graphs.py] *)
(* ===================================================================== *)

Module Gen.

(** An input of a node: [Arg(key, name)] names output [name] of the node
    with hash [key]; anything else is a constant. *)
Inductive arg : Type :=
| Arg (key name : string)
| Const.

(** What every computational node has. *)
Record node_data : Type := {
  hash : string;
  inputs : list (string * arg)
}.

(** The node classes.  [extract_subclass] tells a subclass of [Extract]
    (such as a query) from [Extract] itself, the class of
    [DEFAULT_EXTRACT]. *)
Record Extract : Type := { extract_subclass : bool; extract_node : node_data }.
Record Transform : Type := { transform_node : node_data }.
Record Load : Type := { load_node : node_data }.

Inductive ComputationalNode : Type :=
| IsExtract (e : Extract)
| IsTransform (t : Transform)
| IsLoad (l : Load).

Definition data_of (n : ComputationalNode) : node_data :=
  match n with
  | IsExtract e => extract_node e
  | IsTransform t => transform_node t
  | IsLoad l => load_node l
  end.

Definition isinstance_Extract (n : ComputationalNode) : bool :=
  match n with IsExtract _ => true | _ => false end.

#[global] Instance arg_eq_dec : EqDecision arg.
Proof. solve_decision. Defined.
#[global] Instance node_data_eq_dec : EqDecision node_data.
Proof. solve_decision. Defined.
#[global] Instance Extract_eq_dec : EqDecision Extract.
Proof. solve_decision. Defined.
#[global] Instance Transform_eq_dec : EqDecision Transform.
Proof. solve_decision. Defined.
#[global] Instance Load_eq_dec : EqDecision Load.
Proof. solve_decision. Defined.
#[global] Instance ComputationalNode_eq_dec : EqDecision ComputationalNode.
Proof. solve_decision. Defined.

(** *** Python dictionaries, in insertion order *)

Definition dict (V : Type) : Type := list (string * V).

Fixpoint dict_get {V} (d : dict V) (k : string) : option V :=
  match d with
  | [] => None
  | (k', v) :: d' => if decide (k' = k) then Some v else dict_get d' k
  end.

Definition dict_in {V} (d : dict V) (k : string) : bool :=
  bool_decide (k ∈ d.*1).

(** [d[k] = v]: a known key keeps its place, a new key goes last. *)
Fixpoint dict_set {V} (d : dict V) (k : string) (v : V) : dict V :=
  match d with
  | [] => [(k, v)]
  | (k', v') :: d' =>
      if decide (k' = k) then (k, v) :: d' else (k', v') :: dict_set d' k v
  end.

(** [{f(x): x for x in l}] and [d.update(d')] *)
Definition dict_of {V} (key : V → string) (l : list V) : dict V :=
  foldl (fun d x => dict_set d (key x) x) [] l.

Definition dict_update {V} (d d' : dict V) : dict V :=
  foldl (fun d kv => dict_set d kv.1 kv.2) d d'.

(** *** [networkx.DiGraph], as far as the generator uses it *)

Record DiGraph : Type := {
  g_nodes : dict ComputationalNode;       (* [graph.nodes[key]["data"]] *)
  g_edges : list (string * string)        (* distinct pairs (source, target) *)
}.

Definition empty_graph : DiGraph := {| g_nodes := []; g_edges := [] |}.

Definition graph_add_node (G : DiGraph) (k : string) (data : ComputationalNode)
    : DiGraph :=
  {| g_nodes := dict_set (g_nodes G) k data; g_edges := g_edges G |}.

Definition graph_add_edge (G : DiGraph) (e : string * string) : DiGraph :=
  {| g_nodes := g_nodes G;
     g_edges := if decide (e ∈ g_edges G) then g_edges G else g_edges G ++ [e] |}.

Definition predecessors (G : DiGraph) (v : string) : list string :=
  (filter (fun e => e.2 = v) (g_edges G)).*1.

(** *** [lexicographical_topological_sort] (networkx)

    Kahn's algorithm with a heap ordered by node key: at every step the
    least node among those whose predecessors have all been produced is
    produced next; when none is left although nodes remain, the graph has a
    cycle and [NetworkXUnfeasible] is raised. *)

Definition str_le (a b : string) : bool :=
  match String_as_OT.cmp a b with Gt => false | _ => true end.

Fixpoint least (l : list string) : option string :=
  match l with
  | [] => None
  | x :: l' =>
      match least l' with
      | None => Some x
      | Some m => Some (if str_le x m then x else m)
      end
  end.

Definition ready (G : DiGraph) (produced : list string) (v : string) : bool :=
  forallb (fun u => bool_decide (u ∈ produced)) (predecessors G v).

Fixpoint kahn (steps : nat) (G : DiGraph) (pending produced : list string)
    : list string * list string :=
  match steps with
  | 0 => (pending, produced)
  | S steps' =>
      match least (filter (fun v => ready G produced v = true) pending) with
      | None => (pending, produced)
      | Some v =>
          kahn steps' G (filter (fun w => w ≠ v) pending) (produced ++ [v])
      end
  end.

Definition lexicographical_topological_sort (G : DiGraph) : result (list string) :=
  let keys := (g_nodes G).*1 in
  match kahn (length keys) G keys [] with
  | ([], produced) => Ok produced
  | (_ :: _, _) => Raise NetworkXUnfeasible
  end.

(** [topsort_with_dict]: a cycle is reported as [ValueError]. *)
Definition topsort_with_dict (G : DiGraph) : result (list string) :=
  match lexicographical_topological_sort G with
  | Ok sortd => Ok sortd
  | Raise NetworkXUnfeasible => Raise ValueError
  | Raise e => Raise e
  end.

(** *** [Generator] *)

Record Generator : Type := {
  name : string;
  extract : Extract;
  transforms : list Transform;
  loads : list Load;
  _graph : option DiGraph
}.

Definition set_graph (g : Generator) (G : option DiGraph) : Generator :=
  {| name := name g; extract := extract g; transforms := transforms g;
     loads := loads g; _graph := G |}.

(** The edges [(arg.key, node_id)] of one node, in the order of its inputs;
    an [Arg] whose key is not a node raises [DBgenMissingInfo]. *)
Definition node_edges (nodes : dict ComputationalNode) (node_id : string)
    (node : ComputationalNode) (edges : list (string * string))
    : result (list (string * string)) :=
  foldl (fun acc ka =>
           edges ← acc;
           match ka.2 with
           | Arg key _ =>
               if dict_in nodes key then Ok (edges ++ [(key, node_id)])
               else Raise DBgenMissingInfo
           | Const => Ok edges
           end)
        (Ok edges) (inputs (data_of node)).

Definition build_graph (g : Generator) : result DiGraph :=
  let nodes : dict ComputationalNode :=
    [(hash (extract_node (extract g)), IsExtract (extract g))] in
  let nodes :=
    dict_update nodes
      (dict_of (fun n => hash (data_of n)) (IsTransform <$> transforms g)) in
  let nodes :=
    dict_update nodes
      (dict_of (fun n => hash (data_of n)) (IsLoad <$> loads g)) in
  edges ← foldl (fun acc kv => edges ← acc; node_edges nodes kv.1 kv.2 edges)
                (Ok []) nodes;
  let graph := foldl (fun G kv => graph_add_node G kv.1 kv.2) empty_graph nodes in
  Ok (foldl graph_add_edge graph edges).

(** [_computational_graph]: builds the graph once and keeps it in [_graph]. *)
Definition _computational_graph (g : Generator) : result (DiGraph * Generator) :=
  match _graph g with
  | None =>
      graph ← build_graph g;
      Ok (graph, set_graph g (Some graph))
  | Some graph => Ok (graph, g)
  end.

Definition _sort_graph (g : Generator)
    : result (list ComputationalNode * Generator) :=
  '(graph, g') ← _computational_graph g;
  sorted_node_ids ← topsort_with_dict graph;
  data ← foldr (fun key acc =>
                  rest ← acc;
                  match dict_get (g_nodes graph) key with
                  | Some d => Ok (d :: rest)
                  | None => Raise KeyError
                  end)
               (Ok []) sorted_node_ids;
  let sorted_nodes := filter (fun d => isinstance_Extract d = false) data in
  Ok (IsExtract (extract g') :: sorted_nodes, g').

(** What [add_node] may be given. *)
Inductive added_node : Type :=
| Node (n : ComputationalNode)
| FunctionNode (pyblock : Transform)
| UnknownNode.

Definition add_node (g : Generator) (node : added_node) : result Generator :=
  match node with
  | Node (IsExtract e) =>
      if extract_subclass (extract g) then Raise ValueError
      else Ok {| name := name g; extract := e; transforms := transforms g;
                 loads := loads g; _graph := _graph g |}
  | Node (IsTransform t) =>
      Ok {| name := name g; extract := extract g;
            transforms := transforms g ++ [t];
            loads := loads g; _graph := _graph g |}
  | FunctionNode pyblock =>
      Ok {| name := name g; extract := extract g;
            transforms := transforms g ++ [pyblock];
            loads := loads g; _graph := _graph g |}
  | Node (IsLoad l) =>
      Ok {| name := name g; extract := extract g; transforms := transforms g;
            loads := loads g ++ [l]; _graph := _graph g |}
  | UnknownNode => Raise ValueError
  end.

(** [validate_nodes]: every [Arg] of every node must name the hash of a
    node of the generator.  The hint in the text of the error depends on
    the name of the argument and on the extract; the exception is a
    [ValueError] in every case. *)
Definition validate_nodes (g : Generator) : result unit :=
  let nodes := (IsLoad <$> loads g) ++ (IsTransform <$> transforms g)
               ++ [IsExtract (extract g)] in
  let hashes : gset string := list_to_set ((fun node => hash (data_of node)) <$> nodes) in
  foldl (fun acc node =>
           _ ← acc;
           foldl (fun acc (ka : string * arg) =>
                    _ ← acc;
                    match ka.2 with
                    | Arg key _ =>
                        if decide (key ∈ hashes) then Ok () else Raise ValueError
                    | Const => Ok ()
                    end)
                 (Ok ()) (inputs (data_of node)))
        (Ok ()) nodes.

(** [_sorted_loads]: the loads among the sorted nodes. *)
Definition _sorted_loads (g : Generator) : result (list Load * Generator) :=
  match _sort_graph g with
  | Ok (sorted_nodes, g') =>
      Ok (omap (fun node => match node with IsLoad l => Some l | _ => None end)
               sorted_nodes, g')
  | Raise e => Raise e
  end.

End Gen.

(* ===================================================================== *)
(** ** [dbgen/core/model/run_gen.py] *)
(* ===================================================================== *)

Module RunGen.
Import QArith_base Qround Qreduction.
#[local] Close Scope Q_scope.

(** Python's [round(x, ndigits)], on rationals (times and rates are floats
    in the source; they are modelled as exact rationals): round half to
    even at [ndigits] decimals. *)
Definition py_round (x : Q) (ndigits : nat) : Q :=
  let scale := inject_Z (10 ^ Z.of_nat ndigits) in
  let y := Qmult x scale in
  let fl := Qfloor y in
  let n := match Qcompare (Qminus y (inject_Z fl)) (Qmake 1 2) with
           | Lt => fl
           | Gt => (fl + 1)%Z
           | Eq => if Z.even fl then fl else (fl + 1)%Z
           end in
  Qred (Qdiv (inject_Z n) scale).

(** One row of the meta table [gens], found by [(run, name)]. *)
Record gens_row : Type := {
  status : string;
  error : option string;
  runtime : option Q;
  rate : option Q;
  n_inputs : option nat
}.

Definition set_status (st : string) (r : gens_row) : gens_row :=
  {| status := st; error := error r; runtime := runtime r; rate := rate r;
     n_inputs := n_inputs r |}.

Definition set_failed (msg : string) (r : gens_row) : gens_row :=
  {| status := "failed"; error := Some msg; runtime := runtime r;
     rate := rate r; n_inputs := n_inputs r |}.

Definition set_stats (rt ra : Q) (n : nat) (r : gens_row) : gens_row :=
  {| status := status r; error := error r; runtime := Some rt;
     rate := Some ra; n_inputs := Some n |}.

Section run_gen.

(** Values of the row namespace and the state of the main database. *)
Context {value db : Type}.

(** The databases behind the two connections: the main database, which
    the actions write, and the meta tables [gens], [repeats] (keyed by
    generator and uid, holding the run) and [temp]. *)
Record state : Type := {
  main : db;
  gens : gmap (Z * string) gens_row;
  repeats : gmap (Z * string) Z;
  temp : list (string * nat)
}.

Definition with_main (s : state) (m : db) : state :=
  {| main := m; gens := gens s; repeats := repeats s; temp := temp s |}.
Definition with_gens (s : state) (g : gmap (Z * string) gens_row) : state :=
  {| main := main s; gens := g; repeats := repeats s; temp := temp s |}.
Definition with_repeats (s : state) (r : gmap (Z * string) Z) : state :=
  {| main := main s; gens := gens s; repeats := r; temp := temp s |}.
Definition with_temp (s : state) (t : list (string * nat)) : state :=
  {| main := main s; gens := gens s; repeats := repeats s; temp := t |}.

(** Code that reads and writes the databases and may raise. *)
Definition M (A : Type) : Type := state → state * result A.

Definition ret {A} (a : A) : M A := fun s => (s, Ok a).
Definition raise {A} (e : exn) : M A := fun s => (s, Raise e).
Definition bind {A B} (m : M A) (k : A → M B) : M B :=
  fun s => match m s with
           | (s', Ok a) => k a s'
           | (s', Raise e) => (s', Raise e)
           end.
Definition lift {A} (r : result A) : M A := fun s => (s, r).
Definition modify (f : state → state) : M unit := fun s => (f s, Ok tt).
Definition get : M state := fun s => (s, Ok s).

(** [try: body except ExternalError as e: handler(str(e))] *)
Definition try_except_ExternalError {A} (body : M A) (handler : string → M A) : M A :=
  fun s => match body s with
           | (s', Raise (ExternalError msg)) => handler msg s'
           | r => r
           end.

(** [for x in l: f(x)] *)
Fixpoint for_each {A} (l : list A) (f : A → M unit) : M unit :=
  match l with
  | [] => ret tt
  | x :: l' => bind (f x) (fun _ => for_each l' f)
  end.

(** A [PyBlock] is called on the namespace; an [Action] acts on the main
    database given the namespace, and may leave changes behind when it
    raises. *)
Record PyBlock : Type := {
  pb_hash : string;
  pb_call : gmap string value → result value
}.

Record Action : Type := {
  act : gmap string value → db → db * result unit
}.

Record Gen : Type := {
  name : string;
  hash : string;
  tags : list string;
  query : option (db → list value);   (* [select_dict(gcxn, gen.query.showQ())] *)
  funcs : list PyBlock;
  actions : list Action;
  get_id : Z                          (* [gen.get_id(gmcxn)[0][0]] *)
}.

(** What the source imports from modules outside the sources at hand:
    [hash_] and [str] (for [hasher]), [safe_div], the row [{}], and
    [Pool.imap_unordered]. *)
Context (hash_ : string → string) (str : value → string)
        (safe_div : Q → nat → Q) (empty_row : value)
        (imap_unordered : (value * string → M unit) → list (value * string) → M unit).

Definition retry_ (retry : bool) (gen : Gen) : bool :=
  retry || bool_decide ("io" ∈ tags gen).

Definition parallel (serial : bool) (gen : Gen) : bool :=
  negb serial && bool_decide ("parallel" ∈ tags gen).

Definition hasher (gen : Gen) (x : value) : string :=
  hash_ (hash gen +:+ str x).

(** [gen.update_status(gmcxn, run_id, st)] and the two [UPDATE gens ...
    WHERE run = run_id AND name = gen.name] *)
Definition update_status (gen : Gen) (run_id : Z) (st : string) : M unit :=
  modify (fun s => with_gens s (alter (set_status st) (run_id, name gen) (gens s))).

Definition update_failed (gen : Gen) (run_id : Z) (msg : string) : M unit :=
  modify (fun s => with_gens s (alter (set_failed msg) (run_id, name gen) (gens s))).

Definition update_stats (gen : Gen) (run_id : Z) (rt ra : Q) (n : nat) : M unit :=
  modify (fun s => with_gens s (alter (set_stats rt ra n) (run_id, name gen) (gens s))).

(** [for pb in pbs: d[pb.hash] = pb(d)] *)
Fixpoint run_funcs (pbs : list PyBlock) (d : gmap string value)
    : result (gmap string value) :=
  match pbs with
  | [] => Ok d
  | pb :: pbs' =>
      match pb_call pb d with
      | Ok v => run_funcs pbs' (<[pb_hash pb := v]> d)
      | Raise e => Raise e
      end
  end.

(** [for a in acts: a.act(cxn=cxn, objs=objs, fks=fks, row=d)] *)
Definition run_actions (acts : list Action) (d : gmap string value) : M unit :=
  for_each acts (fun a s =>
    let '(m, r) := act a d (main s) in (with_main s m, r)).

(** [INSERT INTO repeats (gen,run,uid) ... ON DUPLICATE KEY UPDATE uid=uid] *)
Definition insert_repeat (a_id run_id : Z) (hsh : string) : M unit :=
  modify (fun s =>
    match repeats s !! (a_id, hsh) with
    | Some _ => s
    | None => with_repeats s (<[(a_id, hsh) := run_id]> (repeats s))
    end).

Definition apply_and_act (pbs : list PyBlock) (acts : list Action)
    (row : value) (hsh : string) (a_id run_id : Z) : M unit :=
  bind (lift (run_funcs pbs {[ "query" := row ]})) (fun d =>
  bind (run_actions acts d) (fun _ =>
  insert_repeat a_id run_id hsh)).

(** [apply_serial] and [apply_parallel] differ in the connections they
    use (the open ones, or fresh ones to the same databases). *)
Definition apply_serial (gen : Gen) (a_id run_id : Z) (inp : value * string) : M unit :=
  apply_and_act (funcs gen) (actions gen) inp.1 inp.2 a_id run_id.

Definition apply_parallel (gen : Gen) (a_id run_id : Z) (inp : value * string) : M unit :=
  apply_and_act (funcs gen) (actions gen) inp.1 inp.2 a_id run_id.

(** The repeat check of the batch path: the uids go to [temp] with their
    index, those without a row in [repeats] for this generator are
    selected, and [temp] is truncated.  The selection has no ORDER BY: the
    rows are taken here as [temp] holds them, and what is proved of the
    selected rows does not depend on their order. *)
Definition repeat_checking (gen : Gen) (a_id : Z) (inputs : list value)
    : M (list (value * string)) :=
  bind (modify (fun s =>
          with_temp s (temp s ++ imap (fun i x => (hasher gen x, i)) inputs))) (fun _ =>
  bind get (fun s =>
  let rpts := filter (fun ui : string * nat => repeats s !! (a_id, ui.1) = None) (temp s) in
  bind (lift (foldr (fun ui acc =>
                       rest ← acc;
                       match inputs !! ui.2 with
                       | Some x => Ok ((x, ui.1) :: rest)
                       | None => Raise IndexError
                       end) (Ok []) rpts)) (fun inputs' =>
  bind (modify (fun s => with_temp s [])) (fun _ =>
  ret inputs')))).

(** The body of the [try] when the generator is tagged [stream]: the rows
    of the cursor are processed one by one, nothing is written to
    [repeats], and [tot] is never bound. *)
Definition stream_body (gen : Gen) (a_id run_id : Z) (retry' : bool) : M (option nat) :=
  match query gen with
  | None => raise AssertionError
  | Some q =>
      bind get (fun s =>
      bind (for_each (q (main s)) (fun row =>
              bind get (fun s =>
              let is_rpt :=
                if retry' then false
                else bool_decide (is_Some (repeats s !! (a_id, hasher gen row))) in
              if is_rpt then ret tt
              else bind (lift (run_funcs (funcs gen) ∅)) (fun d =>
                   run_actions (actions gen) d)))) (fun _ =>
      ret None))
  end.

(** The inputs of the batch path: the rows of the query (or the single
    row [{}]), paired with their uid, without the repeats unless [retry_]. *)
Definition select_inputs (gen : Gen) (a_id : Z) (retry' : bool)
    : M (list (value * string)) :=
  bind get (fun s =>
  let inputs := match query gen with
                | None => [empty_row]
                | Some q => q (main s)
                end in
  match inputs with
  | [] => ret []
  | _ :: _ =>
      if retry' then ret ((fun x => (x, hasher gen x)) <$> inputs)
      else repeat_checking gen a_id inputs
  end).

Definition batch_body (gen : Gen) (a_id run_id : Z) (retry' par : bool)
    : M (option nat) :=
  bind (select_inputs gen a_id retry') (fun inputs =>
  let tot := length inputs in
  bind (if par then imap_unordered (apply_parallel gen a_id run_id) inputs
        else for_each inputs (apply_serial gen a_id run_id)) (fun _ =>
  ret (Some tot))).

(** [run_gen]; [start] and [finish] are the two readings of [time()]. *)
Definition run_gen (gen : Gen) (run_id : Z) (retry serial : bool)
    (start finish : Q) : M Z :=
  let retry' := retry_ retry gen in
  let a_id := get_id gen in
  let par := parallel serial gen in
  try_except_ExternalError
    (bind (if bool_decide ("stream" ∈ tags gen)
           then stream_body gen a_id run_id retry'
           else batch_body gen a_id run_id retry' par) (fun tot =>
     bind (update_status gen run_id "completed") (fun _ =>
     let tot_time := Qminus finish start in
     let rate := py_round (Qdiv tot_time (inject_Z 60)) 4 in
     match tot with
     | None => raise UnboundLocalError
     | Some tot =>
         let runtime := py_round (safe_div tot_time tot) 2 in
         bind (update_stats gen run_id runtime rate tot) (fun _ =>
         ret 0%Z)
     end)))
    (fun msg =>
       bind (update_failed gen run_id msg) (fun _ => ret 1%Z)).

End run_gen.

End RunGen.

(* ===================================================================== *)
(** ** [dbgen/utils/misc.py]: [to_dict], [from_dict], [Base] *)
(* ===================================================================== *)

Module Serial.

(** Python values: the simple builtins, the containers, and objects with a
    [__dict__] ([vars]), known by [type(x).__module__ + '.' +
    type(x).__name__].  Dictionaries have string keys (others fail the
    assertion in [to_dict]); a float is kept as its bit pattern. *)
#[local] Set Warnings "-register-all".

Inductive pyval : Type :=
| PNone
| PBool (b : bool)
| PInt (z : Z)
| PFloat (bits : Z)
| PStr (s : string)
| PList (l : list pyval)
| PTuple (l : list pyval)
| PSet (l : list pyval)
| PDict (d : gmap string pyval)
| PObj (pytype : string) (vars : gmap string pyval).

(** [[f(x) for x in l]] and [{k: f(v) for k, v in d.items()}] when [f] may
    raise. *)
Definition list_sequence {A} (l : list (result A)) : result (list A) :=
  foldr (fun r acc =>
           match r, acc with
           | Ok a, Ok l' => Ok (a :: l')
           | Raise e, _ => Raise e
           | Ok _, Raise e => Raise e
           end) (Ok []) l.

Definition map_sequence {A} (m : gmap string (result A)) : result (gmap string A) :=
  map_fold (fun k r acc =>
              match acc, r with
              | Ok m', Ok a => Ok (<[k := a]> m')
              | Raise e, _ => Raise e
              | Ok _, Raise e => Raise e
              end) (Ok ∅) m.

(** ['dbgen' in s] for a string [s] *)
Fixpoint contains (sub s : string) : bool :=
  String.prefix sub s ||
  match s with
  | EmptyString => false
  | String _ s' => contains sub s'
  end.

(** [k[0] == '_'] for an attribute name *)
Definition private (k : string) : bool := String.prefix "_" k.

Section serial.

(** What lies outside the sources at hand: the JSON text layer ([dumps]
    with [indent=4, sort_keys=True], and [loads]), [hash_], and the classes:
    [argspec T] is [getfullargspec(T)[0][1:]] and [importable T] tells
    whether [getattr(import_module(mod), cname)] finds the class. *)
Context {text : Type}.
Context (dumps : pyval → text) (loads : text → result pyval)
        (hash_ : text → string)
        (argspec : string → list string) (importable : string → bool).

(** The attributes and dictionary items that a comprehension keeps are
    selected by their key, so the selection is written after the values
    are computed; what a dropped item evaluates to is dropped with it.

    [to_dict] on a value that [to_dict] itself produced, as in
    [to_dict(data[k], id_only=True)]: such a value holds no object, so only
    the branches for builtins are ever taken. *)
Fixpoint to_dict_data (x : pyval) : result pyval :=
  match x with
  | PNone | PBool _ | PInt _ | PFloat _ | PStr _ => Ok x
  | PDict d => d' ← map_sequence (to_dict_data <$> d); Ok (PDict d')
  | PList l => l' ← list_sequence (to_dict_data <$> l); Ok (PList l')
  | PTuple l =>
      l' ← list_sequence (to_dict_data <$> l);
      Ok (PDict {[ "_pytype" := PStr "builtins.tuple"; "_value" := PList l' ]})
  | PSet l =>
      l' ← list_sequence (to_dict_data <$> l);
      Ok (PDict {[ "_pytype" := PStr "builtins.set"; "_value" := PList l' ]})
  | PObj _ _ => Raise TypeError
  end.

(** [{k: to_dict(data[k], id_only=True) for k in sorted(kwargs(x))}] *)
Definition hash_args (kw : list string) (data : gmap string pyval)
    : result (gmap string pyval) :=
  foldr (fun k acc =>
           m ← acc;
           match data !! k with
           | Some j => j' ← to_dict_data j; Ok (<[k := j']> m)
           | None => Raise KeyError
           end) (Ok ∅) kw.

Fixpoint to_dict (x : pyval) (id_only : bool) : result pyval :=
  match x with
  | PNone | PBool _ | PInt _ | PFloat _ | PStr _ => Ok x
  | PDict d =>
      d' ← map_sequence ((fun v => to_dict v id_only) <$> d); Ok (PDict d')
  | PList l =>
      l' ← list_sequence ((fun v => to_dict v id_only) <$> l); Ok (PList l')
  | PTuple l =>
      l' ← list_sequence ((fun v => to_dict v id_only) <$> l);
      Ok (PDict {[ "_pytype" := PStr "builtins.tuple"; "_value" := PList l' ]})
  | PSet l =>
      l' ← list_sequence ((fun v => to_dict v id_only) <$> l);
      Ok (PDict {[ "_pytype" := PStr "builtins.set"; "_value" := PList l' ]})
  | PObj T vars =>
      let kw := argspec T in
      data ← map_sequence
               (filter (fun kv : string * result pyval =>
                          kv.1 ∈ kw ∨ (id_only = false ∧ private kv.1 = false))
                       ((fun v => to_dict v id_only) <$> vars));
      if id_only then Ok (PDict (data ∪ {[ "_pytype" := PStr T ]}))
      else
        args ← hash_args kw data;
        let hashdict := args ∪ {[ "_pytype" := PStr T ]} in
        let uid := hash_ (dumps (PDict hashdict)) in
        Ok (PDict (data ∪ {[ "_pytype" := PStr T; "_uid" := PStr uid ]}))
  end.

(** ['dbgen' in ptype], whatever [ptype] is. *)
Definition is_str (s : string) (v : pyval) : bool :=
  match v with PStr s' => String.eqb s s' | _ => false end.

Definition dbgen_in (ptype : pyval) : result bool :=
  match ptype with
  | PStr s => Ok (contains "dbgen" s)
  | PList l | PTuple l | PSet l => Ok (existsb (is_str "dbgen") l)
  | PDict d => Ok (bool_decide (is_Some (d !! "dbgen")))
  | PNone | PBool _ | PInt _ | PFloat _ | PObj _ _ => Raise TypeError
  end.

(** The call of the constructor with keyword arguments [kw]: every DbGen constructor stores its arguments
    under their names ([Base.__init__] asserts it, and that no argument
    starts with an underscore); all arguments are taken as required. *)
Definition construct (T : string) (kw : gmap string pyval) : result pyval :=
  if negb (forallb (fun a => bool_decide (is_Some (kw !! a))) (argspec T))
  then Raise TypeError
  else if existsb private (argspec T) then Raise AssertionError
  else Ok (PObj T kw).

Fixpoint from_dict (x : pyval) : result pyval :=
  match x with
  | PDict d =>
      let ptype := default (PStr "") (d !! "_pytype") in
      match dbgen_in ptype with
      | Raise e => Raise e
      | Ok true =>
          match ptype with
          | PStr T =>
              if importable T then
                kw ← map_sequence
                       (filter (fun kv : string * result pyval => kv.1 ∈ argspec T)
                               (from_dict <$> d));
                construct T kw
              else Raise ImportError
          | _ => Raise AttributeError
          end
      | Ok false =>
          if is_str "builtins/tuple" ptype
          then Ok (PTuple (PStr <$> (map_to_list d).*1))
          else if is_str "builtins/set" ptype
          then Ok (PSet (PStr <$> (map_to_list d).*1))
          else if bool_decide (is_Some (d !! "_ptype")) then Raise AssertionError
          else d' ← map_sequence (from_dict <$> d); Ok (PDict d')
      end
  | PList l => l' ← list_sequence (from_dict <$> l); Ok (PList l')
  | PNone | PBool _ | PInt _ | PFloat _ | PStr _ => Ok x
  | PTuple _ | PSet _ | PObj _ _ => Raise TypeError
  end.

(** [Base.toJSON], [Base.fromJSON], [Base.hash] *)
Definition toJSON (self : pyval) : result text :=
  d ← to_dict self false; Ok (dumps d).

Definition fromJSON (s : text) : result pyval :=
  j ← loads s;
  val ← from_dict j;
  match val with
  | PObj _ _ => Ok val
  | _ => Raise AssertionError
  end.

Definition hash (self : pyval) : result pyval :=
  dic ← to_dict self false;
  match dic with
  | PDict d => match d !! "_uid" with Some u => Ok u | None => Raise KeyError end
  | _ => Raise AssertionError
  end.

End serial.

End Serial.

(* ===================================================================== *)
(** ** [dbgen/core/expr/sqltypes.py] *)
(* ===================================================================== *)

Module SqlTypes.
Import Stdlib.Strings.Ascii.

Inductive SQLType : Type :=
| Varchar (mem : Z)
| Decimal (prec scale : Z)
| Boolean
| Int (kind : string) (signed : bool)
| Text (kind : string)
| Date
| Timestamp
| Double
| JSON
| JSONB.

(** [Int.__init__] *)
Definition Int_init (kind : string) (signed : bool) : result SQLType :=
  if bool_decide (kind ∈ ["small"; "medium"; "big"]) then Ok (Int kind signed)
  else Raise AssertionError.

(** [re.split] for a pattern that is an alternative of single characters:
    the pieces between the delimiters, the empty ones included. *)
Fixpoint split (delims : list ascii) (s : string) : list string :=
  match s with
  | EmptyString => [""]
  | String c s' =>
      if bool_decide (c ∈ delims) then "" :: split delims s'
      else match split delims s' with
           | piece :: pieces => String c piece :: pieces
           | [] => [String c ""]
           end
  end.

Section sqltypes.

(** The builtins [int], on a string, and ["%d" % n]. *)
Context (int : string → result Z) (fmt_d : Z → string).

Definition __str__ (t : SQLType) : result string :=
  match t with
  | Varchar mem => Ok ("VARCHAR(" +:+ fmt_d mem +:+ ")")
  | Decimal prec scale => Ok ("DECIMAL(" +:+ fmt_d prec +:+ "," +:+ fmt_d scale +:+ ")")
  | Boolean => Ok "Boolean"
  | Int kind signed =>
      core ← (if String.eqb kind "small" then Ok "SMALLINT"
              else if String.eqb kind "medium" then Ok "INTEGER"
              else if String.eqb kind "big" then Ok "BIGINT"
              else Raise ValueError);
      Ok (core +:+ (if signed : bool then "" else " UNSIGNED"))
  | Text _ => Ok "TEXT"
  | Date => Ok "DATE"
  | Timestamp => Ok "TIMESTAMP"
  | Double => Ok "DOUBLE"
  | JSON => Ok "JSON"
  | JSONB => Ok "JSONB"
  end.

(** [SQLType.from_str].  [split(...)[1]] raises [IndexError] when there is
    no second piece; unpacking [split(...)[1:3]] into two names raises
    [ValueError] when there are fewer than two. *)
Definition from_str (s : string) : result SQLType :=
  if Serial.contains "VARCHAR" s then
    match split ["("; ")"]%char s !! 1 with
    | Some mem => m ← int mem; Ok (Varchar m)
    | None => Raise IndexError
    end
  else if Serial.contains "DECIMAL" s then
    match take 2 (drop 1 (split ["("; ")"; ","]%char s)) with
    | [prec; scale] => p ← int prec; sc ← int scale; Ok (Decimal p sc)
    | _ => Raise ValueError
    end
  else if Serial.contains "INT" s then
    let kind := if Serial.contains "TINY" s then "tiny"
                else if Serial.contains "BIG" s then "big"
                else "medium" in
    let signed := negb (Serial.contains "UNSIGNED" s) in
    Int_init kind signed
  else if Serial.contains "TEXT" s then
    let kind := if Serial.contains "TINY" s then "tiny"
                else if Serial.contains "MED" s then "medium"
                else if Serial.contains "LONG" s then "long"
                else "" in
    Ok (Text kind)
  else Raise NotImplementedError.

End sqltypes.

End SqlTypes.

(* ===================================================================== *)
(** ** Properties of [dbgen/core/entity.py] *)
(* ===================================================================== *)

Module EntityProps.
Import Entity.

(** The set an attribute contributes to a union: a missing attribute counts
    as [set()], [None] is skipped. *)
Definition attr_set (a : attr (gset string)) : gset string :=
  match a with Val s => s | _ => ∅ end.

Definition bases_union (bases : list base_class)
    (field : base_class → attr (gset string)) : gset string :=
  ⋃ ((fun b => attr_set (field b)) <$> bases).

(** The identifying names a class statement declares itself: the
    [__identifying__] attribute, or every annotated name under [all_id]. *)
Definition declared_identifying (d : class_decl) : gset string :=
  if d_all_id d then d_annotations d else attr_set (d_identifying d).

Lemma inherit_field_cons {A} (b : base_class) (bases : list base_class)
    (field : base_class → attr A) (init : A) (joiner : A → A → A) :
  inherit_field (b :: bases) field init joiner =
  (field_val ← inherit_field bases field init joiner;
   match field b with
   | Missing => Ok (joiner field_val init)
   | IsNone => Ok field_val
   | Val curr_id => Ok (joiner field_val curr_id)
   | Other _ _ => Raise AssertionError
   end).
Proof.
  unfold inherit_field. rewrite reverse_cons, foldl_app. reflexivity.
Qed.

Lemma inherit_set_union bases field s :
  inherit_set bases field = Ok s → s = bases_union bases field.
Proof.
  unfold inherit_set, bases_union. revert s.
  induction bases as [|b bases IH]; intros s.
  - cbn. intros [= <-]. reflexivity.
  - rewrite inherit_field_cons. cbn.
    destruct (inherit_field bases field ∅ _) as [s'|e]; cbn; [|discriminate].
    specialize (IH s' eq_refl). subst s'.
    destruct (field b); cbn; intros [= <-]; apply set_eq; intros x;
      rewrite ?union_list_cons, ?elem_of_union, ?elem_of_empty; cbn;
      rewrite ?elem_of_union, ?elem_of_empty; tauto.
Qed.

Lemma joined_union own bases field s :
  joined own bases field = Ok s → s = attr_set own ∪ bases_union bases field.
Proof.
  unfold joined. destruct own; cbn; try discriminate.
  - destruct (inherit_set bases field) eqn:E; cbn; [|discriminate].
    intros [= <-]. apply inherit_set_union in E. subst. reflexivity.
  - destruct (inherit_set bases field) eqn:E; cbn; [|discriminate].
    intros [= <-]. apply inherit_set_union in E. subst. reflexivity.
Qed.

Lemma bases_union_member bases field b s :
  b ∈ bases → field b = Val s → s ⊆ bases_union bases field.
Proof.
  intros Hb Hs x Hx. unfold bases_union.
  apply elem_of_union_list. exists s. split; [|exact Hx].
  apply list_elem_of_fmap. exists b. rewrite Hs. auto.
Qed.

(** Everything [EntityMetaclass.__new__] returns, read off its result. *)
Lemma EntityMetaclass_new_inv d c :
  EntityMetaclass_new d = Ok c →
  ∃ ids0 hex hin0 schema0,
    joined (d_identifying d) (d_bases d) b_identifying = Ok ids0 ∧
    joined (d_hashexclude d) (d_bases d) b_hashexclude = Ok hex ∧
    joined (d_hashinclude d) (d_bases d) b_hashinclude = Ok hin0 ∧
    (if d_all_id d
     then d_identifying d = Missing ∧ __identifying__ c = ids0 ∪ d_annotations d
     else __identifying__ c = ids0) ∧
    _hashexclude_ c = hex ∧
    _hashinclude_ c = hin0 ∪ __identifying__ c ∧
    __schema__ c = (if truthy str_empty schema0 then schema0 else Val "public") ∧
    (if truthy str_empty (getattr_schema d) then schema0 = getattr_schema d
     else ∃ s, overwrite_parent (d_bases d) b_schema = Ok s ∧ schema0 = Val s) ∧
    __tablename__ c = d_tablename d ∧
    __fulltablename__ c = py_str (__schema__ c) +:+ "." +:+ d_tablename d ∧
    __identifying__ c ⊆ d_fields d.
Proof.
  unfold EntityMetaclass_new. intros H.
  destruct (joined (d_identifying d) _ _) as [ids0|] eqn:E1; cbn in H; [|discriminate].
  destruct (joined (d_hashexclude d) _ _) as [hex|] eqn:E2; cbn in H; [|discriminate].
  destruct (joined (d_hashinclude d) _ _) as [hin0|] eqn:E3; cbn in H; [|discriminate].
  exists ids0, hex, hin0.
  set (ids := if d_all_id d then _ else _) in H.
  destruct ids as [identifying|] eqn:Eids; cbn in H; [|discriminate].
  destruct (_ && existsb _ _); cbn in H; [discriminate|].
  set (sch := if truthy str_empty (getattr_schema d) then _ else _) in H.
  destruct sch as [schema0|] eqn:Esch; cbn in H; [|discriminate].
  exists schema0.
  destruct (filter _ (elements identifying)) eqn:Eunk; [|discriminate].
  injection H as <-. cbn.
  repeat split; try reflexivity.
  - subst ids. destruct (d_all_id d).
    + case_bool_decide; [|discriminate]. injection Eids as <-. auto.
    + injection Eids as <-. reflexivity.
  - subst sch. destruct (truthy str_empty (getattr_schema d)).
    + injection Esch as <-. reflexivity.
    + destruct (overwrite_parent _ _) as [s|]; cbn in Esch; [|discriminate].
      injection Esch as <-. eauto.
  - intros x Hx. destruct (decide (x ∈ d_fields d)) as [|Hn]; [assumption|].
    assert (Hin : x ∈ filter (fun x => x ∉ d_fields d) (elements identifying)).
    { apply list_elem_of_filter. split; [exact Hn|]. apply elem_of_elements, Hx. }
    rewrite Eunk in Hin. inversion Hin.
Qed.

(** C6, as amended: a class's identifying set is the union of the names it
    declares itself and of its bases' identifying sets, and so contains
    each base's set; the hash-exclude set follows the same union rule; the
    hash-include set is that union together with the class's identifying
    set. *)
Theorem C6_inherited_sets_union (d : class_decl) (c : entity_class) :
  EntityMetaclass_new d = Ok c →
  __identifying__ c =
    declared_identifying d ∪ bases_union (d_bases d) b_identifying
  ∧ (∀ b s, b ∈ d_bases d → b_identifying b = Val s → s ⊆ __identifying__ c)
  ∧ (∀ cb, as_base cb ∈ d_bases d → __identifying__ cb ⊆ __identifying__ c)
  ∧ _hashexclude_ c =
      attr_set (d_hashexclude d) ∪ bases_union (d_bases d) b_hashexclude
  ∧ _hashinclude_ c =
      attr_set (d_hashinclude d) ∪ bases_union (d_bases d) b_hashinclude
      ∪ __identifying__ c.
Proof.
  intros H.
  destruct (EntityMetaclass_new_inv d c H)
    as (ids0 & hex & hin0 & schema0 & E1 & E2 & E3 & Hid & Hex & Hin & _).
  apply joined_union in E1, E2, E3.
  assert (Hids : __identifying__ c =
            declared_identifying d ∪ bases_union (d_bases d) b_identifying).
  { unfold declared_identifying. destruct (d_all_id d).
    - destruct Hid as [Hm ->]. rewrite E1, Hm. cbn.
      apply set_eq. intros x. rewrite !elem_of_union, elem_of_empty. tauto.
    - rewrite Hid, E1. reflexivity. }
  split; [exact Hids|].
  assert (Hsub : ∀ b s, b ∈ d_bases d → b_identifying b = Val s →
                        s ⊆ __identifying__ c).
  { intros b s Hb Hs x Hx. rewrite Hids. apply elem_of_union. right.
    exact (bases_union_member _ _ _ _ Hb Hs x Hx). }
  split; [exact Hsub|].
  split; [intros cb Hcb; exact (Hsub _ _ Hcb eq_refl)|].
  split; [rewrite Hex, E2; reflexivity|].
  rewrite Hin, E3. reflexivity.
Qed.

Definition parent_decl : class_decl :=
  {| d_name := "Parent"; d_bases := [];
     d_identifying := Val {["test_id_col"]};
     d_hashexclude := Missing; d_hashinclude := Missing;
     d_schema := Missing; d_annotations := {["test_id_col"]};
     d_all_id := false; d_table := true;
     d_fields := {["test_id_col"]};
     d_tablename := "parent"; d_config_table := true |}.

Definition parent_class : entity_class :=
  {| __name__ := "Parent";
     __identifying__ := {["test_id_col"]};
     _hashexclude_ := ∅;
     _hashinclude_ := {["test_id_col"]};
     _is_table := true;
     __schema__ := Val "public";
     __tablename__ := "parent";
     __fulltablename__ := "public.parent";
     __fields__ := {["test_id_col"]};
     config_table := true |}.

Lemma parent_declared : EntityMetaclass_new parent_decl = Ok parent_class.
Proof. vm_compute. reflexivity. Qed.

(** A class derived from [Parent] that declares the identifying name
    "nick" of its own and no [_hashinclude_]. *)
Definition nicknamed_decl : class_decl :=
  {| d_name := "Nicknamed"; d_bases := [as_base parent_class];
     d_identifying := Val {["nick"]};
     d_hashexclude := Missing; d_hashinclude := Missing;
     d_schema := Missing; d_annotations := {["nick"]};
     d_all_id := false; d_table := false;
     d_fields := {["test_id_col"; "nick"]};
     d_tablename := "nicknamed"; d_config_table := false |}.

Definition nicknamed_class : entity_class :=
  {| __name__ := "Nicknamed";
     __identifying__ := {["nick"; "test_id_col"]};
     _hashexclude_ := ∅;
     _hashinclude_ := {["nick"; "test_id_col"]};
     _is_table := false;
     __schema__ := Val "public";
     __tablename__ := "nicknamed";
     __fulltablename__ := "public.nicknamed";
     __fields__ := {["test_id_col"; "nick"]};
     config_table := false |}.

Lemma nicknamed_declared : EntityMetaclass_new nicknamed_decl = Ok nicknamed_class.
Proof. vm_compute. reflexivity. Qed.

Lemma C6_inherited_sets_union_witness :
  __identifying__ nicknamed_class =
    declared_identifying nicknamed_decl
    ∪ bases_union [as_base parent_class] b_identifying
  ∧ __identifying__ parent_class ⊆ __identifying__ nicknamed_class
  ∧ _hashexclude_ nicknamed_class =
      attr_set (d_hashexclude nicknamed_decl)
      ∪ bases_union [as_base parent_class] b_hashexclude
  ∧ _hashinclude_ nicknamed_class =
      attr_set (d_hashinclude nicknamed_decl)
      ∪ bases_union [as_base parent_class] b_hashinclude
      ∪ __identifying__ nicknamed_class.
Proof.
  destruct (C6_inherited_sets_union nicknamed_decl nicknamed_class nicknamed_declared)
    as (Hid & _ & Hsup & Hex & Hin).
  split; [exact Hid|]. split; [|split; [exact Hex|exact Hin]].
  apply (Hsup parent_class). left.
Defined.

(** C6 as the specification states it fails for the hash-include set: the
    class derived from [Parent] declares no [_hashinclude_], so that the
    union of its own and its base's hash-include sets is that of [Parent];
    its hash-include set has its identifying name "nick" as well. *)
Lemma C6_hashinclude_counterexample :
  EntityMetaclass_new nicknamed_decl = Ok nicknamed_class
  ∧ d_bases nicknamed_decl = [as_base parent_class]
  ∧ "nick" ∈ _hashinclude_ nicknamed_class
  ∧ ("nick" ∉ attr_set (d_hashinclude nicknamed_decl)
              ∪ bases_union (d_bases nicknamed_decl) b_hashinclude)
  ∧ _hashinclude_ nicknamed_class
      ≠ attr_set (d_hashinclude nicknamed_decl)
        ∪ bases_union (d_bases nicknamed_decl) b_hashinclude.
Proof.
  assert (Hin : "nick" ∈ _hashinclude_ nicknamed_class)
    by (apply (bool_decide_unpack _); vm_compute; exact I).
  assert (Hout : "nick" ∉ (attr_set (d_hashinclude nicknamed_decl)
                           ∪ bases_union (d_bases nicknamed_decl) b_hashinclude))
    by (apply (bool_decide_unpack _); vm_compute; exact I).
  split; [exact nicknamed_declared|]. split; [reflexivity|].
  split; [exact Hin|]. split; [exact Hout|].
  intros H. rewrite H in Hin. exact (Hout Hin).
Qed.

(** C9: a class with no [__schema__] of its own or on a base gets the
    schema "public" and the full table name "public.<table>"; and whatever
    was declared, the full table name of a created class is its (non-empty)
    schema, a dot and the table name. *)
Theorem C9_default_schema_public (d : class_decl) (c : entity_class) :
  EntityMetaclass_new d = Ok c →
  (d_schema d = Missing →
   Forall (fun b => b_schema b = Missing) (d_bases d) →
   __schema__ c = Val "public" ∧
   __fulltablename__ c = "public." +:+ __tablename__ c)
  ∧ truthy str_empty (__schema__ c) = true
  ∧ __fulltablename__ c = py_str (__schema__ c) +:+ "." +:+ __tablename__ c.
Proof.
  intros H.
  destruct (EntityMetaclass_new_inv d c H)
    as (ids0 & hex & hin0 & schema0 & _ & _ & _ & _ & _ & _ & Hs & Hs0 & Ht & Hf & _).
  assert (Htruthy : truthy str_empty (__schema__ c) = true).
  { rewrite Hs. destruct (truthy str_empty schema0) eqn:E; [exact E|reflexivity]. }
  split; [|split; [exact Htruthy|rewrite Hf, Ht; reflexivity]].
  intros Hown Hbases.
  assert (Hget : getattr_schema d = Val "").
  { unfold getattr_schema. rewrite Hown.
    replace (filter (fun b => b_schema b ≠ Missing) (d_bases d)) with (@nil base_class);
      [reflexivity|].
    symmetry. clear -Hbases. induction Hbases as [|b bs Hb _ IH]; [reflexivity|].
    rewrite filter_cons. destruct (decide (b_schema b ≠ Missing)); [contradiction|exact IH]. }
  rewrite Hget in Hs0. cbn in Hs0. destruct Hs0 as (s & Hop & ->).
  assert (s = "").
  { clear -Hop Hbases. unfold overwrite_parent in Hop. revert s Hop.
    induction Hbases as [|b bs Hb _ IH]; intros s.
    - cbn. intros [= <-]. reflexivity.
    - rewrite inherit_field_cons, Hb. cbn.
      destruct (inherit_field bs b_schema "" _); cbn; [|discriminate].
      intros [= <-]. reflexivity. }
  subst s. cbn in Hs. rewrite Hf, Hs, Ht. cbn. split; reflexivity.
Qed.

Lemma C9_default_schema_public_witness :
  __schema__ parent_class = Val "public" ∧
  __fulltablename__ parent_class = "public.parent".
Proof.
  refine (proj1 (C9_default_schema_public parent_decl parent_class parent_declared) _ _).
  - reflexivity.
  - constructor.
Defined.

(** *** [load] *)

Definition child_class : entity_class :=
  {| __name__ := "Child";
     __identifying__ := {["test_id_col"; "parent"]};
     _hashexclude_ := ∅;
     _hashinclude_ := {["test_id_col"; "parent"]};
     _is_table := true;
     __schema__ := Val "public";
     __tablename__ := "child";
     __fulltablename__ := "public.child";
     __fields__ := {["id"; "test_id_col"; "test_col"; "parent"]};
     config_table := true |}.

Definition child : table_class :=
  {| cls := child_class;
     metadata_table :=
       Some [ {| col_name := "id"; col_foreign_keys := false |};
              {| col_name := "test_id_col"; col_foreign_keys := false |};
              {| col_name := "test_col"; col_foreign_keys := false |};
              {| col_name := "parent"; col_foreign_keys := true |} ];
     primary_key_names := ["id"];
     field_type_name :=
       {[ "id" := "UUID"; "test_id_col" := "int"; "test_col" := "str";
          "parent" := "UUID" ]} |}.

Definition valid_values (kwargs : gmap string kwval) : Prop :=
  map_Forall (fun k v => k ≠ "insert" → is_arglike_or_load v = true) kwargs.

#[global] Instance valid_values_dec kwargs : Decision (valid_values kwargs).
Proof. unfold valid_values. apply _. Defined.

Lemma filter_is_nil {A} (P : A → Prop) `{∀ x, Decision (P x)} (l : list A) :
  (∀ x, x ∈ l → ¬ P x) → filter P l = [].
Proof.
  induction l as [|a l IH]; intros Hl; [reflexivity|].
  rewrite filter_cons. destruct (decide (P a)) as [Ha|Ha].
  - exfalso. apply (Hl a); [left|exact Ha].
  - apply IH. intros x Hx. apply Hl. right. exact Hx.
Qed.

Lemma filter_cons_inv {A} (P : A → Prop) `{∀ x, Decision (P x)} (l t : list A) x :
  filter P l = x :: t → P x ∧ x ∈ l.
Proof.
  intros E. assert (Hx : x ∈ filter P l) by (rewrite E; left).
  apply list_elem_of_filter in Hx. exact Hx.
Qed.

Lemma invalid_args_nil kwargs :
  valid_values kwargs →
  filter (fun kv : string * kwval => kv.1 ≠ "insert" ∧ is_arglike_or_load kv.2 = false)
         (map_to_list kwargs) = [].
Proof.
  intros Hv. apply filter_is_nil. intros [k v] Hkv [Hk Hbad]. cbn in *.
  apply elem_of_map_to_list in Hkv. rewrite (Hv k v Hkv Hk) in Hbad. discriminate.
Qed.

Lemma load_invalid_value c ins kwargs k v :
  kwargs !! k = Some v → k ≠ "insert" → is_arglike_or_load v = false →
  load c ins kwargs = Raise ValueError.
Proof.
  intros Hkv Hk Hbad. unfold load.
  destruct (filter _ (map_to_list kwargs)) eqn:E; [|reflexivity].
  exfalso. refine (filter_nil_not_elem_of _ _ (k, v) E _ _).
  - split; assumption.
  - apply elem_of_map_to_list. exact Hkv.
Qed.

Lemma _get_load_entity_not_missing c :
  _get_load_entity c ≠ Raise DBgenMissingInfo ∧
  _get_load_entity c ≠ Raise DBgenInvalidArgument.
Proof.
  unfold _get_load_entity.
  destruct (negb _); [split; discriminate|].
  destruct (_columns c) as [columns|e] eqn:Ec; cbn.
  2:{ unfold _columns in Ec. destruct (metadata_table c); [discriminate|].
      injection Ec as <-. split; discriminate. }
  destruct (primary_key_names c) as [|pk [|]]; try (split; discriminate).
  match goal with |- context [foldl ?f ?a ?l] =>
    assert (Hf : (∃ m, foldl f a l = Ok m) ∨ foldl f a l = Raise KeyError) end.
  { generalize (filter (fun x => x ∈ __identifying__ (cls c)) (all_attrs columns)).
    intros l. induction l as [|x l IH] using rev_ind; [left; eexists; reflexivity|].
    rewrite foldl_app. cbn. destruct IH as [[m ->]| ->]; cbn; [|right; reflexivity].
    destruct (field_type_name c !! x); [left; eexists; reflexivity|right; reflexivity]. }
  destruct Hf as [[m ->]| ->]; cbn; split; discriminate.
Qed.

(** The only way [load] raises the missing-identifier error. *)
Lemma load_missing_iff c ins kwargs :
  load c ins kwargs = Raise DBgenMissingInfo ↔
  filter (fun kv : string * kwval => kv.1 ≠ "insert" ∧ is_arglike_or_load kv.2 = false)
         (map_to_list kwargs) = [] ∧
  pk_truthy (kwargs !! __tablename__ (cls c)) = false ∧
  __identifying__ (cls c) ∖ dom (delete (__tablename__ (cls c)) kwargs) ≠ ∅.
Proof.
  assert (Htail : ∀ pk kw,
    (class_columns ← _columns c;
     let attrs := filter (fun kv : string * kwval => kv.1 ∈ all_attrs class_columns) kw in
     let fks := filter (fun kv : string * kwval => kv.1 ∉ dom attrs) kw in
     match filter (fun fk => fk ∉ all_fks class_columns) (elements (dom fks)) with
     | _ :: _ => Raise DBgenInvalidArgument
     | [] =>
         let fks := load_out <$> fks in
         le ← _get_load_entity c;
         Ok {| load_entity := le; primary_key := pk;
               inputs := fks ∪ attrs; insert := ins |}
     end) ≠ Raise DBgenMissingInfo).
  { intros pk kw.
    destruct (_columns c) as [cols|e] eqn:Ec; cbn.
    2:{ unfold _columns in Ec. destruct (metadata_table c); [discriminate|].
        injection Ec as <-. discriminate. }
    destruct (filter _ (elements _)); [|discriminate].
    destruct (_get_load_entity c) eqn:El; cbn; [discriminate|].
    intros [= ->]. exact (proj1 (_get_load_entity_not_missing c) El). }
  unfold load.
  destruct (filter _ (map_to_list kwargs)); [|split; [discriminate|intros [? _]; discriminate]].
  destruct (pk_truthy _) eqn:Epk; cbn.
  - split; [|intros (_ & ? & _); discriminate].
    intros H. exfalso. exact (Htail _ _ H).
  - case_bool_decide as Hm; cbn.
    + split; [|intros (_ & _ & ?); contradiction].
      intros H. exfalso. exact (Htail _ _ H).
    + split; [intros _; repeat split; exact Hm|reflexivity].
Qed.

(** C5, as amended: when every keyword value is Arg-like or a Load and no
    primary-key override is given, [load] raises the missing-identifier
    error exactly when a member of the identifying set is absent from the
    keywords; with a primary-key override (an Arg-like value or a Load
    under the table's name) it never raises it. *)
Theorem C5_missing_identifier (c : table_class) (ins : bool)
    (kwargs : gmap string kwval) :
  (valid_values kwargs →
   kwargs !! __tablename__ (cls c) = None →
   (load c ins kwargs = Raise DBgenMissingInfo ↔
    ∃ x, x ∈ __identifying__ (cls c) ∧ kwargs !! x = None))
  ∧ (∀ pk, kwargs !! __tablename__ (cls c) = Some pk →
     is_arglike_or_load pk = true →
     load c ins kwargs ≠ Raise DBgenMissingInfo).
Proof.
  split.
  - intros Hv Hpk. rewrite load_missing_iff, Hpk.
    rewrite (delete_id _ _ Hpk). cbn. split.
    + intros (_ & _ & Hne). apply set_choose_L in Hne as [x Hx].
      apply elem_of_difference in Hx as [Hx Hd]. exists x. split; [exact Hx|].
      apply not_elem_of_dom. exact Hd.
    + intros (x & Hx & Hn). split; [exact (invalid_args_nil _ Hv)|].
      split; [reflexivity|]. intros He.
      assert (Hin : x ∈ __identifying__ (cls c) ∖ dom kwargs).
      { apply elem_of_difference. split; [exact Hx|]. apply not_elem_of_dom. exact Hn. }
      rewrite He in Hin. inversion Hin.
  - intros pk Hpk Hok H. apply load_missing_iff in H as (_ & Ht & _).
    rewrite Hpk in Ht. destruct pk; cbn in *; discriminate.
Qed.

Definition partial_kwargs : gmap string kwval :=
  {[ "test_id_col" := VConst (CInt 1); "test_col" := VConst CNone ]}.

Lemma C5_missing_identifier_witness :
  load child false partial_kwargs = Raise DBgenMissingInfo.
Proof.
  assert (Hv : valid_values partial_kwargs)
    by (apply (bool_decide_unpack _); vm_compute; exact I).
  apply (proj1 (C5_missing_identifier child false partial_kwargs) Hv).
  - reflexivity.
  - exists "parent". split; [|reflexivity].
    apply (bool_decide_unpack _). vm_compute. exact I.
Defined.

(** C5 as the specification states it fails: with a keyword value that is
    not Arg-like, an identifying input is absent and no primary key is
    given, yet the error is [ValueError], not the missing-identifier one. *)
Lemma C5_counterexample :
  let kwargs : gmap string kwval := {[ "test_col" := VPlain true ]} in
  kwargs !! __tablename__ (cls child) = None
  ∧ (∃ x, x ∈ __identifying__ (cls child) ∧ kwargs !! x = None)
  ∧ load child false kwargs = Raise ValueError
  ∧ load child false kwargs ≠ Raise DBgenMissingInfo.
Proof.
  cbn zeta. split; [reflexivity|]. split.
  - exists "parent". split; [|reflexivity]. cbn. set_solver.
  - split; [vm_compute; reflexivity|vm_compute; discriminate].
Qed.

Lemma all_attrs_columns cols x : x ∈ all_attrs cols → x ∈ col_name <$> cols.
Proof.
  unfold all_attrs. intros H. apply list_elem_of_fmap in H as (col & -> & Hc).
  apply list_elem_of_filter in Hc as [_ Hc]. apply list_elem_of_fmap. eauto.
Qed.

Lemma all_fks_columns cols x : x ∈ all_fks cols → x ∈ col_name <$> cols.
Proof.
  unfold all_fks. intros H. apply list_elem_of_fmap in H as (col & -> & Hc).
  apply list_elem_of_filter in Hc as [_ Hc]. apply list_elem_of_fmap. eauto.
Qed.

Lemma elem_of_dom_filter (P : string * kwval → Prop) `{∀ x, Decision (P x)}
    (m : gmap string kwval) k :
  k ∈ dom (filter P m) ↔ ∃ v, m !! k = Some v ∧ P (k, v).
Proof.
  rewrite elem_of_dom. unfold is_Some. split.
  - intros [v Hv]. apply map_lookup_filter_Some in Hv. eauto.
  - intros (v & Hv & HP). exists v. apply map_lookup_filter_Some. auto.
Qed.

(** The keywords left after the primary key is popped are sorted into
    [attrs] and [fks]; a keyword that names no column ends up in [fks] and
    is not in [all_fks]. *)
Lemma unknown_keyword_found cols (kw : gmap string kwval) k :
  k ∈ dom kw → k ∉ col_name <$> cols →
  let attrs := filter (fun kv : string * kwval => kv.1 ∈ all_attrs cols) kw in
  let fks := filter (fun kv : string * kwval => kv.1 ∉ dom attrs) kw in
  k ∈ filter (fun fk => fk ∉ all_fks cols) (elements (dom fks)).
Proof.
  intros Hk Hn attrs fks. apply list_elem_of_filter. split.
  - intros Hf. apply Hn, all_fks_columns, Hf.
  - apply elem_of_elements. subst fks. apply elem_of_dom_filter.
    apply elem_of_dom in Hk as [v Hv]. exists v. split; [exact Hv|]. cbn.
    subst attrs. intros Ha. apply elem_of_dom_filter in Ha as (v' & _ & Ha).
    cbn in Ha. apply Hn, all_attrs_columns, Ha.
Qed.

Lemma known_keywords cols (kw : gmap string kwval) k :
  let attrs := filter (fun kv : string * kwval => kv.1 ∈ all_attrs cols) kw in
  let fks := filter (fun kv : string * kwval => kv.1 ∉ dom attrs) kw in
  filter (fun fk => fk ∉ all_fks cols) (elements (dom fks)) = [] →
  k ∈ dom kw → k ∈ col_name <$> cols.
Proof.
  intros attrs fks Hnil Hk.
  destruct (decide (k ∈ col_name <$> cols)) as [|Hn]; [assumption|].
  pose proof (unknown_keyword_found cols kw k Hk Hn) as Hin.
  cbn zeta in Hin. fold attrs in Hin. fold fks in Hin. rewrite Hnil in Hin. inversion Hin.
Qed.

(** C10, as amended: [load] builds a [Load] only if every keyword value is
    Arg-like or a Load and every keyword other than the table's name (the
    primary-key override) names a column; a value that is neither raises
    [ValueError]; and once the value check and the missing-identifier check
    have passed and the table is found, a keyword other than the table's
    name that names no column raises the invalid-argument error. *)
Theorem C10_load_rejects_invalid_kwargs (c : table_class) (ins : bool)
    (kwargs : gmap string kwval) :
  (∀ L, load c ins kwargs = Ok L →
     valid_values kwargs ∧
     ∃ cols, _columns c = Ok cols ∧
       ∀ k, k ∈ dom kwargs → k ≠ __tablename__ (cls c) → k ∈ col_name <$> cols)
  ∧ (∀ k v, kwargs !! k = Some v → k ≠ "insert" → is_arglike_or_load v = false →
       load c ins kwargs = Raise ValueError)
  ∧ (∀ cols k,
       valid_values kwargs →
       (pk_truthy (kwargs !! __tablename__ (cls c)) = true ∨
        __identifying__ (cls c) ⊆ dom kwargs ∖ {[__tablename__ (cls c)]}) →
       _columns c = Ok cols →
       k ∈ dom kwargs → k ≠ __tablename__ (cls c) → k ∉ col_name <$> cols →
       load c ins kwargs = Raise DBgenInvalidArgument).
Proof.
  split; [|split].
  - intros L HL. unfold load in HL.
    destruct (filter _ (map_to_list kwargs)) eqn:Einv; [|discriminate].
    split.
    { intros k v Hkv Hk. destruct (is_arglike_or_load v) eqn:Ev; [reflexivity|].
      exfalso. refine (filter_nil_not_elem_of _ _ (k, v) Einv _ _).
      - split; assumption.
      - apply elem_of_map_to_list. exact Hkv. }
    destruct (negb _ && negb _); [discriminate|].
    destruct (_columns c) as [cols|] eqn:Ec; cbn in HL; [|discriminate].
    exists cols. split; [reflexivity|].
    destruct (filter _ (elements _)) eqn:Eunk; [|discriminate].
    intros k Hk Hname.
    refine (known_keywords cols (delete (__tablename__ (cls c)) kwargs) k Eunk _).
    rewrite dom_delete_L. apply elem_of_difference. split; [exact Hk|].
    rewrite elem_of_singleton. exact Hname.
  - intros k v. apply load_invalid_value.
  - intros cols k Hv Hpk Hc Hk Hname Hn. unfold load.
    rewrite (invalid_args_nil _ Hv).
    assert (Hcond : negb (pk_truthy (kwargs !! __tablename__ (cls c))) &&
                    negb (bool_decide (__identifying__ (cls c) ∖
                       dom (delete (__tablename__ (cls c)) kwargs) = ∅)) = false).
    { destruct Hpk as [-> | Hsub]; [reflexivity|].
      apply andb_false_intro2. rewrite bool_decide_eq_true_2; [reflexivity|].
      rewrite dom_delete_L. apply set_eq. intros x.
      rewrite elem_of_difference, elem_of_empty. specialize (Hsub x). tauto. }
    rewrite Hcond, Hc. cbn.
    assert (Hin : k ∈ dom (delete (__tablename__ (cls c)) kwargs)).
    { rewrite dom_delete_L. apply elem_of_difference. split; [exact Hk|].
      rewrite elem_of_singleton. exact Hname. }
    pose proof (unknown_keyword_found cols _ k Hin Hn) as Hf. cbn zeta in Hf.
    destruct (filter _ (elements _)); [inversion Hf|reflexivity].
Qed.

Definition bogus_kwargs : gmap string kwval :=
  {[ "parent" := VConst CNone; "test_id_col" := VConst (CInt 1);
     "bogus" := VConst CNone ]}.

Lemma C10_load_rejects_invalid_kwargs_witness :
  load child false bogus_kwargs = Raise DBgenInvalidArgument.
Proof.
  refine (proj2 (proj2 (C10_load_rejects_invalid_kwargs child false bogus_kwargs))
            _ "bogus" _ _ eq_refl _ _ _).
  - apply (bool_decide_unpack _). vm_compute. exact I.
  - right. apply (bool_decide_unpack _). vm_compute. exact I.
  - apply (bool_decide_unpack _). vm_compute. exact I.
  - discriminate.
  - apply (bool_decide_unpack _). vm_compute. exact I.
Defined.

(** C10 as the specification states it fails twice: an unknown keyword is
    reported as a missing identifier when identifying inputs are absent,
    and the keyword equal to the table's name is accepted although it names
    no column. *)
Definition column_names (c : table_class) : list string :=
  col_name <$> default [] (metadata_table c).

Definition only_bogus : gmap string kwval := {[ "bogus" := VConst CNone ]}.
Definition only_pk : gmap string kwval := {[ "child" := VConst (CInt 1) ]}.

Lemma C10_counterexample :
  (("bogus" ∉ column_names child) ∧
   load child false only_bogus = Raise DBgenMissingInfo)
  ∧ (("child" ∉ column_names child) ∧
     is_ok (load child false only_pk) = true).
Proof.
  split; split.
  - apply (bool_decide_unpack _). vm_compute. exact I.
  - vm_compute. reflexivity.
  - apply (bool_decide_unpack _). vm_compute. exact I.
  - vm_compute. reflexivity.
Qed.

End EntityProps.

(* ===================================================================== *)
(** ** Properties of the generator graph *)
(* ===================================================================== *)

Module GenProps.
Import Gen.

(** *** The cached graph *)

Lemma add_node_graph g node g' : add_node g node = Ok g' → _graph g' = _graph g.
Proof.
  destruct node as [[e|t|l]|pb|]; cbn; try discriminate.
  - destruct (extract_subclass (extract g)); [discriminate|].
    intros [= <-]. reflexivity.
  - intros [= <-]. reflexivity.
  - intros [= <-]. reflexivity.
  - intros [= <-]. reflexivity.
Qed.

Lemma _computational_graph_cached g G :
  _graph g = Some G → _computational_graph g = Ok (G, g).
Proof. unfold _computational_graph. intros ->. reflexivity. Qed.

Lemma _computational_graph_sets_cache g G g1 :
  _computational_graph g = Ok (G, g1) → _graph g1 = Some G.
Proof.
  unfold _computational_graph. destruct (_graph g) as [G0|] eqn:E.
  - intros [= <- <-]. exact E.
  - destruct (build_graph g); cbn; [|discriminate]. intros [= <- <-]. reflexivity.
Qed.

Lemma add_node_extract g node g' :
  add_node g node = Ok g' →
  extract g' = match node with Node (IsExtract e) => e | _ => extract g end.
Proof.
  destruct node as [[e|t|l]|pb|]; cbn; try discriminate.
  - destruct (extract_subclass (extract g)); [discriminate|].
    intros [= <-]. reflexivity.
  - intros [= <-]. reflexivity.
  - intros [= <-]. reflexivity.
  - intros [= <-]. reflexivity.
Qed.

Lemma dict_get_entry {V} (d : dict V) k v : dict_get d k = Some v → v ∈ d.*2.
Proof.
  induction d as [|[k' v'] d IH]; cbn; [discriminate|].
  destruct (decide (k' = k)); [intros [= ->]; left|intros H; right; exact (IH H)].
Qed.

Lemma sorted_data_entries (G : DiGraph) (ids : list string) data :
  foldr (fun key acc =>
           rest ← acc;
           match dict_get (g_nodes G) key with
           | Some d => Ok (d :: rest)
           | None => Raise KeyError
           end) (Ok []) ids = Ok data →
  ∀ n, n ∈ data → n ∈ (g_nodes G).*2.
Proof.
  revert data. induction ids as [|k ids IH]; intros data; cbn.
  - intros [= <-] n Hn. inversion Hn.
  - destruct (foldr _ (Ok []) ids) as [rest|]; cbn; [|discriminate].
    destruct (dict_get (g_nodes G) k) as [d|] eqn:Ek; [|discriminate].
    intros [= <-] n Hn. apply elem_of_cons in Hn as [->|Hn].
    + exact (dict_get_entry _ _ _ Ek).
    + exact (IH rest eq_refl n Hn).
Qed.

(** Two generators that hold the same cached graph are sorted alike, but
    for the extract that each puts first. *)
Lemma _sort_graph_same_cache g1 g2 G order g3 :
  _graph g1 = Some G → _graph g2 = Some G →
  _sort_graph g2 = Ok (order, g3) →
  g3 = g2
  ∧ ∃ rest, order = IsExtract (extract g2) :: rest
      ∧ _sort_graph g1 = Ok (IsExtract (extract g1) :: rest, g1)
      ∧ ∀ n, n ∈ rest → isinstance_Extract n = false ∧ n ∈ (g_nodes G).*2.
Proof.
  intros H1 H2. unfold _sort_graph, _computational_graph. rewrite H1, H2. cbn.
  destruct (topsort_with_dict G) as [ids|]; cbn; [|discriminate].
  destruct (foldr _ (Ok []) ids) as [data|] eqn:Ed; cbn; [|discriminate].
  intros [= <- <-]. split; [reflexivity|]. eexists. split; [reflexivity|].
  split; [reflexivity|]. intros n Hn. apply list_elem_of_filter in Hn as [Hne Hn].
  split; [exact Hne|exact (sorted_data_entries G ids data Ed n Hn)].
Qed.

(** C4, as amended: the graph is memoized by its first build, and
    [add_node] leaves the cache as it is: every later call, also after a
    node was added, returns the graph built first.  The order that
    [_sort_graph] returns afterwards is the generator's extract, which is
    the added node if that is an extract, followed by what followed
    before the node was added: nodes of the graph built first that are no
    extract. *)
Theorem C4_graph_memoized_not_invalidated (g g1 : Generator) (G : DiGraph) :
  _computational_graph g = Ok (G, g1) →
  _computational_graph g1 = Ok (G, g1)
  ∧ ∀ node g2, add_node g1 node = Ok g2 →
      _graph g2 = Some G ∧ _computational_graph g2 = Ok (G, g2)
      ∧ extract g2 = match node with Node (IsExtract e) => e | _ => extract g1 end
      ∧ ∀ order g3, _sort_graph g2 = Ok (order, g3) →
          g3 = g2
          ∧ ∃ rest, order = IsExtract (extract g2) :: rest
              ∧ _sort_graph g1 = Ok (IsExtract (extract g1) :: rest, g1)
              ∧ ∀ n, n ∈ rest → isinstance_Extract n = false ∧ n ∈ (g_nodes G).*2.
Proof.
  intros H. apply _computational_graph_sets_cache in H.
  split; [exact (_computational_graph_cached _ _ H)|].
  intros node g2 Hadd. pose proof (add_node_extract _ _ _ Hadd) as Hext.
  apply add_node_graph in Hadd. rewrite H in Hadd.
  split; [exact Hadd|]. split; [exact (_computational_graph_cached _ _ Hadd)|].
  split; [exact Hext|].
  intros order g3 Hsort. exact (_sort_graph_same_cache g1 g2 G order g3 H Hadd Hsort).
Qed.

Definition node (h : string) (i : list (string * arg)) : node_data :=
  {| hash := h; inputs := i |}.

Definition plain_extract : Extract :=
  {| extract_subclass := false; extract_node := node "e0" [] |}.

Definition double : Transform :=
  {| transform_node := node "t1" [("x", Arg "e0" "out")] |}.

Definition empty_gen : Generator :=
  {| name := "gen"; extract := plain_extract; transforms := []; loads := [];
     _graph := None |}.

Definition empty_gen_graph : DiGraph :=
  {| g_nodes := [("e0", IsExtract plain_extract)]; g_edges := [] |}.

(** The generator after its first build, and after [double] was added. *)
Definition built_gen : Generator := set_graph empty_gen (Some empty_gen_graph).

Definition grown_gen : Generator :=
  {| name := "gen"; extract := plain_extract; transforms := [double]; loads := [];
     _graph := Some empty_gen_graph |}.

Lemma C4_graph_memoized_not_invalidated_witness :
  _computational_graph built_gen = Ok (empty_gen_graph, built_gen)
  ∧ _graph grown_gen = Some empty_gen_graph
  ∧ _computational_graph grown_gen = Ok (empty_gen_graph, grown_gen)
  ∧ extract grown_gen = extract built_gen
  ∧ ∃ rest, [IsExtract plain_extract] = IsExtract (extract grown_gen) :: rest
      ∧ _sort_graph built_gen = Ok (IsExtract (extract built_gen) :: rest, built_gen)
      ∧ ∀ n, n ∈ rest →
          isinstance_Extract n = false ∧ n ∈ (g_nodes empty_gen_graph).*2.
Proof.
  destruct (C4_graph_memoized_not_invalidated empty_gen built_gen empty_gen_graph eq_refl)
    as [Hcached Hadded].
  split; [exact Hcached|].
  destruct (Hadded (Node (IsTransform double)) grown_gen eq_refl)
    as (Hgraph & Hagain & Hextract & Hsort).
  split; [exact Hgraph|]. split; [exact Hagain|]. split; [exact Hextract|].
  exact (proj2 (Hsort [IsExtract plain_extract] grown_gen eq_refl)).
Defined.

(** C4 as the specification states it fails: a transform added after the
    first build is not in the graph returned afterwards, nor in the order
    that [_sort_graph] returns, although a fresh build of the same
    generator has it. *)
Lemma C4_counterexample :
  ∃ g1 g2 G2 g3 Gfresh,
    _computational_graph empty_gen = Ok (empty_gen_graph, g1)
    ∧ add_node g1 (Node (IsTransform double)) = Ok g2
    ∧ _computational_graph g2 = Ok (G2, g3)
    ∧ dict_in (g_nodes G2) "t1" = false
    ∧ _sort_graph g2 = Ok ([IsExtract plain_extract], g3)
    ∧ build_graph g2 = Ok Gfresh
    ∧ dict_in (g_nodes Gfresh) "t1" = true.
Proof.
  eexists _, _, _, _, _.
  split; [vm_compute; reflexivity|].
  split; [vm_compute; reflexivity|].
  split; [vm_compute; reflexivity|].
  split; [vm_compute; reflexivity|].
  split; [vm_compute; reflexivity|].
  split; vm_compute; reflexivity.
Qed.

(** An extract added after the first build is the first node of the order,
    while the graph still holds the extract it was built with. *)
Definition q1 : Extract :=
  {| extract_subclass := true; extract_node := node "q1" [] |}.

Example added_extract_is_sorted_first :
  ∃ g2, add_node built_gen (Node (IsExtract q1)) = Ok g2
    ∧ _sort_graph g2 = Ok ([IsExtract q1], g2)
    ∧ _computational_graph g2 = Ok (empty_gen_graph, g2).
Proof.
  eexists. split; [vm_compute; reflexivity|].
  split; vm_compute; reflexivity.
Qed.

(** *** The order on node keys *)

Lemma str_le_refl a : str_le a a = true.
Proof.
  unfold str_le. replace (String_as_OT.cmp a a) with Eq; [reflexivity|].
  symmetry. apply String_as_OT.cmp_eq. reflexivity.
Qed.

Lemma str_le_total a b : str_le a b = false → str_le b a = true.
Proof.
  unfold str_le. rewrite (String_as_OT.cmp_antisym b a).
  destruct (String_as_OT.cmp a b); cbn; congruence.
Qed.

Lemma str_le_cases a b : str_le a b = true ↔ a = b ∨ String_as_OT.lt a b.
Proof.
  unfold str_le. destruct (String_as_OT.cmp a b) eqn:E.
  - apply String_as_OT.cmp_eq in E. tauto.
  - apply String_as_OT.cmp_lt in E. tauto.
  - split; [discriminate|]. intros [Heq|Hlt].
    + apply String_as_OT.cmp_eq in Heq. congruence.
    + apply String_as_OT.cmp_lt in Hlt. congruence.
Qed.

Lemma str_le_trans a b c :
  str_le a b = true → str_le b c = true → str_le a c = true.
Proof.
  rewrite !str_le_cases. intros [->|Hab] [->|Hbc]; auto.
  right. exact (String_as_OT.lt_trans _ _ _ Hab Hbc).
Qed.

Lemma str_le_antisym a b : str_le a b = true → str_le b a = true → a = b.
Proof.
  rewrite !str_le_cases. intros [->|Hab] [Hba|Hba]; auto.
  exfalso. apply (String_as_OT.lt_not_eq a a); [|reflexivity].
  exact (String_as_OT.lt_trans _ _ _ Hab Hba).
Qed.

Lemma least_None l : least l = None → l = [].
Proof. destruct l as [|x l]; [reflexivity|]. cbn. destruct (least l); discriminate. Qed.

Lemma least_Some l m :
  least l = Some m → m ∈ l ∧ ∀ x, x ∈ l → str_le m x = true.
Proof.
  revert m. induction l as [|y l IH]; intros m; [discriminate|].
  cbn. destruct (least l) as [m'|] eqn:E.
  - destruct (IH m' eq_refl) as [Hin Hle]. intros [= <-].
    destruct (str_le y m') eqn:Ey.
    + split; [left|]. intros x Hx. apply elem_of_cons in Hx as [->|Hx].
      * apply str_le_refl.
      * exact (str_le_trans _ _ _ Ey (Hle x Hx)).
    + split; [right; exact Hin|]. intros x Hx. apply elem_of_cons in Hx as [->|Hx].
      * exact (str_le_total _ _ Ey).
      * exact (Hle x Hx).
  - apply least_None in E. subst l. intros [= <-]. split; [left|].
    intros x Hx. apply list_elem_of_singleton in Hx as ->. apply str_le_refl.
Qed.

(** *** Runs of the lexicographic sort

    [lex_run G pending produced new]: starting with [produced] already out
    and [pending] still to come, [new] is produced next, each node being
    the least pending node all of whose predecessors are out. *)
Inductive lex_run (G : DiGraph) : list string → list string → list string → Prop :=
| lex_run_stop pending produced : lex_run G pending produced []
| lex_run_step pending produced v new :
    v ∈ pending →
    ready G produced v = true →
    (∀ w, w ∈ pending → ready G produced w = true → str_le v w = true) →
    lex_run G (filter (fun w => w ≠ v) pending) (produced ++ [v]) new →
    lex_run G pending produced (v :: new).

Lemma ready_spec G produced v :
  ready G produced v = true ↔ ∀ u, u ∈ predecessors G v → u ∈ produced.
Proof.
  unfold ready. rewrite forallb_forall. split.
  - intros H u Hu. apply list_elem_of_In in Hu. specialize (H u Hu).
    apply bool_decide_eq_true in H. exact H.
  - intros H u Hu. apply bool_decide_eq_true. apply H. apply list_elem_of_In. exact Hu.
Qed.

Lemma filter_all {A} (P : A → Prop) `{∀ x, Decision (P x)} (l : list A) :
  (∀ x, x ∈ l → P x) → filter P l = l.
Proof.
  induction l as [|a l IH]; intros Hl; [reflexivity|].
  rewrite filter_cons. destruct (decide (P a)) as [Ha|Ha].
  - f_equal. apply IH. intros x Hx. apply Hl. right. exact Hx.
  - exfalso. apply Ha, Hl. left.
Qed.

Lemma length_filter_remove (v : string) (l : list string) :
  NoDup l → v ∈ l → S (length (filter (fun w => w ≠ v) l)) = length l.
Proof.
  induction 1 as [|x l Hx Hnd IH]; intros Hv; [inversion Hv|].
  rewrite filter_cons. destruct (decide (x ≠ v)) as [Hne|He].
  - cbn. f_equal. apply IH. apply elem_of_cons in Hv as [->|Hv]; [contradiction|exact Hv].
  - apply dec_stable in He. subst x. cbn. f_equal. f_equal.
    apply filter_all. intros y Hy ->. contradiction.
Qed.

(** What a call of [kahn] returns: a run of the sort, the nodes left over,
    and, given enough steps, no node left over that could still be
    produced. *)
Lemma kahn_run steps G : ∀ pending produced pending' out,
  NoDup pending →
  kahn steps G pending produced = (pending', out) →
  ∃ new, out = produced ++ new
    ∧ lex_run G pending produced new
    ∧ pending' = filter (fun w => w ∉ new) pending
    ∧ (length pending ≤ steps →
       ∀ w, w ∈ pending' → ready G out w = false).
Proof.
  induction steps as [|steps IH]; intros pending produced pending' out Hnd.
  - cbn. intros [= <- <-]. exists []. rewrite app_nil_r.
    split; [reflexivity|]. split; [constructor|]. split.
    + symmetry. apply filter_all. intros x _ Hx. inversion Hx.
    + intros Hlen w Hw. destruct pending; [inversion Hw|cbn in Hlen; lia].
  - cbn. destruct (least _) as [v|] eqn:El.
    + apply least_Some in El as [Hv Hmin].
      apply list_elem_of_filter in Hv as [Hready Hv].
      intros Hk. apply IH in Hk as (new & Hout & Hrun & Hpend & Hdone);
        [|apply NoDup_filter; exact Hnd].
      exists (v :: new). split; [rewrite Hout, <- app_assoc; reflexivity|].
      split.
      { constructor; try assumption.
        intros w Hw Hr. apply Hmin. apply list_elem_of_filter. auto. }
      split.
      { rewrite Hpend, list_filter_filter. apply list_filter_iff. intros x. split.
        - intros [Hn Hne] Hx. apply elem_of_cons in Hx as [->|Hx]; auto.
        - intros Hn. split; intros Hx; apply Hn; [right; exact Hx|subst; left]. }
      intros Hlen. apply Hdone.
      pose proof (length_filter_remove v pending Hnd Hv). lia.
    + apply least_None in El. intros [= <- <-]. exists []. rewrite app_nil_r.
      split; [reflexivity|]. split; [constructor|]. split.
      * symmetry. apply filter_all. intros x _ Hx. inversion Hx.
      * intros _ w Hw. destruct (ready G produced w) eqn:Er; [|reflexivity].
        exfalso. assert (Hin : w ∈ filter (fun v => ready G produced v = true) pending)
          by (apply list_elem_of_filter; auto).
        rewrite El in Hin. inversion Hin.
Qed.

Lemma predecessors_spec G u v : u ∈ predecessors G v ↔ (u, v) ∈ g_edges G.
Proof.
  unfold predecessors. rewrite list_elem_of_fmap. split.
  - intros ([u' v'] & -> & H). apply list_elem_of_filter in H as [Hv H].
    cbn in *. subst v'. exact H.
  - intros H. exists (u, v). split; [reflexivity|].
    apply list_elem_of_filter. split; [reflexivity|exact H].
Qed.

(** In a run, every node comes after all its predecessors. *)
Lemma lex_run_topological G pending produced new :
  lex_run G pending produced new →
  ∀ l1 v l2, new = l1 ++ v :: l2 →
  ∀ u, u ∈ predecessors G v → u ∈ produced ++ l1.
Proof.
  induction 1 as [|pending produced w new Hw Hr Hmin Hrun IH]; intros l1 v l2 E u Hu.
  - destruct l1; discriminate.
  - destruct l1 as [|x l1]; cbn in E; injection E as <- E.
    + rewrite app_nil_r. exact (proj1 (ready_spec _ _ _) Hr u Hu).
    + specialize (IH l1 v l2 E u Hu). rewrite <- app_assoc in IH. exact IH.
Qed.

Lemma lex_run_sound G pending produced new :
  lex_run G pending produced new → NoDup pending →
  NoDup new ∧ ∀ x, x ∈ new → x ∈ pending.
Proof.
  induction 1 as [|pending produced w new Hw Hr Hmin Hrun IH]; intros Hnd.
  - split; [constructor|]. intros x Hx. inversion Hx.
  - destruct (IH (NoDup_filter _ _ Hnd)) as [Hnew Hsub]. split.
    + constructor; [|exact Hnew]. intros Hin. apply Hsub in Hin.
      apply list_elem_of_filter in Hin as [Hne _]. contradiction.
    + intros x Hx. apply elem_of_cons in Hx as [->|Hx]; [exact Hw|].
      apply Hsub in Hx. apply list_elem_of_filter in Hx as [_ Hx]. exact Hx.
Qed.

(** *** Acyclic graphs are sorted completely *)

Definition acyclic (G : DiGraph) : Prop :=
  ∃ rank : string → nat, ∀ u v, (u, v) ∈ g_edges G → rank u < rank v.

Lemma least_rank (rank : string → nat) (l : list string) :
  l ≠ [] → ∃ w, w ∈ l ∧ ∀ x, x ∈ l → rank w ≤ rank x.
Proof.
  induction l as [|a l IH]; [congruence|]. intros _.
  destruct l as [|b l].
  - exists a. split; [left|]. intros x Hx. apply list_elem_of_singleton in Hx as ->. lia.
  - destruct IH as (w & Hw & Hmin); [discriminate|].
    destruct (decide (rank a ≤ rank w)) as [Hle|Hgt].
    + exists a. split; [left|]. intros x Hx. apply elem_of_cons in Hx as [->|Hx]; [lia|].
      specialize (Hmin x Hx). lia.
    + exists w. split; [right; exact Hw|]. intros x Hx.
      apply elem_of_cons in Hx as [->|Hx]; [lia|]. exact (Hmin x Hx).
Qed.

Lemma kahn_complete G pending' out :
  let keys := (g_nodes G).*1 in
  NoDup keys → acyclic G →
  (∀ u v, (u, v) ∈ g_edges G → u ∈ keys) →
  kahn (length keys) G keys [] = (pending', out) →
  pending' = [] ∧ lex_run G keys [] out ∧ NoDup out ∧ ∀ k, k ∈ out ↔ k ∈ keys.
Proof.
  intros keys Hnd [rank Hrank] Hclosed Hk.
  apply kahn_run in Hk as (new & Hout & Hrun & Hpend & Hdone); [|exact Hnd].
  cbn in Hout. subst out. specialize (Hdone (le_n _)).
  assert (Hempty : pending' = []).
  { destruct (decide (pending' = [])) as [|Hne]; [assumption|exfalso].
    destruct (least_rank rank pending' Hne) as (w & Hw & Hmin).
    assert (Hr : ready G new w = true).
    { apply ready_spec. intros u Hu. apply predecessors_spec in Hu.
      destruct (decide (u ∈ new)) as [|Hn]; [assumption|exfalso].
      assert (Hup : u ∈ pending').
      { rewrite Hpend. apply list_elem_of_filter. split; [exact Hn|].
        exact (Hclosed u w Hu). }
      specialize (Hmin u Hup). specialize (Hrank u w Hu). lia. }
    rewrite (Hdone w Hw) in Hr. discriminate. }
  destruct (lex_run_sound _ _ _ _ Hrun Hnd) as [Hndnew Hsub].
  repeat split; try assumption.
  - apply Hsub.
  - intros Hk. destruct (decide (k ∈ new)) as [|Hn]; [assumption|exfalso].
    assert (Hin : k ∈ pending')
      by (rewrite Hpend; apply list_elem_of_filter; auto).
    rewrite Hempty in Hin. inversion Hin.
Qed.

(** *** Dictionaries *)

Section dict_facts.
Context {V : Type}.
Implicit Types (d : dict V) (k : string) (v : V).

Lemma dict_set_keys d k v x : x ∈ (dict_set d k v).*1 ↔ x = k ∨ x ∈ d.*1.
Proof.
  induction d as [|[k' v'] d IH]; cbn.
  - rewrite list_elem_of_singleton, elem_of_nil. tauto.
  - destruct (decide (k' = k)) as [->|Hne]; cbn; rewrite !elem_of_cons.
    + tauto.
    + rewrite IH. tauto.
Qed.

Lemma dict_set_NoDup d k v : NoDup d.*1 → NoDup (dict_set d k v).*1.
Proof.
  induction d as [|[k' v'] d IH]; cbn; intros Hnd.
  - constructor; [apply not_elem_of_nil|constructor].
  - apply NoDup_cons in Hnd as [Hk' Hnd].
    destruct (decide (k' = k)) as [->|Hne]; cbn.
    + apply NoDup_cons. auto.
    + apply NoDup_cons. split; [|auto]. rewrite dict_set_keys. intros [->|?]; auto.
Qed.

Lemma dict_set_entries d k v kv :
  kv ∈ dict_set d k v → kv = (k, v) ∨ kv ∈ d.
Proof.
  induction d as [|[k' v'] d IH]; cbn.
  - rewrite list_elem_of_singleton. auto.
  - destruct (decide (k' = k)) as [->|Hne]; rewrite !elem_of_cons.
    + intros [?|?]; auto.
    + intros [?|?]; auto. destruct (IH H); auto.
Qed.

Lemma dict_set_fresh d k v : k ∉ d.*1 → dict_set d k v = d ++ [(k, v)].
Proof.
  induction d as [|[k' v'] d IH]; cbn; intros Hk; [reflexivity|].
  rewrite elem_of_cons in Hk. destruct (decide (k' = k)) as [->|Hne]; [tauto|].
  f_equal. apply IH. tauto.
Qed.

Lemma dict_get_Some d k v : NoDup d.*1 → (dict_get d k = Some v ↔ (k, v) ∈ d).
Proof.
  induction d as [|[k' v'] d IH]; cbn; intros Hnd.
  - rewrite elem_of_nil. split; [discriminate|tauto].
  - apply NoDup_cons in Hnd as [Hk' Hnd]. rewrite elem_of_cons.
    destruct (decide (k' = k)) as [->|Hne].
    + split; [intros [= ->]; auto|]. intros [[= ->]|Hin]; [reflexivity|].
      exfalso. apply Hk'. apply list_elem_of_fmap. exists (k, v). auto.
    + rewrite (IH Hnd). split; [auto|]. intros [[= -> ->]|?]; [contradiction|assumption].
Qed.

Lemma dict_get_is_Some d k : k ∈ d.*1 → is_Some (dict_get d k).
Proof.
  induction d as [|[k' v'] d IH]; cbn; intros Hk; [inversion Hk|].
  destruct (decide (k' = k)); [eauto|]. apply IH.
  apply elem_of_cons in Hk as [->|?]; [contradiction|assumption].
Qed.

Lemma dict_fold_keys (d d' : dict V) x :
  x ∈ (foldl (fun d kv => dict_set d kv.1 kv.2) d d').*1 ↔ x ∈ d.*1 ∨ x ∈ d'.*1.
Proof.
  revert d. induction d' as [|[k v] d' IH]; intros d; cbn.
  - rewrite elem_of_nil. tauto.
  - rewrite IH, dict_set_keys, elem_of_cons. tauto.
Qed.

Lemma dict_fold_NoDup (d d' : dict V) :
  NoDup d.*1 → NoDup (foldl (fun d kv => dict_set d kv.1 kv.2) d d').*1.
Proof.
  revert d. induction d' as [|[k v] d' IH]; intros d Hnd; cbn; [exact Hnd|].
  apply IH, dict_set_NoDup, Hnd.
Qed.

Lemma dict_fold_entries (d d' : dict V) kv :
  kv ∈ foldl (fun d kv => dict_set d kv.1 kv.2) d d' → kv ∈ d ∨ kv ∈ d'.
Proof.
  revert d. induction d' as [|[k v] d' IH]; intros d; cbn; [auto|].
  intros H. apply IH in H as [H|H]; [|right; right; exact H].
  apply dict_set_entries in H as [->|H]; [right; left|left; exact H].
Qed.

Lemma dict_fold_id (d d' : dict V) :
  NoDup (d ++ d').*1 → foldl (fun d kv => dict_set d kv.1 kv.2) d d' = d ++ d'.
Proof.
  revert d. induction d' as [|[k v] d' IH]; intros d Hnd; cbn.
  - rewrite app_nil_r. reflexivity.
  - rewrite dict_set_fresh.
    + rewrite IH; rewrite <- app_assoc; [reflexivity|exact Hnd].
    + rewrite fmap_app in Hnd. apply NoDup_app in Hnd as (_ & Hdis & _).
      intros Hk. apply (Hdis k Hk). left.
Qed.

Lemma dict_of_entries (key : V → string) (l : list V) kv :
  kv ∈ dict_of key l → ∃ x, x ∈ l ∧ kv = (key x, x).
Proof.
  unfold dict_of. assert (Hgen : ∀ d, kv ∈ foldl (fun d x => dict_set d (key x) x) d l →
                            kv ∈ d ∨ ∃ x, x ∈ l ∧ kv = (key x, x)).
  { induction l as [|a l IH]; intros d; cbn; [auto|].
    intros H. apply IH in H as [H|(x & Hx & ->)].
    - apply dict_set_entries in H as [->|H]; [|auto]. right. exists a. split; [left|reflexivity].
    - right. exists x. split; [right; exact Hx|reflexivity]. }
  intros H. apply Hgen in H as [H|H]; [inversion H|exact H].
Qed.

Lemma dict_of_keys (key : V → string) (l : list V) x :
  x ∈ (dict_of key l).*1 ↔ x ∈ key <$> l.
Proof.
  unfold dict_of. assert (Hgen : ∀ d, x ∈ (foldl (fun d x => dict_set d (key x) x) d l).*1 ↔
                            x ∈ d.*1 ∨ x ∈ key <$> l).
  { induction l as [|a l IH]; intros d; cbn.
    - rewrite elem_of_nil. tauto.
    - rewrite IH, dict_set_keys, elem_of_cons. tauto. }
  rewrite Hgen. cbn. rewrite elem_of_nil. tauto.
Qed.

End dict_facts.

(** *** The graph that [build_graph] builds *)

Definition nodes_of (g : Generator) : dict ComputationalNode :=
  dict_update
    (dict_update [(hash (extract_node (extract g)), IsExtract (extract g))]
       (dict_of (fun n => hash (data_of n)) (IsTransform <$> transforms g)))
    (dict_of (fun n => hash (data_of n)) (IsLoad <$> loads g)).

Definition arg_edges (node_id : string) (n : ComputationalNode)
    : list (string * string) :=
  omap (fun ka : string * arg =>
          match ka.2 with Arg key _ => Some (key, node_id) | Const => None end)
       (inputs (data_of n)).

Lemma arg_edges_spec node_id n u v :
  (u, v) ∈ arg_edges node_id n ↔
  v = node_id ∧ ∃ name out, (name, Arg u out) ∈ inputs (data_of n).
Proof.
  unfold arg_edges. rewrite list_elem_of_omap. split.
  - intros ([name [key out|]] & Hin & Heq); cbn in Heq; [|discriminate].
    injection Heq as <- <-. split; [reflexivity|]. eauto.
  - intros (-> & name & out & Hin). exists (name, Arg u out). auto.
Qed.

Lemma nodes_of_NoDup g : NoDup (nodes_of g).*1.
Proof.
  unfold nodes_of, dict_update. apply dict_fold_NoDup, dict_fold_NoDup.
  cbn. constructor; [apply not_elem_of_nil|constructor].
Qed.

Lemma nodes_of_entries g k n :
  (k, n) ∈ nodes_of g →
  hash (data_of n) = k ∧
  (n = IsExtract (extract g) ∨ isinstance_Extract n = false).
Proof.
  unfold nodes_of, dict_update. intros H.
  apply dict_fold_entries in H as [H|H].
  - apply dict_fold_entries in H as [H|H].
    + apply list_elem_of_singleton in H. injection H as -> ->. auto.
    + apply dict_of_entries in H as (x & Hx & [= -> ->]).
      apply list_elem_of_fmap in Hx as (t & -> & _). auto.
  - apply dict_of_entries in H as (x & Hx & [= -> ->]).
    apply list_elem_of_fmap in Hx as (l & -> & _). auto.
Qed.

Lemma node_edges_spec nodes node_id n es es' :
  node_edges nodes node_id n es = Ok es' →
  es' = es ++ arg_edges node_id n ∧
  ∀ e, e ∈ arg_edges node_id n → e.1 ∈ nodes.*1.
Proof.
  unfold node_edges, arg_edges. generalize (inputs (data_of n)). intros l.
  revert es. induction l as [|[name a] l IH]; intros es; cbn.
  - intros [= <-]. rewrite app_nil_r. split; [reflexivity|]. intros e He. inversion He.
  - destruct a as [key out|]; cbn.
    + unfold dict_in. case_bool_decide as Hk.
      * intros H. apply IH in H as [-> Hin]. rewrite <- app_assoc. split; [reflexivity|].
        intros e He. apply elem_of_cons in He as [->|He]; [exact Hk|exact (Hin e He)].
      * intros H. exfalso. revert H. clear. induction l as [|x l IH]; [discriminate|].
        exact IH.
    + apply IH.
Qed.

Lemma all_edges_spec nodes (l : dict ComputationalNode) es es' :
  foldl (fun acc kv => edges ← acc; node_edges nodes kv.1 kv.2 edges) (Ok es) l = Ok es' →
  (∀ e, e ∈ es' ↔ e ∈ es ∨ ∃ kv, kv ∈ l ∧ e ∈ arg_edges kv.1 kv.2)
  ∧ (∀ kv e, kv ∈ l → e ∈ arg_edges kv.1 kv.2 → e.1 ∈ nodes.*1).
Proof.
  revert es. induction l as [|[k n] l IH]; intros es; cbn.
  - intros [= <-]. split.
    + intros e. split; [auto|]. intros [?|(kv & Hkv & _)]; [assumption|inversion Hkv].
    + intros kv e Hkv. inversion Hkv.
  - destruct (node_edges nodes k n es) as [es1|err] eqn:E1.
    + apply node_edges_spec in E1 as [-> Hkeys]. intros H.
      apply IH in H as [Hmem Hin]. split.
      * intros e. rewrite Hmem, elem_of_app. split.
        -- intros [[?|He]|(kv & Hkv & He)]; auto.
           ++ right. exists (k, n). split; [left|exact He].
           ++ right. exists kv. split; [right; exact Hkv|exact He].
        -- intros [?|(kv & Hkv & He)]; auto.
           apply elem_of_cons in Hkv as [->|Hkv]; [auto|]. right. eauto.
      * intros kv e Hkv He. apply elem_of_cons in Hkv as [->|Hkv]; [exact (Hkeys e He)|].
        exact (Hin kv e Hkv He).
    + intros H. exfalso. revert H. clear. induction l as [|x l IH]; [discriminate|].
      exact IH.
Qed.

Lemma fold_add_node_nodes G (l : dict ComputationalNode) :
  g_nodes (foldl (fun G kv => graph_add_node G kv.1 kv.2) G l)
  = foldl (fun d kv => dict_set d kv.1 kv.2) (g_nodes G) l
  ∧ g_edges (foldl (fun G kv => graph_add_node G kv.1 kv.2) G l) = g_edges G.
Proof.
  revert G. induction l as [|kv l IH]; intros G; cbn; [auto|].
  destruct (IH (graph_add_node G kv.1 kv.2)) as [-> ->]. auto.
Qed.

Lemma fold_add_edge G es :
  g_nodes (foldl graph_add_edge G es) = g_nodes G
  ∧ ∀ e, e ∈ g_edges (foldl graph_add_edge G es) ↔ e ∈ g_edges G ∨ e ∈ es.
Proof.
  revert G. induction es as [|e0 es IH]; intros G; cbn.
  - split; [reflexivity|]. intros e. rewrite elem_of_nil. tauto.
  - destruct (IH (graph_add_edge G e0)) as [-> Hmem]. split; [reflexivity|].
    intros e. rewrite Hmem, elem_of_cons. cbn.
    destruct (decide (e0 ∈ g_edges G)) as [Hin|Hn].
    + split; [tauto|]. intros [?|[->|?]]; auto.
    + rewrite elem_of_app, list_elem_of_singleton. tauto.
Qed.

Lemma build_graph_spec g G :
  build_graph g = Ok G →
  g_nodes G = nodes_of g
  ∧ (∀ u v, (u, v) ∈ g_edges G ↔
       ∃ n name out, (v, n) ∈ nodes_of g ∧ (name, Arg u out) ∈ inputs (data_of n))
  ∧ (∀ u v, (u, v) ∈ g_edges G → u ∈ (nodes_of g).*1).
Proof.
  unfold build_graph. fold (nodes_of g).
  destruct (foldl _ (Ok []) (nodes_of g)) as [es|] eqn:E; cbn; [|discriminate].
  intros [= <-]. apply all_edges_spec in E as [Hmem Hkeys].
  destruct (fold_add_edge
              (foldl (fun G kv => graph_add_node G kv.1 kv.2) empty_graph (nodes_of g)) es)
    as [Hn He].
  destruct (fold_add_node_nodes empty_graph (nodes_of g)) as [Hn' He'].
  assert (Hedge : ∀ u v, (u, v) ∈ g_edges (foldl graph_add_edge
             (foldl (fun G kv => graph_add_node G kv.1 kv.2) empty_graph (nodes_of g)) es)
             ↔ ∃ kv, kv ∈ nodes_of g ∧ (u, v) ∈ arg_edges kv.1 kv.2).
  { intros u v. rewrite He, He', Hmem. cbn. rewrite elem_of_nil. tauto. }
  split; [|split].
  - rewrite Hn, Hn'. cbn. apply (dict_fold_id []). cbn. apply nodes_of_NoDup.
  - intros u v. rewrite Hedge. split.
    + intros ([k n] & Hkv & Harg). cbn in Harg.
      apply arg_edges_spec in Harg as (-> & name & out & Hin). eauto.
    + intros (n & name & out & Hkv & Hin). exists (v, n). split; [exact Hkv|].
      apply arg_edges_spec. eauto.
  - intros u v Huv. apply Hedge in Huv as (kv & Hkv & Harg).
    exact (Hkeys kv (u, v) Hkv Harg).
Qed.

(** *** The evaluation order *)

Lemma filter_app_cons_inv {A} (P : A → Prop) `{∀ x, Decision (P x)}
    (data l1 l2 : list A) (n : A) :
  filter P data = l1 ++ n :: l2 →
  ∃ d1 d2, data = d1 ++ n :: d2 ∧ l1 = filter P d1 ∧ P n.
Proof.
  revert l1. induction data as [|a data IH]; intros l1.
  - destruct l1; discriminate.
  - rewrite filter_cons. destruct (decide (P a)) as [Ha|Ha].
    + destruct l1 as [|x l1]; cbn; intros [= <- E].
      * exists [], data. auto.
      * apply IH in E as (d1 & d2 & -> & -> & Hn).
        exists (a :: d1), d2. rewrite filter_cons, decide_True by exact Ha. auto.
    + intros E. apply IH in E as (d1 & d2 & -> & -> & Hn).
      exists (a :: d1), d2. rewrite filter_cons, decide_False by exact Ha. auto.
Qed.

Lemma lookup_all (nodes : dict ComputationalNode) (ids : list string) :
  (∀ k, k ∈ ids → k ∈ nodes.*1) →
  ∃ data,
    foldr (fun key acc =>
             rest ← acc;
             match dict_get nodes key with
             | Some d => Ok (d :: rest)
             | None => Raise KeyError
             end) (Ok []) ids = Ok data
    ∧ Forall2 (fun k d => dict_get nodes k = Some d) ids data.
Proof.
  induction ids as [|k ids IH]; intros Hin; cbn.
  - exists []. split; [reflexivity|constructor].
  - destruct IH as (data & -> & Hall); [intros x Hx; apply Hin; right; exact Hx|].
    cbn. destruct (dict_get_is_Some nodes k (Hin k ltac:(left))) as [d Hd].
    rewrite Hd. exists (d :: data). split; [reflexivity|]. constructor; assumption.
Qed.

(** A node consumes the output of the node with hash [k] when one of its
    inputs is an [Arg] with that key. *)
Definition consumes (n : ComputationalNode) (k : string) : Prop :=
  ∃ name out, (name, Arg k out) ∈ inputs (data_of n).

(** Two runs of the same length from the same state produce the same
    nodes: the lexicographic order is unique. *)
Lemma lex_run_unique G pending produced new1 :
  lex_run G pending produced new1 →
  ∀ new2, lex_run G pending produced new2 → length new1 = length new2 → new1 = new2.
Proof.
  induction 1 as [|pending produced v new1 Hv Hr Hmin Hrun IH]; intros new2 H2 Hlen.
  - destruct new2; [reflexivity|discriminate].
  - inversion H2 as [|? ? v2 new2' Hv2 Hr2 Hmin2 Hrun2]; subst; [discriminate|].
    assert (v = v2) by (apply str_le_antisym; auto). subst v2.
    f_equal. apply IH; [exact Hrun2|]. cbn in Hlen. lia.
Qed.

(** C7: for a generator whose graph is valid ([build_graph] succeeds) and
    acyclic, and whose Extract consumes no other node (the data model),
    [_sort_graph] returns the Extract followed by the other nodes in the
    lexicographic topological order of their hashes; every node comes after
    every node whose output it consumes. *)
Theorem C7_sort_graph_lexicographic_topological (g : Generator) (G : DiGraph) :
  _graph g = None →
  build_graph g = Ok G →
  acyclic G →
  (∀ k, ¬ consumes (IsExtract (extract g)) k) →
  ∃ ids data,
    lexicographical_topological_sort G = Ok ids
    ∧ lex_run G (g_nodes G).*1 [] ids
    ∧ NoDup ids
    ∧ (∀ k, k ∈ ids ↔ k ∈ (g_nodes G).*1)
    ∧ Forall2 (fun k d => dict_get (g_nodes G) k = Some d) ids data
    ∧ let order :=
        IsExtract (extract g) :: filter (fun d => isinstance_Extract d = false) data in
      _sort_graph g = Ok (order, set_graph g (Some G))
      ∧ ∀ l1 n l2 k, order = l1 ++ n :: l2 → consumes n k →
          ∃ m, m ∈ l1 ∧ hash (data_of m) = k.
Proof.
  intros Hcache Hbuild Hacyc Hext.
  destruct (build_graph_spec g G Hbuild) as (Hnodes & Hedges & Hclosed).
  assert (Hnd : NoDup (g_nodes G).*1) by (rewrite Hnodes; apply nodes_of_NoDup).
  destruct (kahn (length (g_nodes G).*1) G (g_nodes G).*1 []) as [pending' ids] eqn:Ek.
  destruct (kahn_complete G pending' ids Hnd Hacyc) as (-> & Hrun & Hndids & Hids);
    [intros u v Huv; rewrite Hnodes; exact (Hclosed u v Huv)|exact Ek|].
  destruct (lookup_all (g_nodes G) ids) as (data & Hdata & Hall);
    [intros k Hk; apply Hids, Hk|].
  exists ids, data.
  assert (Hsort : lexicographical_topological_sort G = Ok ids).
  { unfold lexicographical_topological_sort. rewrite Ek. reflexivity. }
  split; [exact Hsort|]. split; [exact Hrun|]. split; [exact Hndids|].
  split; [exact Hids|]. split; [exact Hall|]. cbn zeta. split.
  - unfold _sort_graph, _computational_graph. rewrite Hcache, Hbuild. cbn.
    unfold topsort_with_dict. rewrite Hsort. cbn. rewrite Hdata. cbn. reflexivity.
  - intros l1 n l2 k Horder Hcons.
    destruct l1 as [|e l1]; cbn in Horder; injection Horder as <- Hrest.
    { exfalso. exact (Hext k Hcons). }
    apply filter_app_cons_inv in Hrest as (d1 & d2 & -> & -> & Hn).
    apply Forall2_app_inv_r in Hall as (i1 & i2' & Hall1 & Hall2 & ->).
    apply Forall2_cons_inv_r in Hall2 as (v & i2 & Hv & _ & ->).
    apply (dict_get_Some _ _ _ Hnd) in Hv. rewrite Hnodes in Hv.
    destruct Hcons as (name & out & Hin).
    assert (Hedge : (k, v) ∈ g_edges G) by (apply Hedges; eauto).
    apply predecessors_spec in Hedge.
    pose proof (lex_run_topological _ _ _ _ Hrun i1 v i2 eq_refl k Hedge) as Hk.
    cbn in Hk.
    apply list_elem_of_lookup in Hk as [j Hj].
    destruct (Forall2_lookup_l _ _ _ _ _ Hall1 Hj) as (m & Hm & Hget).
    apply (dict_get_Some _ _ _ Hnd) in Hget. rewrite Hnodes in Hget.
    apply nodes_of_entries in Hget as [Hhash [->|Hkind]].
    + exists (IsExtract (extract g)). split; [left|exact Hhash].
    + exists m. split; [|exact Hhash]. right. apply list_elem_of_filter.
      split; [exact Hkind|]. apply list_elem_of_lookup. eauto.
Qed.

Definition chain_gen : Generator :=
  {| name := "chain";
     extract := plain_extract;
     transforms :=
       [ {| transform_node := node "t2" [("x", Arg "t1" "out")] |}; double ];
     loads := [ {| load_node := node "l1" [("v", Arg "t2" "out"); ("c", Const)] |} ];
     _graph := None |}.

Definition chain_graph : DiGraph :=
  {| g_nodes :=
       [ ("e0", IsExtract plain_extract);
         ("t2", IsTransform {| transform_node := node "t2" [("x", Arg "t1" "out")] |});
         ("t1", IsTransform double);
         ("l1", IsLoad {| load_node := node "l1" [("v", Arg "t2" "out"); ("c", Const)] |}) ];
     g_edges := [("t1", "t2"); ("e0", "t1"); ("t2", "l1")] |}.

Definition chain_rank (k : string) : nat :=
  if decide (k = "e0") then 0
  else if decide (k = "t1") then 1
  else if decide (k = "t2") then 2 else 3.

Lemma chain_acyclic : acyclic chain_graph.
Proof.
  exists chain_rank. intros u v H. cbn in H.
  repeat (apply elem_of_cons in H as [[= -> ->]|H]; [vm_compute; lia|]).
  inversion H.
Qed.

Lemma C7_sort_graph_lexicographic_topological_witness :
  ∃ ids data,
    lexicographical_topological_sort chain_graph = Ok ids
    ∧ lex_run chain_graph (g_nodes chain_graph).*1 [] ids
    ∧ NoDup ids
    ∧ (∀ k, k ∈ ids ↔ k ∈ (g_nodes chain_graph).*1)
    ∧ Forall2 (fun k d => dict_get (g_nodes chain_graph) k = Some d) ids data
    ∧ let order :=
        IsExtract (extract chain_gen)
        :: filter (fun d => isinstance_Extract d = false) data in
      _sort_graph chain_gen = Ok (order, set_graph chain_gen (Some chain_graph))
      ∧ ∀ l1 n l2 k, order = l1 ++ n :: l2 → consumes n k →
          ∃ m, m ∈ l1 ∧ hash (data_of m) = k.
Proof.
  apply (C7_sort_graph_lexicographic_topological chain_gen chain_graph).
  - reflexivity.
  - vm_compute. reflexivity.
  - exact chain_acyclic.
  - intros k (name & out & H). cbn in H. inversion H.
Defined.

Example chain_order :
  (fun r => match r with
            | Ok (order, _) => Some ((fun n => hash (data_of n)) <$> order)
            | Raise _ => None
            end) (_sort_graph chain_gen) = Some ["e0"; "t1"; "t2"; "l1"].
Proof. vm_compute. reflexivity. Qed.

End GenProps.

(* ===================================================================== *)
(** ** Properties of [run_gen] *)
(* ===================================================================== *)

Module RunGenProps.
Import QArith_base Qround Qreduction.
#[local] Close Scope Q_scope.
Import RunGen.

Section run_gen_facts.
Context {value db : Type}.
Context (hash_ : string → string) (str : value → string)
        (safe_div : Q → nat → Q) (empty_row : value)
        (imap_unordered :
           (value * string → @M db unit) → list (value * string) → @M db unit).

#[local] Abbreviation state := (@state db).
#[local] Abbreviation M := (@M db).
#[local] Abbreviation Gen := (@Gen value db).
#[local] Abbreviation run_gen := (run_gen hash_ str safe_div empty_row imap_unordered).
#[local] Abbreviation select_inputs := (select_inputs hash_ str empty_row).
#[local] Abbreviation repeat_checking := (repeat_checking hash_ str).

(** *** Which tables a piece of code leaves alone *)

Definition keeps {A B} (field : state → B) (m : M A) : Prop :=
  ∀ s s' r, m s = (s', r) → field s' = field s.

Lemma keeps_ret {A B} (field : state → B) (a : A) : keeps field (ret a).
Proof. intros s s' r [= <- _]. reflexivity. Qed.

Lemma keeps_raise {A B} (field : state → B) e : keeps field (@raise db A e).
Proof. intros s s' r [= <- _]. reflexivity. Qed.

Lemma keeps_lift {A B} (field : state → B) (x : result A) : keeps field (lift x).
Proof. intros s s' r [= <- _]. reflexivity. Qed.

Lemma keeps_get {B} (field : state → B) : keeps field get.
Proof. intros s s' r [= <- _]. reflexivity. Qed.

Lemma keeps_bind {A C B} (field : state → B) (m : M A) (k : A → M C) :
  keeps field m → (∀ a, keeps field (k a)) → keeps field (bind m k).
Proof.
  intros Hm Hk s s' r. unfold bind. destruct (m s) as [s1 [a|e]] eqn:E.
  - intros H. rewrite (Hk a _ _ _ H). exact (Hm _ _ _ E).
  - intros [= <- _]. exact (Hm _ _ _ E).
Qed.

Lemma keeps_for_each {A B} (field : state → B) (l : list A) (f : A → M unit) :
  (∀ x, keeps field (f x)) → keeps field (for_each l f).
Proof.
  intros Hf. induction l as [|x l IH]; cbn.
  - apply keeps_ret.
  - apply keeps_bind; [apply Hf|intros _; exact IH].
Qed.

Lemma keeps_gens_actions acts d : keeps gens (run_actions (value:=value) acts d).
Proof.
  apply keeps_for_each. intros a s s' r. destruct (act a d (main s)) as [m r'].
  intros [= <- _]. reflexivity.
Qed.

Lemma keeps_repeats_actions acts d : keeps repeats (run_actions (value:=value) acts d).
Proof.
  apply keeps_for_each. intros a s s' r. destruct (act a d (main s)) as [m r'].
  intros [= <- _]. reflexivity.
Qed.

Lemma keeps_gens_insert_repeat a_id run_id hsh :
  keeps gens (insert_repeat (db:=db) a_id run_id hsh).
Proof.
  intros s s' r [= <- _]. destruct (repeats s !! (a_id, hsh)); reflexivity.
Qed.

Lemma keeps_gens_apply_and_act (pbs : list (@PyBlock value)) (acts : list (@Action value db))
    row hsh a_id run_id :
  keeps gens (apply_and_act pbs acts row hsh a_id run_id).
Proof.
  unfold apply_and_act. apply keeps_bind; [apply keeps_lift|]. intros d.
  apply keeps_bind; [apply keeps_gens_actions|]. intros _.
  apply keeps_gens_insert_repeat.
Qed.

Lemma keeps_gens_repeat_checking gen a_id inputs :
  keeps gens (repeat_checking gen a_id inputs).
Proof.
  unfold RunGen.repeat_checking.
  apply keeps_bind; [intros s s' r [= <- _]; reflexivity|]. intros _.
  apply keeps_bind; [apply keeps_get|]. intros s0.
  apply keeps_bind; [apply keeps_lift|]. intros l.
  apply keeps_bind; [intros s s' r [= <- _]; reflexivity|]. intros _.
  apply keeps_ret.
Qed.

Lemma keeps_gens_select_inputs gen a_id retry' :
  keeps gens (select_inputs gen a_id retry').
Proof.
  unfold RunGen.select_inputs. apply keeps_bind; [apply keeps_get|]. intros s0.
  destruct (match query gen with Some q => q (main s0) | None => [empty_row] end).
  - apply keeps_ret.
  - destruct retry'; [apply keeps_ret|apply keeps_gens_repeat_checking].
Qed.

(** A row that raises leaves [repeats] as it was: the insertion is the last
    step of [apply_and_act]. *)
Lemma apply_and_act_raises (pbs : list (@PyBlock value)) (acts : list (@Action value db))
    row hsh a_id run_id (s s' : state) e :
  apply_and_act pbs acts row hsh a_id run_id s = (s', Raise e) →
  repeats s' = repeats s.
Proof.
  unfold apply_and_act, bind, lift.
  destruct (run_funcs pbs _) as [d|e'].
  - destruct (run_actions acts d s) as [s1 [[]|e1]] eqn:E.
    + intros [= _ ?]; discriminate.
    + intros [= <- _]. exact (keeps_repeats_actions _ _ _ _ _ E).
  - intros [= <- _]. reflexivity.
Qed.

(** A row that succeeds is recorded in [repeats]. *)
Lemma apply_and_act_records (pbs : list (@PyBlock value)) (acts : list (@Action value db))
    row hsh a_id run_id (s s' : state) :
  apply_and_act pbs acts row hsh a_id run_id s = (s', Ok tt) →
  is_Some (repeats s' !! (a_id, hsh)) ∧
  ∀ k, is_Some (repeats s !! k) → is_Some (repeats s' !! k).
Proof.
  unfold apply_and_act, bind, lift.
  destruct (run_funcs pbs _) as [d|e']; [|discriminate].
  destruct (run_actions acts d s) as [s1 [[]|e1]] eqn:E; [|discriminate].
  apply keeps_repeats_actions in E. unfold insert_repeat, modify.
  intros [= <-]. destruct (repeats s1 !! (a_id, hsh)) eqn:Er.
  - rewrite Er, E. split; [eauto|auto].
  - cbn. split; [rewrite lookup_insert_eq; eauto|].
    intros k Hk. rewrite <- E in Hk. destruct (decide ((a_id, hsh) = k)) as [<-|Hne].
    + rewrite lookup_insert_eq. eauto.
    + rewrite lookup_insert_ne by exact Hne. exact Hk.
Qed.

Lemma for_each_records (gen : Gen) a_id run_id (pre : list (value * string)) (s s' : state) :
  for_each pre (apply_serial gen a_id run_id) s = (s', Ok tt) →
  (∀ inp, inp ∈ pre → is_Some (repeats s' !! (a_id, inp.2))) ∧
  ∀ k, is_Some (repeats s !! k) → is_Some (repeats s' !! k).
Proof.
  revert s. induction pre as [|x pre IH]; intros s; cbn.
  - intros [= <-]. split; [intros inp Hin; inversion Hin|auto].
  - unfold bind at 1. destruct (apply_serial gen a_id run_id x s) as [s1 [[]|e]] eqn:E;
      [|discriminate].
    intros H. apply IH in H as [Hpre Hmono].
    apply apply_and_act_records in E as [Hx Hmono1]. split.
    + intros inp Hin. apply elem_of_cons in Hin as [->|Hin]; [apply Hmono, Hx|].
      exact (Hpre inp Hin).
    + intros k Hk. apply Hmono, Hmono1, Hk.
Qed.

(** [for x in l] stops at the first row that raises. *)
Lemma for_each_stops {A} (pre post : list A) x (f : A → M unit) (s s1 s2 : state) e :
  for_each pre f s = (s1, Ok tt) → f x s1 = (s2, Raise e) →
  for_each (pre ++ x :: post) f s = (s2, Raise e).
Proof.
  revert s. induction pre as [|y pre IH]; intros s; cbn.
  - intros [= <-] Hx. unfold bind. rewrite Hx. reflexivity.
  - unfold bind. destruct (f y s) as [s' [[]|e']]; [|discriminate].
    intros H Hx. exact (IH _ H Hx).
Qed.

(** *** The flags *)

(** How [run_gen] ends once the rows have been dealt with, leaving the
    databases in [s2] with result [r]: the statistics and 0, the failure
    and 1 after an [ExternalError], any other exception passed on. *)
Definition run_outcome (gen : Gen) (run_id : Z) (start finish : Q) (tot : nat)
    (s2 : state) (r : result unit) : state * result Z :=
  let key := (run_id, name gen) in
  let tot_time := Qminus finish start in
  match r with
  | Ok _ =>
      (with_gens s2
         (alter (set_stats (py_round (safe_div tot_time tot) 2)
                           (py_round (Qdiv tot_time (inject_Z 60)) 4) tot) key
            (alter (set_status "completed") key (gens s2))), Ok 0%Z)
  | Raise (ExternalError msg) =>
      (with_gens s2 (alter (set_failed msg) key (gens s2)), Ok 1%Z)
  | Raise e => (s2, Raise e)
  end.

(** C2, as amended: the tag "io" forces [retry_], so that [run_gen] runs
    as if the caller had asked for a retry and every row of the query is
    an input, repeat or not.  The tag has no say in how the inputs are
    processed: a run of a "stream" generator, a serial run and a run of a
    generator without the tag "parallel" are the same whatever the pool
    is, and in a run that is none of these all the inputs are handed to
    the pool, whose outcome is that of the run. *)
Theorem C2_io_forces_retry (gen : Gen) (run_id : Z) (retry serial : bool)
    (start finish : Q) (s : state) :
  "io" ∈ tags gen →
  retry_ retry gen = true
  ∧ run_gen gen run_id retry serial start finish s
    = run_gen gen run_id true serial start finish s
  ∧ (("stream" ∈ tags gen ∨ serial = true ∨ "parallel" ∉ tags gen) →
     ∀ pool,
       RunGen.run_gen hash_ str safe_div empty_row pool gen run_id retry serial
         start finish s
       = run_gen gen run_id retry serial start finish s)
  ∧ ("stream" ∉ tags gen → serial = false → "parallel" ∈ tags gen →
     let inputs :=
       (fun x => (x, hasher hash_ str gen x))
         <$> match query gen with Some q => q (main s) | None => [empty_row] end in
     ∀ s2 r,
       imap_unordered (apply_parallel gen (get_id gen) run_id) inputs s = (s2, r) →
       run_gen gen run_id retry serial start finish s
       = run_outcome gen run_id start finish (length inputs) s2 r).
Proof.
  intros Hio.
  assert (Hr : retry_ retry gen = true).
  { unfold retry_. rewrite (bool_decide_eq_true_2 _ Hio). apply orb_true_r. }
  split; [exact Hr|]. split; [|split].
  - unfold RunGen.run_gen. rewrite Hr.
    replace (retry_ true gen) with true by reflexivity. reflexivity.
  - intros Hcase pool. unfold RunGen.run_gen.
    destruct (decide ("stream" ∈ tags gen)) as [Hs|Hs].
    { rewrite (bool_decide_eq_true_2 _ Hs). reflexivity. }
    rewrite (bool_decide_eq_false_2 _ Hs).
    assert (Hpar : parallel serial gen = false).
    { unfold parallel. destruct Hcase as [Hs'|[->|Hp]]; [contradiction|reflexivity|].
      rewrite (bool_decide_eq_false_2 _ Hp). apply andb_false_r. }
    rewrite Hpar. reflexivity.
  - intros Hs -> Hp inputs s2 r Hpool.
    unfold RunGen.run_gen, try_except_ExternalError.
    rewrite (bool_decide_eq_false_2 _ Hs), Hr.
    unfold parallel. rewrite (bool_decide_eq_true_2 _ Hp). cbn [negb andb].
    unfold batch_body, RunGen.select_inputs.
    unfold bind at 1 2 3 4. unfold get at 1.
    assert (Hsel : (match
                      match query gen with Some q => q (main s) | None => [empty_row] end
                    with
                    | [] => ret []
                    | _ :: _ =>
                        ret ((fun x => (x, hasher hash_ str gen x))
                               <$> match query gen with
                                   | Some q => q (main s) | None => [empty_row] end)
                    end) s = (s, Ok inputs)).
    { subst inputs.
      destruct (match query gen with Some q => q (main s) | None => [empty_row] end);
        reflexivity. }
    rewrite Hsel. unfold bind at 1. rewrite Hpool.
    destruct r as [[]|e]; [reflexivity|]. destruct e; reflexivity.
Qed.

(** *** A run that completes *)

(** C3, as amended: after a run that returns 0 the [gens] row of the run
    has status "completed" and [n_inputs] equal to the number of inputs
    handed to the row processing; its two timing columns hold the elapsed
    time in minutes rounded to 4 places and the time per input rounded to
    2 places.  In a serial run the row is still there if it was there at
    the start. *)
Theorem C3_completed_run_statistics (gen : Gen) (run_id : Z) (retry serial : bool)
    (start finish : Q) (s s' : state) :
  run_gen gen run_id retry serial start finish s = (s', Ok 0%Z) →
  ∃ inputs s1 s2,
    select_inputs gen (get_id gen) (retry_ retry gen) s = (s1, Ok inputs)
    ∧ (if parallel serial gen
       then imap_unordered (apply_parallel gen (get_id gen) run_id) inputs
       else for_each inputs (apply_serial gen (get_id gen) run_id)) s1 = (s2, Ok tt)
    ∧ (parallel serial gen = false →
       is_Some (gens s !! (run_id, name gen)) →
       is_Some (gens s' !! (run_id, name gen)))
    ∧ let n := length inputs in
      let t := Qminus finish start in
      let minutes := py_round (Qdiv t (inject_Z 60)) 4 in
      let per_input := py_round (safe_div t n) 2 in
      ∀ row, gens s' !! (run_id, name gen) = Some row →
        status row = "completed"
        ∧ n_inputs row = Some n
        ∧ ((runtime row = Some minutes ∧ rate row = Some per_input)
           ∨ (runtime row = Some per_input ∧ rate row = Some minutes)).
Proof.
  unfold RunGen.run_gen, try_except_ExternalError. intros H.
  match type of H with context [bind ?X ?K ?S] =>
    destruct (bind X K S) as [sb rb] eqn:Eb end.
  assert (rb = Ok 0%Z ∧ sb = s') as [-> ->].
  { destruct rb as [z|e].
    - injection H as <- <-. auto.
    - destruct e; try discriminate; cbn in H; discriminate. }
  clear H. unfold bind at 1 in Eb.
  match type of Eb with context [if ?c then _ else _] => destruct c end.
  { (* stream: [tot] is never bound *)
    destruct (stream_body _ _ _ _ _ _ s) as [s1 [tot|e]] eqn:Es; [|discriminate].
    unfold stream_body in Es. destruct (query gen) as [q|]; [|discriminate].
    unfold bind, get in Es.
    destruct (for_each _ _ s) as [s2 [[]|e]]; [|discriminate].
    injection Es as <- <-. cbn in Eb. discriminate. }
  unfold batch_body in Eb. unfold bind at 1 2 in Eb.
  destruct (select_inputs gen (get_id gen) (retry_ retry gen) s)
    as [s1 [inputs|e]] eqn:Esel; [|discriminate].
  match type of Eb with context [(if parallel serial gen then ?a else ?b) s1] =>
    destruct ((if parallel serial gen then a else b) s1) as [s2 [[]|e]] eqn:Emap end;
    [|discriminate].
  exists inputs, s1, s2. split; [reflexivity|]. split; [exact Emap|].
  cbn in Eb. injection Eb as <-. cbn. split.
  - intros Hpar Hrow. rewrite Hpar in Emap.
    rewrite !lookup_alter_eq.
    assert (Hg2 : gens s2 = gens s).
    { rewrite (keeps_for_each gens inputs _ (fun x =>
                 keeps_gens_apply_and_act _ _ _ _ _ _) _ _ _ Emap).
      exact (keeps_gens_select_inputs _ _ _ _ _ _ Esel). }
    rewrite Hg2. destruct Hrow as [row ->]. cbn. eauto.
  - intros row. rewrite !lookup_alter_eq.
    destruct (gens s2 !! (run_id, name gen)) as [row0|]; cbn; [|discriminate].
    intros [= <-]. cbn. auto.
Qed.

(** A run of a generator tagged "stream" never returns 0: after the rows
    are processed and the status is set, [tot] is read although it was
    never bound. *)
Lemma stream_run_never_returns_0 (gen : Gen) (run_id : Z) (retry serial : bool)
    (start finish : Q) (s s' : state) :
  "stream" ∈ tags gen →
  run_gen gen run_id retry serial start finish s ≠ (s', Ok 0%Z).
Proof.
  intros Hstream. unfold RunGen.run_gen, try_except_ExternalError.
  rewrite (bool_decide_eq_true_2 _ Hstream). unfold bind at 1.
  destruct (stream_body _ _ _ _ _ _ s) as [sb [tot|e]] eqn:Es.
  - unfold stream_body in Es. destruct (query gen) as [q|]; [|discriminate].
    unfold bind, get in Es.
    destruct (for_each _ _ s) as [sf [[]|e]]; [|discriminate].
    injection Es as <- <-. cbn. discriminate.
  - destruct e; try discriminate; cbn; discriminate.
Qed.

(** *** A row that raises *)

(** C1, as amended: in a serial batch run, when the processing of a row
    raises [ExternalError] the run stops at that row: the rows before it
    stay recorded in [repeats], the failing row is not recorded, the rows
    after it are not processed, the [gens] row gets status "failed" with
    the error text, and [run_gen] returns 1.  Any other exception leaves
    [run_gen] as it is, with no status written. *)
Theorem C1_row_error_stops_the_run (gen : Gen) (run_id : Z) (retry serial : bool)
    (start finish : Q) (s s1 s2 s3 : state)
    (pre post : list (value * string)) (x : value * string) (e : exn) :
  "stream" ∉ tags gen →
  parallel serial gen = false →
  select_inputs gen (get_id gen) (retry_ retry gen) s = (s1, Ok (pre ++ x :: post)) →
  for_each pre (apply_serial gen (get_id gen) run_id) s1 = (s2, Ok tt) →
  apply_serial gen (get_id gen) run_id x s2 = (s3, Raise e) →
  run_gen gen run_id retry serial start finish s
  = match e with
    | ExternalError msg =>
        (with_gens s3 (alter (set_failed msg) (run_id, name gen) (gens s3)), Ok 1%Z)
    | _ => (s3, Raise e)
    end
  ∧ gens s3 = gens s
  ∧ repeats s3 = repeats s2
  ∧ (∀ inp, inp ∈ pre → is_Some (repeats s3 !! (get_id gen, inp.2))).
Proof.
  intros Hstream Hpar Hsel Hpre Hx.
  assert (Hbody : for_each (pre ++ x :: post) (apply_serial gen (get_id gen) run_id) s1
                  = (s3, Raise e)) by exact (for_each_stops _ _ _ _ _ _ _ _ Hpre Hx).
  assert (Hrep : repeats s3 = repeats s2) by exact (apply_and_act_raises _ _ _ _ _ _ _ _ _ Hx).
  split; [|split; [|split]].
  - unfold RunGen.run_gen, try_except_ExternalError.
    rewrite (bool_decide_eq_false_2 _ Hstream), Hpar.
    unfold batch_body. unfold bind at 1 2 3. rewrite Hsel.
    unfold bind at 1. rewrite Hbody. destruct e; reflexivity.
  - rewrite (keeps_gens_apply_and_act _ _ _ _ _ _ _ _ _ Hx).
    rewrite (keeps_for_each gens pre _ (fun x =>
               keeps_gens_apply_and_act _ _ _ _ _ _) _ _ _ Hpre).
    exact (keeps_gens_select_inputs _ _ _ _ _ _ Hsel).
  - exact Hrep.
  - intros inp Hin. rewrite Hrep. exact (proj1 (for_each_records _ _ _ _ _ _ Hpre) inp Hin).
Qed.

End run_gen_facts.

(** *** A small generator: three rows, one function, one action *)

Definition str_Z (z : Z) : string :=
  match z with
  | 1%Z => "1" | 2%Z => "2" | 3%Z => "3" | _ => "?"
  end.

Definition guarded_div (x : Q) (n : nat) : Q :=
  match n with 0 => inject_Z 0 | S _ => Qdiv x (inject_Z (Z.of_nat n)) end.

Definition in_order (f : Z * string → @M (list Z) unit) (l : list (Z * string))
    : @M (list Z) unit :=
  for_each l f.

(** The function multiplies the row by ten and raises [on_two] on row 2;
    the action stores the result. *)
Definition times_ten (on_two : option exn) : @PyBlock Z :=
  {| pb_hash := "f";
     pb_call := fun d =>
       match d !! "query" with
       | Some 2%Z => match on_two with Some e => Raise e | None => Ok 20%Z end
       | Some v => Ok (v * 10)%Z
       | None => Raise KeyError
       end |}.

Definition store : @Action Z (list Z) :=
  {| act := fun d m =>
       match d !! "f" with
       | Some v => (m ++ [v], Ok tt)
       | None => (m, Raise KeyError)
       end |}.

Definition rows_gen (tgs : list string) (on_two : option exn) : @Gen Z (list Z) :=
  {| name := "g"; hash := "h"; tags := tgs;
     query := Some (fun _ => [1; 2; 3]%Z);
     funcs := [times_ten on_two]; actions := [store]; get_id := 5%Z |}.

Definition running : gens_row :=
  {| status := "running"; error := None; runtime := None; rate := None;
     n_inputs := None |}.

Definition start_state : @state (list Z) :=
  {| main := []; gens := {[ (7%Z, "g") := running ]}; repeats := ∅; temp := [] |}.

Definition run (gen : @Gen Z (list Z)) (retry serial : bool) : @M (list Z) Z :=
  run_gen (fun x => x) str_Z guarded_div 0%Z in_order gen 7%Z retry serial
          (inject_Z 0) (inject_Z 120).

Definition gens_row_of (s : @state (list Z)) : option gens_row :=
  gens s !! (7%Z, "g").

Definition completed_state : @state (list Z) :=
  (run (rows_gen [] None) false true start_state).1.

Lemma completed_run :
  run (rows_gen [] None) false true start_state = (completed_state, Ok 0%Z).
Proof. vm_compute. reflexivity. Qed.

Lemma C3_completed_run_statistics_witness :
  (status <$> gens_row_of completed_state) = Some "completed"
  ∧ (n_inputs <$> gens_row_of completed_state) = Some (Some 3).
Proof.
  destruct (C3_completed_run_statistics (fun x => x) str_Z guarded_div 0%Z in_order
              (rows_gen [] None) 7%Z false true (inject_Z 0) (inject_Z 120)
              start_state completed_state completed_run)
    as (inputs & s1 & s2 & Hsel & _ & Hrow & Hstats).
  vm_compute in Hsel. injection Hsel as _ <-.
  destruct Hrow as [row Hrow]; [reflexivity|vm_compute; eauto|].
  destruct (Hstats row Hrow) as (Hst & Hn & _).
  change (gens_row_of completed_state = Some row) in Hrow.
  rewrite Hrow. cbn. rewrite Hst, Hn. split; reflexivity.
Defined.

(** C3 as the specification states it fails: three inputs in 120 seconds
    are recorded with runtime 40 and rate 2, not with runtime 120 and rate
    3/120. *)
Lemma C3_counterexample :
  run (rows_gen [] None) false true start_state = (completed_state, Ok 0%Z)
  ∧ (runtime <$> gens_row_of completed_state) = Some (Some (Qmake 40 1))
  ∧ (rate <$> gens_row_of completed_state) = Some (Some (Qmake 2 1))
  ∧ (n_inputs <$> gens_row_of completed_state) = Some (Some 3)
  ∧ ¬ Qeq (Qmake 40 1) (Qminus (inject_Z 120) (inject_Z 0))
  ∧ ¬ Qeq (Qmake 2 1) (Qdiv (inject_Z 3) (Qminus (inject_Z 120) (inject_Z 0))).
Proof.
  split; [exact completed_run|].
  split; [vm_compute; reflexivity|].
  split; [vm_compute; reflexivity|].
  split; [vm_compute; reflexivity|].
  split; vm_compute; discriminate.
Qed.

Definition bad_row : exn := ExternalError "bad row".
Definition crash : exn := OtherError "crash".

Definition selected : list (Z * string) := [(1%Z, "h1"); (2%Z, "h2"); (3%Z, "h3")].

Definition after_first : @state (list Z) :=
  {| main := [10%Z]; gens := {[ (7%Z, "g") := running ]};
     repeats := {[ (5%Z, "h1") := 7%Z ]}; temp := [] |}.

(** A pool that hands back the last input first. *)
Definition backwards (f : Z * string → @M (list Z) unit) (l : list (Z * string))
    : @M (list Z) unit :=
  for_each (reverse l) f.

Definition io_gen : @Gen Z (list Z) := rows_gen ["io"; "parallel"] None.

Definition pool_run (retry serial : bool) : @M (list Z) Z :=
  run_gen (fun x => x) str_Z guarded_div 0%Z backwards io_gen 7%Z retry serial
          (inject_Z 0) (inject_Z 120).

(** Row 1 is a repeat in [after_first]; the run tagged "io" hands it to the
    pool with the others. *)
Lemma C2_io_forces_retry_witness :
  retry_ false io_gen = true
  ∧ pool_run false false after_first = pool_run true false after_first
  ∧ pool_run false false after_first
    = run_outcome guarded_div io_gen 7%Z (inject_Z 0) (inject_Z 120) 3
        (backwards (apply_parallel io_gen 5%Z 7%Z) selected after_first).1
        (backwards (apply_parallel io_gen 5%Z 7%Z) selected after_first).2.
Proof.
  assert (Hio : "io" ∈ tags io_gen) by (apply (bool_decide_unpack _); vm_compute; exact I).
  assert (Hstream : "stream" ∉ tags io_gen)
    by (apply (bool_decide_unpack _); vm_compute; exact I).
  assert (Hpar : "parallel" ∈ tags io_gen)
    by (apply (bool_decide_unpack _); vm_compute; exact I).
  destruct (C2_io_forces_retry (fun x => x) str_Z guarded_div 0%Z backwards
              io_gen 7%Z false false (inject_Z 0) (inject_Z 120) after_first Hio)
    as (H1 & H2 & _ & H4).
  split; [exact H1|]. split; [exact H2|].
  exact (H4 Hstream eq_refl Hpar _ _ (surjective_pairing _)).
Defined.

(** C2 as the specification states it fails: a generator tagged both "io"
    and "parallel", run with [serial = false], is not processed by a single
    worker: its rows go to the pool, and are loaded in the order the pool
    takes them. *)
Lemma C2_counterexample :
  "io" ∈ tags io_gen
  ∧ parallel false io_gen = true
  ∧ main (pool_run false false start_state).1 = [30; 20; 10]%Z
  ∧ main (run io_gen false false start_state).1 = [10; 20; 30]%Z.
Proof.
  split; [apply (bool_decide_unpack _); vm_compute; exact I|].
  split; [vm_compute; reflexivity|].
  split; vm_compute; reflexivity.
Qed.

Lemma C1_row_error_stops_the_run_witness :
  run (rows_gen [] (Some bad_row)) false true start_state
  = (with_gens after_first
       (alter (set_failed "bad row") (7%Z, "g") (gens after_first)), Ok 1%Z).
Proof.
  refine (proj1 (C1_row_error_stops_the_run (fun x => x) str_Z guarded_div 0%Z in_order
                   (rows_gen [] (Some bad_row)) 7%Z false true (inject_Z 0) (inject_Z 120)
                   start_state start_state after_first after_first
                   [(1%Z, "h1")] [(3%Z, "h3")] (2%Z, "h2") bad_row _ _ _ _ _)).
  - apply (bool_decide_unpack _). vm_compute. exact I.
  - vm_compute. reflexivity.
  - vm_compute. reflexivity.
  - vm_compute. reflexivity.
  - vm_compute. reflexivity.
Defined.

(** C1 as the specification states it fails on both counts: after row 2
    raises [ExternalError] row 3 is never processed and the generator ends
    with status "failed"; and an exception of another kind is passed on to
    the caller while the status stays "running". *)
Lemma C1_counterexample :
  (let out := run (rows_gen [] (Some bad_row)) false true start_state in
   out.2 = Ok 1%Z
   ∧ main out.1 = [10%Z]
   ∧ (status <$> gens_row_of out.1) = Some "failed"
   ∧ repeats out.1 !! (5%Z, "h3") = None)
  ∧ (let out := run (rows_gen [] (Some crash)) false true start_state in
     out.2 = Raise crash
     ∧ (status <$> gens_row_of out.1) = Some "running").
Proof.
  split.
  - cbn zeta. repeat split; vm_compute; reflexivity.
  - cbn zeta. repeat split; vm_compute; reflexivity.
Qed.

(** Without a failing row the same generator loads all three rows. *)
Example all_rows_loaded : main completed_state = [10; 20; 30]%Z.
Proof. vm_compute. reflexivity. Qed.

End RunGenProps.

(* ===================================================================== *)
(** ** Properties of serialization *)
(* ===================================================================== *)

Module SerialProps.
Import Serial.
#[local] Set Warnings "-register-all".

(** *** Induction on Python values *)

Fixpoint size (v : pyval) : nat :=
  match v with
  | PList l | PTuple l | PSet l => S (foldr (fun x acc => size x + acc) 0 l)
  | PDict d | PObj _ d => S (map_fold (fun _ x acc => size x + acc) 0 d)
  | _ => 1
  end.

Lemma size_in_list (l : list pyval) x :
  x ∈ l → size x ≤ foldr (fun x acc => size x + acc) 0 l.
Proof.
  induction l as [|y l IH]; intros Hx; [inversion Hx|].
  cbn. apply elem_of_cons in Hx as [->|Hx]; [lia|]. specialize (IH Hx). lia.
Qed.

Lemma size_in_map (d : gmap string pyval) k x :
  d !! k = Some x → size x ≤ map_fold (fun _ x acc => size x + acc) 0 d.
Proof.
  intros Hk. rewrite (map_fold_delete_L _ _ k x d); [lia| |exact Hk].
  intros. lia.
Qed.

Lemma pyval_induction (P : pyval → Prop) :
  P PNone → (∀ b, P (PBool b)) → (∀ z, P (PInt z)) → (∀ z, P (PFloat z)) →
  (∀ s, P (PStr s)) →
  (∀ l, Forall P l → P (PList l)) →
  (∀ l, Forall P l → P (PTuple l)) →
  (∀ l, Forall P l → P (PSet l)) →
  (∀ d, map_Forall (fun _ => P) d → P (PDict d)) →
  (∀ T d, map_Forall (fun _ => P) d → P (PObj T d)) →
  ∀ v, P v.
Proof.
  intros Hn Hb Hi Hf Hs Hl Ht Hset Hd Ho v.
  remember (size v) as n eqn:Hsz. revert v Hsz.
  induction (lt_wf n) as [n _ IH]. intros v ->.
  assert (Hlist : ∀ l, foldr (fun x acc => size x + acc) 0 l < size v → Forall P l).
  { intros l Hlt. apply Forall_forall. intros x Hx.
    apply (IH (size x)); [|reflexivity].
    pose proof (size_in_list l x Hx). lia. }
  assert (Hmap : ∀ d : gmap string pyval,
             map_fold (fun _ x acc => size x + acc) 0 d < size v →
             map_Forall (fun _ => P) d).
  { intros d Hlt k x Hk. apply (IH (size x)); [|reflexivity].
    pose proof (size_in_map d k x Hk). lia. }
  destruct v; auto;
    first [apply Hl|apply Ht|apply Hset|apply Hd|apply Ho];
    first [apply Hlist|apply Hmap]; cbn; lia.
Qed.

(** *** Sequencing *)

Lemma list_sequence_Ok {A} (l : list A) : list_sequence (Ok <$> l) = Ok l.
Proof. induction l as [|a l IH]; cbn; [reflexivity|]. unfold list_sequence in IH. rewrite IH. reflexivity. Qed.

Lemma map_sequence_Ok {A} (m : gmap string A) : map_sequence (Ok <$> m) = Ok m.
Proof.
  unfold map_sequence. rewrite map_fold_fmap.
  apply (map_fold_weak_ind (fun r m => r = Ok m)); [reflexivity|].
  intros i x m' r _ ->. reflexivity.
Qed.

Lemma list_fmap_Ok {A B} (f : A → result B) (g : A → B) (l : list A) :
  Forall (fun x => f x = Ok (g x)) l → f <$> l = Ok <$> (g <$> l).
Proof.
  induction 1 as [|x l Hx _ IH]; cbn; [reflexivity|]. rewrite Hx, IH. reflexivity.
Qed.

Lemma map_fmap_Ok {A B} (f : A → result B) (g : A → B) (m : gmap string A) :
  map_Forall (fun _ x => f x = Ok (g x)) m → f <$> m = Ok <$> (g <$> m).
Proof.
  intros H. rewrite <- map_fmap_compose. apply map_fmap_ext. intros k x Hk.
  exact (H k x Hk).
Qed.

(** *** Filters by key *)

Lemma filter_key_fmap {A B} (P : string * B → Prop) (P' : string * A → Prop)
    `{∀ x, Decision (P x)} `{∀ x, Decision (P' x)} (f : A → B) (m : gmap string A) :
  (∀ k x, P (k, f x) ↔ P' (k, x)) →
  filter P (f <$> m) = f <$> filter P' m.
Proof.
  intros HP. rewrite map_filter_fmap. f_equal. apply map_filter_ext.
  intros i x _. apply HP.
Qed.

Lemma filter_key_lookup {A} (P : string * A → Prop) `{∀ x, Decision (P x)}
    (Q : Prop) `{Decision Q} (m : gmap string A) k :
  (∀ x, P (k, x) ↔ Q) →
  filter P m !! k = if decide Q then m !! k else None.
Proof.
  intros HP. apply option_eq. intros x. rewrite map_lookup_filter_Some, HP.
  destruct (decide Q); [tauto|]. split; [tauto|intros; discriminate].
Qed.

(** *** What [to_dict] and a round trip produce *)

(** Values made of the JSON types only. *)
Inductive json : pyval → Prop :=
| json_none : json PNone
| json_bool b : json (PBool b)
| json_int z : json (PInt z)
| json_float z : json (PFloat z)
| json_str s : json (PStr s)
| json_list l : Forall json l → json (PList l)
| json_dict d : map_Forall (fun _ => json) d → json (PDict d).

Definition pick (kw : list string) (data : gmap string pyval) : gmap string pyval :=
  foldr (fun k m => match data !! k with Some j => <[k := j]> m | None => m end) ∅ kw.

Section roundtrip.
Context {text : Type}.
Context (dumps : pyval → text) (loads : text → result pyval)
        (hash_ : text → string)
        (argspec : string → list string) (importable : string → bool).

#[local] Abbreviation to_dict := (to_dict dumps hash_ argspec).
#[local] Abbreviation from_dict := (from_dict argspec importable).

(** The serialized form of a value, written without the error cases. *)
Fixpoint ser (v : pyval) : pyval :=
  match v with
  | PList l => PList (ser <$> l)
  | PTuple l =>
      PDict {[ "_pytype" := PStr "builtins.tuple"; "_value" := PList (ser <$> l) ]}
  | PSet l =>
      PDict {[ "_pytype" := PStr "builtins.set"; "_value" := PList (ser <$> l) ]}
  | PDict d => PDict (ser <$> d)
  | PObj T vars =>
      let data :=
        filter (fun kv : string * pyval =>
                  kv.1 ∈ argspec T ∨ (false = false ∧ private kv.1 = false))
               (ser <$> vars) in
      let uid := hash_ (dumps (PDict (pick (argspec T) data ∪ {[ "_pytype" := PStr T ]}))) in
      PDict (data ∪ {[ "_pytype" := PStr T; "_uid" := PStr uid ]})
  | _ => v
  end.

(** The value that comes back from a round trip: tuples and sets come back
    as the dictionaries that stand for them, objects with the attributes
    their constructor stores. *)
Fixpoint norm (v : pyval) : pyval :=
  match v with
  | PList l => PList (norm <$> l)
  | PTuple l =>
      PDict {[ "_pytype" := PStr "builtins.tuple"; "_value" := PList (norm <$> l) ]}
  | PSet l =>
      PDict {[ "_pytype" := PStr "builtins.set"; "_value" := PList (norm <$> l) ]}
  | PDict d => PDict (norm <$> d)
  | PObj T vars =>
      PObj T (filter (fun kv : string * pyval => kv.1 ∈ argspec T) (norm <$> vars))
  | _ => v
  end.

(** The values for which the round trip is claimed: objects of importable
    DbGen classes that store every constructor argument and have no other
    public attribute, and data dictionaries without the reserved keys
    "_pytype" and "_ptype". *)
Inductive plain : pyval → Prop :=
| plain_none : plain PNone
| plain_bool b : plain (PBool b)
| plain_int z : plain (PInt z)
| plain_float z : plain (PFloat z)
| plain_str s : plain (PStr s)
| plain_list l : Forall plain l → plain (PList l)
| plain_tuple l : Forall plain l → plain (PTuple l)
| plain_set l : Forall plain l → plain (PSet l)
| plain_dict d :
    d !! "_pytype" = None → d !! "_ptype" = None →
    map_Forall (fun _ => plain) d → plain (PDict d)
| plain_obj T vars :
    contains "dbgen" T = true → importable T = true →
    Forall (fun a => private a = false ∧ is_Some (vars !! a)) (argspec T) →
    (∀ k, is_Some (vars !! k) → k ∈ argspec T ∨ private k = true) →
    map_Forall (fun _ => plain) vars → plain (PObj T vars).

Lemma json_ser v : json (ser v).
Proof.
  induction v as [| | | | |l IH|l IH|l IH|d IH|T d IH] using pyval_induction;
    cbn; try constructor.
  - apply Forall_fmap. exact IH.
  - intros k x Hk. apply lookup_insert_Some in Hk as [[_ <-]|[_ Hk]]; [constructor|].
    apply lookup_singleton_Some in Hk as [_ <-]. constructor. apply Forall_fmap. exact IH.
  - intros k x Hk. apply lookup_insert_Some in Hk as [[_ <-]|[_ Hk]]; [constructor|].
    apply lookup_singleton_Some in Hk as [_ <-]. constructor. apply Forall_fmap. exact IH.
  - intros k x Hk. apply lookup_fmap_Some in Hk as (y & <- & Hy). exact (IH k y Hy).
  - intros k x Hk. apply lookup_union_Some_raw in Hk as [Hk|[_ Hk]].
    + apply map_lookup_filter_Some in Hk as [Hk _].
      apply lookup_fmap_Some in Hk as (y & <- & Hy). exact (IH k y Hy).
    + apply lookup_insert_Some in Hk as [[_ <-]|[_ Hk]]; [constructor|].
      apply lookup_singleton_Some in Hk as [_ <-]. constructor.
Qed.

Lemma to_dict_data_json j : json j → to_dict_data j = Ok j.
Proof.
  induction j as [| | | | |l IH|l IH|l IH|d IH|T d IH] using pyval_induction;
    intros Hj; inversion Hj; subst; cbn; try reflexivity.
  - rewrite (list_fmap_Ok to_dict_data (fun x => x)).
    + rewrite list_fmap_id, list_sequence_Ok. reflexivity.
    + apply Forall_forall. intros x Hx.
      rewrite Forall_forall in IH. apply IH; [exact Hx|].
      match goal with H : Forall json _ |- _ => rewrite Forall_forall in H; exact (H x Hx) end.
  - rewrite (map_fmap_Ok to_dict_data (fun x => x)).
    + rewrite map_fmap_id, map_sequence_Ok. reflexivity.
    + intros k x Hk. apply (IH k x Hk).
      match goal with H : map_Forall _ _ |- _ => exact (H k x Hk) end.
Qed.

Lemma pick_cons a kw data :
  pick (a :: kw) data
  = match data !! a with Some j => <[a := j]> (pick kw data) | None => pick kw data end.
Proof. reflexivity. Qed.

Lemma pick_lookup kw data k :
  pick kw data !! k = if decide (k ∈ kw) then data !! k else None.
Proof.
  induction kw as [|a kw IH].
  - cbn. rewrite lookup_empty. destruct (decide (k ∈ [])) as [Hin|]; [inversion Hin|reflexivity].
  - rewrite pick_cons. destruct (decide (k = a)) as [->|Hne].
    + rewrite decide_True by left.
      destruct (data !! a) eqn:Ea; [rewrite lookup_insert_eq; reflexivity|].
      rewrite IH. destruct (decide (a ∈ kw)); reflexivity.
    + assert (Hiff : k ∈ a :: kw ↔ k ∈ kw) by (rewrite elem_of_cons; tauto).
      destruct (data !! a).
      * rewrite lookup_insert_ne by congruence. rewrite IH.
        destruct (decide (k ∈ kw)), (decide (k ∈ a :: kw)); tauto.
      * rewrite IH. destruct (decide (k ∈ kw)), (decide (k ∈ a :: kw)); tauto.
Qed.

Lemma hash_args_pick kw data :
  (∀ k, k ∈ kw → ∃ j, data !! k = Some j ∧ to_dict_data j = Ok j) →
  hash_args kw data = Ok (pick kw data).
Proof.
  induction kw as [|a kw IH]; intros H; cbn; [reflexivity|].
  unfold hash_args in IH. rewrite IH by (intros k Hk; apply H; right; exact Hk).
  cbn. destruct (H a ltac:(left)) as (j & -> & ->). reflexivity.
Qed.

(** *** Containers *)

Lemma map_sequence_pair {A} k1 k2 (a b : A) :
  map_sequence (<[k1 := Ok a]> {[ k2 := Ok b ]}) = Ok (<[k1 := a]> {[ k2 := b ]}).
Proof. rewrite <- map_fmap_singleton, <- fmap_insert. apply map_sequence_Ok. Qed.

Lemma to_dict_list (f : pyval → pyval) l :
  Forall (fun v => to_dict v false = Ok (f v)) l →
  list_sequence ((fun v => to_dict v false) <$> l) = Ok (f <$> l).
Proof. intros H. rewrite (list_fmap_Ok _ f l H). apply list_sequence_Ok. Qed.

Lemma from_dict_list (f : pyval → pyval) l :
  Forall (fun v => from_dict v = Ok (f v)) l →
  list_sequence (from_dict <$> l) = Ok (f <$> l).
Proof. intros H. rewrite (list_fmap_Ok _ f l H). apply list_sequence_Ok. Qed.

(** The dictionary that stands for a tuple or a set is read back as a
    dictionary: its tag is spelled with a dot, the tags that [from_dict]
    looks for with a slash. *)
Lemma from_dict_tagged tag x x' :
  contains "dbgen" tag = false →
  String.eqb "builtins/tuple" tag = false →
  String.eqb "builtins/set" tag = false →
  from_dict x = Ok x' →
  from_dict (PDict {[ "_pytype" := PStr tag; "_value" := x ]})
  = Ok (PDict {[ "_pytype" := PStr tag; "_value" := x' ]}).
Proof.
  intros Hc Ht Hs Hx. cbn [Serial.from_dict].
  rewrite lookup_insert_eq.
  cbn [default from_option id dbgen_in is_str].
  rewrite Hc, Ht, Hs.
  rewrite bool_decide_eq_false_2.
  2:{ rewrite lookup_insert_ne by discriminate.
      rewrite lookup_singleton_ne by discriminate. intros [? ?]; discriminate. }
  rewrite fmap_insert, map_fmap_singleton. cbn [Serial.from_dict]. rewrite Hx.
  rewrite map_sequence_pair. reflexivity.
Qed.

Lemma to_dict_tagged tag x j :
  to_dict x false = Ok j →
  to_dict (PDict {[ "_pytype" := PStr tag; "_value" := x ]}) false
  = Ok (PDict {[ "_pytype" := PStr tag; "_value" := j ]}).
Proof.
  intros Hx. cbn [Serial.to_dict].
  rewrite fmap_insert, map_fmap_singleton. cbn [Serial.to_dict]. rewrite Hx.
  rewrite map_sequence_pair. reflexivity.
Qed.

(** *** Objects *)

Lemma private_pytype : private "_pytype" = true ∧ private "_uid" = true.
Proof. split; reflexivity. Qed.

Section object.
Context (T : string) (vars : gmap string pyval).
Hypothesis dbgen_class : contains "dbgen" T = true.
Hypothesis importable_class : importable T = true.
Hypothesis args_stored :
  Forall (fun a => private a = false ∧ is_Some (vars !! a)) (argspec T).
Hypothesis only_args :
  ∀ k, is_Some (vars !! k) → k ∈ argspec T ∨ private k = true.

Let data : gmap string pyval :=
  filter (fun kv : string * pyval =>
            kv.1 ∈ argspec T ∨ (false = false ∧ private kv.1 = false))
         (ser <$> vars).

Lemma data_lookup k :
  data !! k = if decide (k ∈ argspec T) then ser <$> vars !! k else None.
Proof.
  unfold data. apply option_eq. intros j. rewrite map_lookup_filter_Some, lookup_fmap.
  cbn. destruct (decide (k ∈ argspec T)) as [Hk|Hk]; [tauto|].
  split; [|discriminate]. intros [Hj [?|[_ Hpub]]]; [contradiction|].
  destruct (vars !! k) eqn:E; [|discriminate].
  destruct (only_args k ltac:(eauto)) as [?|Hpriv]; [contradiction|].
  unfold private in Hpriv. congruence.
Qed.

Lemma arg_not_private a : a ∈ argspec T → private a = false ∧ is_Some (vars !! a).
Proof. rewrite Forall_forall in args_stored. apply args_stored. Qed.

Lemma hash_args_data : hash_args (argspec T) data = Ok (pick (argspec T) data).
Proof.
  apply hash_args_pick. intros k Hk. rewrite data_lookup, decide_True by exact Hk.
  destruct (arg_not_private k Hk) as [_ [v ->]]. exists (ser v).
  split; [reflexivity|]. apply to_dict_data_json, json_ser.
Qed.

Lemma to_dict_obj :
  map_Forall (fun _ v => to_dict v false = Ok (ser v)) vars →
  to_dict (PObj T vars) false = Ok (ser (PObj T vars)).
Proof.
  intros IH. cbn [Serial.to_dict ser].
  rewrite (map_fmap_Ok _ ser vars IH).
  rewrite (filter_key_fmap _
             (fun kv : string * pyval =>
                kv.1 ∈ argspec T ∨ (false = false ∧ private kv.1 = false)) Ok)
    by (intros; reflexivity).
  rewrite map_sequence_Ok. cbn. fold data. rewrite hash_args_data. reflexivity.
Qed.

Lemma from_dict_obj :
  map_Forall (fun _ v => from_dict (ser v) = Ok (norm v)) vars →
  from_dict (ser (PObj T vars)) = Ok (norm (PObj T vars)).
Proof.
  intros IH. cbn [ser]. fold data.
  set (uid := hash_ _).
  set (D := data ∪ {[ "_pytype" := PStr T; "_uid" := PStr uid ]}).
  assert (Hargs : filter (fun kv : string * result pyval => kv.1 ∈ argspec T)
                         (from_dict <$> D)
                  = Ok <$> filter (fun kv : string * pyval => kv.1 ∈ argspec T)
                                  (norm <$> vars)).
  { apply map_eq. intros k.
    rewrite (filter_key_lookup _ (k ∈ argspec T) (from_dict <$> D)) by (intros; reflexivity).
    rewrite !lookup_fmap.
    rewrite (filter_key_lookup _ (k ∈ argspec T) (norm <$> vars)) by (intros; reflexivity).
    destruct (decide (k ∈ argspec T)) as [Hk|Hk]; [|reflexivity].
    destruct (arg_not_private k Hk) as [Hpub [v Hv]].
    unfold D. rewrite lookup_fmap.
    rewrite (lookup_union_l' data _ k);
      [|rewrite data_lookup, decide_True, Hv by exact Hk; eauto].
    rewrite data_lookup, decide_True, Hv by exact Hk. cbn.
    f_equal. exact (IH k v Hv). }
  assert (Hpt : D !! "_pytype" = Some (PStr T)).
  { unfold D. rewrite lookup_union_r.
    - apply lookup_insert_eq.
    - rewrite data_lookup. destruct (decide ("_pytype" ∈ argspec T)) as [Hk|]; [|reflexivity].
      destruct (arg_not_private _ Hk) as [Hpub _]. discriminate. }
  cbn [Serial.from_dict norm]. rewrite Hpt. cbn [default from_option id dbgen_in].
  rewrite dbgen_class, importable_class, Hargs, map_sequence_Ok. cbn.
  unfold construct.
  replace (forallb _ (argspec T)) with true.
  2:{ symmetry. apply forallb_forall. intros a Ha. apply list_elem_of_In in Ha.
      apply bool_decide_eq_true.
      rewrite (filter_key_lookup _ (a ∈ argspec T)) by (intros; reflexivity).
      rewrite decide_True, lookup_fmap by exact Ha.
      destruct (arg_not_private a Ha) as [_ [v ->]]. cbn. eauto. }
  replace (existsb private (argspec T)) with false; [reflexivity|].
  symmetry. apply not_true_is_false. intros Hex. apply existsb_exists in Hex as (a & Ha & Hp).
  apply list_elem_of_In in Ha. destruct (arg_not_private a Ha) as [Hpub _]. congruence.
Qed.

Lemma to_dict_norm_obj :
  map_Forall (fun _ v => to_dict (norm v) false = Ok (ser v)) vars →
  to_dict (norm (PObj T vars)) false = Ok (ser (PObj T vars)).
Proof.
  intros IH. cbn [norm Serial.to_dict ser]. fold data.
  assert (Hdata :
    filter (fun kv : string * result pyval =>
              kv.1 ∈ argspec T ∨ (false = false ∧ private kv.1 = false))
           ((fun v => to_dict v false) <$>
            filter (fun kv : string * pyval => kv.1 ∈ argspec T) (norm <$> vars))
    = Ok <$> data).
  { apply map_eq. intros k.
    rewrite (filter_key_lookup _
               (k ∈ argspec T ∨ (false = false ∧ private k = false)))
      by (intros; reflexivity).
    rewrite !lookup_fmap.
    rewrite (filter_key_lookup _ (k ∈ argspec T) (norm <$> vars)) by (intros; reflexivity).
    rewrite data_lookup, !lookup_fmap.
    destruct (decide (k ∈ argspec T)) as [Hk|Hk].
    - rewrite decide_True by (left; exact Hk).
      destruct (vars !! k) as [v|] eqn:Hv; [|reflexivity]. cbn.
      f_equal. exact (IH k v Hv).
    - destruct (decide _); reflexivity. }
  rewrite Hdata, map_sequence_Ok. cbn. rewrite hash_args_data. reflexivity.
Qed.

Lemma uid_lookup :
  ∃ u, match ser (PObj T vars) with
       | PDict d => d !! "_uid"
       | _ => None
       end = Some (PStr u).
Proof.
  cbn [ser]. fold data. eexists. rewrite lookup_union_r.
  - rewrite lookup_insert_ne by discriminate. apply lookup_singleton_eq.
  - rewrite data_lookup. destruct (decide ("_uid" ∈ argspec T)) as [Hk|]; [|reflexivity].
    destruct (arg_not_private _ Hk) as [Hpub _]. discriminate.
Qed.

End object.

(** *** The round trip of a value *)

Lemma list_sequence_compose {A B C} (f : B → result C) (g : A → B) (h : A → C) l :
  Forall (fun v => f (g v) = Ok (h v)) l →
  list_sequence (f <$> (g <$> l)) = Ok (h <$> l).
Proof.
  intros H. rewrite <- list_fmap_compose.
  rewrite (list_fmap_Ok (f ∘ g) h l H). apply list_sequence_Ok.
Qed.

Lemma map_sequence_compose {A B C} (f : B → result C) (g : A → B) (h : A → C)
    (m : gmap string A) :
  map_Forall (fun _ v => f (g v) = Ok (h v)) m →
  map_sequence (f <$> (g <$> m)) = Ok (h <$> m).
Proof.
  intros H. rewrite <- map_fmap_compose.
  rewrite (map_fmap_Ok (f ∘ g) h m H). apply map_sequence_Ok.
Qed.

Definition round_trips (v : pyval) : Prop :=
  to_dict v false = Ok (ser v)
  ∧ from_dict (ser v) = Ok (norm v)
  ∧ to_dict (norm v) false = Ok (ser v).

Lemma round_trips_list l :
  Forall round_trips l →
  list_sequence ((fun v => to_dict v false) <$> l) = Ok (ser <$> l)
  ∧ list_sequence (from_dict <$> (ser <$> l)) = Ok (norm <$> l)
  ∧ list_sequence ((fun v => to_dict v false) <$> (norm <$> l)) = Ok (ser <$> l).
Proof.
  intros H. split; [|split].
  - apply to_dict_list. eapply Forall_impl; [exact H|]. intros v (H1 & _). exact H1.
  - apply list_sequence_compose. eapply Forall_impl; [exact H|]. intros v (_ & H2 & _). exact H2.
  - apply (list_sequence_compose (fun v => to_dict v false)).
    eapply Forall_impl; [exact H|]. intros v (_ & _ & H3). exact H3.
Qed.

Lemma roundtrip_value v : plain v → round_trips v.
Proof.
  induction v as [| | | | |l IH|l IH|l IH|d IH|T d IH] using pyval_induction;
    intros Hp; inversion Hp; subst; try (repeat split; reflexivity).
  - (* list *)
    assert (Hall : Forall round_trips l) by (rewrite Forall_forall in *; auto).
    destruct (round_trips_list l Hall) as (H1 & H2 & H3).
    repeat split; cbn [Serial.to_dict Serial.from_dict ser norm].
    + rewrite H1. reflexivity.
    + rewrite H2. reflexivity.
    + rewrite H3. reflexivity.
  - (* tuple *)
    assert (Hall : Forall round_trips l) by (rewrite Forall_forall in *; auto).
    destruct (round_trips_list l Hall) as (H1 & H2 & H3).
    repeat split; cbn [ser norm].
    + cbn [Serial.to_dict]. rewrite H1. reflexivity.
    + apply from_dict_tagged; try reflexivity.
      cbn [Serial.from_dict]. rewrite H2. reflexivity.
    + apply to_dict_tagged. cbn [Serial.to_dict]. rewrite H3. reflexivity.
  - (* set *)
    assert (Hall : Forall round_trips l) by (rewrite Forall_forall in *; auto).
    destruct (round_trips_list l Hall) as (H1 & H2 & H3).
    repeat split; cbn [ser norm].
    + cbn [Serial.to_dict]. rewrite H1. reflexivity.
    + apply from_dict_tagged; try reflexivity.
      cbn [Serial.from_dict]. rewrite H2. reflexivity.
    + apply to_dict_tagged. cbn [Serial.to_dict]. rewrite H3. reflexivity.
  - (* dict *)
    assert (Hall : map_Forall (fun _ => round_trips) d)
      by (intros k v Hk; apply (IH k v Hk); eauto).
    repeat split; cbn [Serial.to_dict Serial.from_dict ser norm].
    + rewrite (map_fmap_Ok (fun v => to_dict v false) ser d), map_sequence_Ok.
      * reflexivity.
      * intros k v Hk. exact (proj1 (Hall k v Hk)).
    + rewrite lookup_fmap.
      match goal with H : d !! "_pytype" = None |- _ => rewrite H end.
      cbn. rewrite bool_decide_eq_false_2.
      2:{ rewrite lookup_fmap.
          match goal with H : d !! "_ptype" = None |- _ => rewrite H end.
          intros [? ?]; discriminate. }
      rewrite (map_sequence_compose from_dict ser norm d); [reflexivity|].
      intros k v Hk. exact (proj1 (proj2 (Hall k v Hk))).
    + rewrite (map_sequence_compose (fun v => to_dict v false) norm ser d); [reflexivity|].
      intros k v Hk. exact (proj2 (proj2 (Hall k v Hk))).
  - (* object *)
    assert (Hall : map_Forall (fun _ => round_trips) d)
      by (intros k v Hk; apply (IH k v Hk); eauto).
    repeat split.
    + apply to_dict_obj; try assumption. intros k v Hk. exact (proj1 (Hall k v Hk)).
    + apply from_dict_obj; try assumption.
      intros k v Hk. exact (proj1 (proj2 (Hall k v Hk))).
    + apply to_dict_norm_obj; try assumption.
      intros k v Hk. exact (proj2 (proj2 (Hall k v Hk))).
Qed.

(** C8, as amended: for an object of an importable DbGen class whose
    attributes are its constructor's arguments (stored under their names,
    with no other public attribute), and likewise for the objects inside
    it, and whose data dictionaries do not use the keys "_pytype" and
    "_ptype", serializing to JSON and reconstructing yields an object with
    the same hash.  [loads] is assumed to read back what [dumps] wrote. *)
Theorem C8_roundtrip_preserves_hash (T : string) (vars : gmap string pyval) :
  (∀ j, json j → loads (dumps j) = Ok j) →
  plain (PObj T vars) →
  ∃ s y h,
    toJSON dumps hash_ argspec (PObj T vars) = Ok s
    ∧ fromJSON loads argspec importable s = Ok y
    ∧ Serial.hash dumps hash_ argspec (PObj T vars) = Ok h
    ∧ Serial.hash dumps hash_ argspec y = Ok h.
Proof.
  intros Hloads Hp. destruct (roundtrip_value _ Hp) as (Hser & Hfrom & Hnorm).
  inversion Hp as [| | | | | | | | |T' vars' Hdb Himp Hargs Honly Hall]; subst.
  destruct (uid_lookup T vars Hargs Honly) as [u Hu].
  exists (dumps (ser (PObj T vars))), (norm (PObj T vars)), (PStr u).
  split; [|split; [|split]].
  - unfold toJSON. rewrite Hser. reflexivity.
  - unfold fromJSON. rewrite (Hloads _ (json_ser _)). cbn [mbind result_bind].
    rewrite Hfrom. reflexivity.
  - unfold Serial.hash. rewrite Hser. cbn [mbind result_bind].
    destruct (ser (PObj T vars)); try discriminate. rewrite Hu. reflexivity.
  - unfold Serial.hash. rewrite Hnorm. cbn [mbind result_bind].
    destruct (ser (PObj T vars)); try discriminate. rewrite Hu. reflexivity.
Qed.

End roundtrip.

(** *** A class with one argument *)

Definition const_argspec (T : string) : list string :=
  if decide (T = "dbgen.core.Const") then ["val"] else [].

Definition const_importable (T : string) : bool :=
  bool_decide (T = "dbgen.core.Const").

(** The text layer is left out of the examples: the "text" is the
    serialized structure itself. *)
Definition uid_of (j : pyval) : string :=
  match j with
  | PDict d => if bool_decide (is_Some (d !! "val")) then "uid-with-val" else "uid"
  | _ => ""
  end.

Definition const_obj (val : pyval) : pyval :=
  PObj "dbgen.core.Const" {[ "val" := val ]}.

Lemma const_plain : plain const_argspec const_importable (const_obj (PTuple [PInt 1; PStr "a"])).
Proof.
  apply plain_obj.
  - reflexivity.
  - reflexivity.
  - repeat constructor. eexists. reflexivity.
  - intros k [v Hk]. apply lookup_singleton_Some in Hk as [<- _]. left. left.
  - intros k v Hk. apply lookup_singleton_Some in Hk as [_ <-].
    repeat constructor.
Qed.

Lemma C8_roundtrip_preserves_hash_witness :
  ∃ s y h,
    toJSON (fun j => j) uid_of const_argspec (const_obj (PTuple [PInt 1; PStr "a"])) = Ok s
    ∧ fromJSON Ok const_argspec const_importable s = Ok y
    ∧ Serial.hash (fun j => j) uid_of const_argspec
        (const_obj (PTuple [PInt 1; PStr "a"])) = Ok h
    ∧ Serial.hash (fun j => j) uid_of const_argspec y = Ok h.
Proof.
  apply (C8_roundtrip_preserves_hash (fun j => j) Ok uid_of const_argspec const_importable).
  - intros j _. reflexivity.
  - exact const_plain.
Defined.

(** A tuple does not come back as a tuple: [to_dict] tags it
    "builtins.tuple", [from_dict] looks for "builtins/tuple", and the
    tagged dictionary is kept as data.  The hash is not affected. *)
Example tuple_comes_back_as_dict :
  (s ← toJSON (fun j => j) uid_of const_argspec (const_obj (PTuple [PInt 1]));
   fromJSON Ok const_argspec const_importable s)
  = Ok (const_obj (PDict {[ "_pytype" := PStr "builtins.tuple";
                            "_value" := PList [PInt 1] ]})).
Proof. vm_compute. reflexivity. Qed.

(** C8 as the specification states it fails: an object holding a data
    dictionary with the key "_pytype" serializes, but cannot be
    reconstructed: [from_dict] takes the dictionary for a tagged value. *)
Lemma C8_counterexample :
  let x := const_obj (PDict {[ "_pytype" := PInt 5 ]}) in
  is_ok (toJSON (fun j => j) uid_of const_argspec x) = true
  ∧ is_ok (Serial.hash (fun j => j) uid_of const_argspec x) = true
  ∧ (s ← toJSON (fun j => j) uid_of const_argspec x;
     fromJSON Ok const_argspec const_importable s) = Raise TypeError.
Proof.
  cbn zeta. split; [|split]; vm_compute; reflexivity.
Qed.

End SerialProps.

(* ===================================================================== *)
(** ** More on [dbgen/core/entity.py] *)
(* ===================================================================== *)

Module EntityMore.
Import Entity EntityProps.

(** *** Invariants of the classes the metaclass returns *)

(** X12: every class that [EntityMetaclass.__new__] returns has its
    identifying names among its fields and in its hash-include set, keeps
    the name and the fields of the class statement, and is a table only if
    its configuration says so, [table=True] was passed and no base is a
    table. *)
Theorem EntityMetaclass_new_invariants (d : class_decl) (c : entity_class) :
  EntityMetaclass_new d = Ok c →
  __identifying__ c ⊆ __fields__ c
  ∧ __identifying__ c ⊆ _hashinclude_ c
  ∧ __name__ c = d_name d
  ∧ __fields__ c = d_fields d
  ∧ (_is_table c = true ↔
     d_config_table d = true ∧ d_table d = true
     ∧ ∀ b, b ∈ d_bases d → b_config_table b = false).
Proof.
  intros H.
  destruct (EntityMetaclass_new_inv d c H)
    as (ids0 & hex & hin0 & schema0 & _ & _ & _ & _ & _ & Hin & _ & _ & _ & _ & Hsub).
  unfold EntityMetaclass_new in H.
  destruct (joined (d_identifying d) _ _) as [i0|]; cbn in H; [|discriminate].
  destruct (joined (d_hashexclude d) _ _) as [hx|]; cbn in H; [|discriminate].
  destruct (joined (d_hashinclude d) _ _) as [hi|]; cbn in H; [|discriminate].
  destruct (if d_all_id d then _ else _) as [identifying|]; cbn in H; [|discriminate].
  destruct (d_config_table d && d_table d && existsb b_config_table (d_bases d)) eqn:Et;
    cbn in H; [discriminate|].
  destruct (if truthy str_empty (getattr_schema d) then _ else _) as [s0|];
    cbn in H; [|discriminate].
  destruct (filter _ (elements identifying)); [|discriminate].
  injection H as <-. cbn in *.
  split; [exact Hsub|]. split; [rewrite Hin; apply union_subseteq_r|].
  split; [reflexivity|]. split; [reflexivity|].
  rewrite andb_true_iff. split.
  - intros [Hc Ht]. rewrite Hc, Ht in Et. cbn in Et. split; [exact Hc|].
    split; [exact Ht|]. intros b Hb. destruct (b_config_table b) eqn:Eb; [|reflexivity].
    assert (existsb b_config_table (d_bases d) = true); [|congruence].
    apply existsb_exists. exists b. split; [apply list_elem_of_In; exact Hb|exact Eb].
  - intros (Hc & Ht & _). auto.
Qed.

(** *** The schema a class ends up with *)

(** X13: a class derived from an entity class has the schema it declares
    itself when that is a non-empty value, and the schema of its first
    base otherwise (none declared, [None] or the empty string). *)
Theorem schema_of_derived_class (d db : class_decl) (c cb : entity_class)
    (rest : list base_class) :
  EntityMetaclass_new db = Ok cb →
  d_bases d = as_base cb :: rest →
  EntityMetaclass_new d = Ok c →
  __schema__ c = if truthy str_empty (d_schema d) then d_schema d else __schema__ cb.
Proof.
  intros Hb Hbases H.
  destruct (EntityMetaclass_new_inv db cb Hb)
    as (_ & _ & _ & sb & _ & _ & _ & _ & _ & _ & Hsb & _).
  assert (Hcb : truthy str_empty (__schema__ cb) = true).
  { rewrite Hsb. destruct (truthy str_empty sb) eqn:E; [exact E|reflexivity]. }
  destruct (EntityMetaclass_new_inv d c H)
    as (_ & _ & _ & s0 & _ & _ & _ & _ & _ & _ & Hs & Hs0 & _).
  destruct (truthy str_empty (d_schema d)) eqn:Eown.
  - assert (Hget : getattr_schema d = d_schema d).
    { unfold getattr_schema. destruct (d_schema d); try reflexivity. discriminate. }
    rewrite Hget, Eown in Hs0. subst s0. rewrite Hs, Eown. reflexivity.
  - destruct (decide (d_schema d = Missing)) as [Hm|Hm].
    + assert (Hget : getattr_schema d = __schema__ cb).
      { unfold getattr_schema. rewrite Hm, Hbases, filter_cons. cbn.
        destruct (decide (__schema__ cb ≠ Missing)) as [|Hn]; [reflexivity|].
        apply dec_stable in Hn. rewrite Hn in Hcb. discriminate. }
      rewrite Hget, Hcb in Hs0. subst s0. rewrite Hs, Hcb. reflexivity.
    + assert (Hget : getattr_schema d = d_schema d).
      { unfold getattr_schema. destruct (d_schema d); try reflexivity. contradiction. }
      rewrite Hget, Eown in Hs0. destruct Hs0 as (s & Hop & ->).
      unfold overwrite_parent in Hop. rewrite Hbases, inherit_field_cons in Hop.
      destruct (inherit_field rest b_schema "" _) as [fv|]; cbn in Hop; [|discriminate].
      destruct (__schema__ cb) as [| |sc|t r] eqn:Ecb; cbn in Hcb; try discriminate.
      injection Hop as <-. rewrite Hs. cbn. rewrite Hcb. reflexivity.
Qed.

(** *** [_get_load_entity] *)

(** A column is an attribute or a foreign key. *)
Lemma columns_split cols x :
  x ∈ col_name <$> cols ↔ x ∈ all_attrs cols ∨ x ∈ all_fks cols.
Proof.
  split.
  - intros Hx. apply list_elem_of_fmap in Hx as (col & -> & Hc).
    destruct (col_foreign_keys col) eqn:Ek.
    + right. apply list_elem_of_fmap. exists col. split; [reflexivity|].
      apply list_elem_of_filter. auto.
    + left. apply list_elem_of_fmap. exists col. split; [reflexivity|].
      apply list_elem_of_filter. auto.
  - intros [Hx|Hx]; [exact (all_attrs_columns _ _ Hx)|exact (all_fks_columns _ _ Hx)].
Qed.

Lemma identifying_types (ft : gmap string string) (l : list string)
    (m0 m : gmap string string) :
  foldl (fun acc x =>
           m ← acc;
           match ft !! x with
           | Some ty => Ok (<[x := ty]> m)
           | None => Raise KeyError
           end) (Ok m0) l = Ok m →
  ∀ k, m !! k = if decide (k ∈ l) then ft !! k else m0 !! k.
Proof.
  revert m0. induction l as [|x l IH]; intros m0; cbn.
  - intros [= <-] k. rewrite decide_False by apply not_elem_of_nil. reflexivity.
  - destruct (ft !! x) as [ty|] eqn:Ex.
    + intros H k. rewrite (IH _ H k).
      destruct (decide (k ∈ l)) as [Hk|Hk].
      * rewrite decide_True by (right; exact Hk). reflexivity.
      * destruct (decide (k = x)) as [->|Hne].
        -- rewrite decide_True by left. rewrite lookup_insert_eq. auto.
        -- rewrite decide_False by (rewrite elem_of_cons; tauto).
           rewrite lookup_insert_ne by congruence. reflexivity.
    + intros H. exfalso. revert H. clear. induction l as [|y l IH]; [discriminate|].
      exact IH.
Qed.

(** X14: the [LoadEntity] of a table class.  When [_get_load_entity]
    returns, the class is a table with exactly one primary key, which the
    result names; the identifying attributes and the identifying foreign
    keys of the result are together the identifying names that are
    columns, an identifying name without a column being left out; and each
    identifying attribute has the type name of its field. *)
Theorem get_load_entity_identifying (c : table_class) (le : LoadEntity) :
  _get_load_entity c = Ok le →
  _is_table (cls c) = true
  ∧ primary_key_names c = [le_primary_key_name le]
  ∧ le_name le = __tablename__ (cls c)
  ∧ le_schema le = __schema__ (cls c)
  ∧ ∃ cols,
      metadata_table c = Some cols
      ∧ (∀ x, x ∈ dom (le_identifying_attributes le)
              ∨ x ∈ le_identifying_foreign_keys le
            ↔ x ∈ __identifying__ (cls c) ∧ x ∈ col_name <$> cols)
      ∧ (∀ x ty, le_identifying_attributes le !! x = Some ty →
           field_type_name c !! x = Some ty ∧ x ∈ all_attrs cols).
Proof.
  unfold _get_load_entity. intros H.
  destruct (_is_table (cls c)) eqn:Et; cbn in H; [|discriminate].
  unfold _columns in H. destruct (metadata_table c) as [cols|]; cbn in H; [|discriminate].
  destruct (primary_key_names c) as [|pk [|]]; try discriminate.
  destruct (foldl _ (Ok ∅) _) as [m|] eqn:Ef; cbn in H; [|discriminate].
  injection H as <-. cbn.
  pose proof (identifying_types _ _ _ _ Ef) as Hm.
  split; [reflexivity|]. split; [reflexivity|]. split; [reflexivity|].
  split; [reflexivity|]. exists cols. split; [reflexivity|].
  pose proof (columns_split cols) as Hcols.
  assert (Hdom : ∀ x, x ∈ dom m ↔ x ∈ __identifying__ (cls c) ∧ x ∈ all_attrs cols).
  { intros x. rewrite elem_of_dom, Hm.
    destruct (decide (x ∈ filter _ (all_attrs cols))) as [Hx|Hx].
    - apply list_elem_of_filter in Hx as [Hid Ha]. split; [auto|]. intros _.
      assert (Hin : x ∈ filter (fun x => x ∈ __identifying__ (cls c)) (all_attrs cols))
        by (apply list_elem_of_filter; auto).
      clear -Ef Hin. revert Ef. generalize (∅ : gmap string string).
      induction (filter _ (all_attrs cols)) as [|y l IH]; intros m0; [inversion Hin|].
      cbn. destruct (field_type_name c !! y) as [ty|] eqn:Ey.
      + apply elem_of_cons in Hin as [->|Hin]; [rewrite Ey; eauto|]. apply IH. exact Hin.
      + intros H. exfalso. revert H. clear. induction l as [|z l IH]; [discriminate|].
        exact IH.
    - rewrite lookup_empty. split; [intros [? ?]; discriminate|].
      intros [Hid Ha]. exfalso. apply Hx. apply list_elem_of_filter. auto. }
  split.
  - intros x. rewrite Hdom, list_elem_of_filter, Hcols. tauto.
  - intros x ty Hx.
    assert (Hin : x ∈ dom m) by (apply elem_of_dom; eauto).
    apply Hdom in Hin as [Hid Ha]. split; [|exact Ha].
    rewrite Hm in Hx. rewrite decide_True in Hx; [exact Hx|].
    apply list_elem_of_filter. auto.
Qed.

(** *** What [load] returns *)

(** The keywords sorted into [attrs] and [fks], with the loads among the
    foreign keys replaced by their output. *)
Lemma load_inputs cols (kw : gmap string kwval) k :
  let attrs := filter (fun kv : string * kwval => kv.1 ∈ all_attrs cols) kw in
  let fks := filter (fun kv : string * kwval => kv.1 ∉ dom attrs) kw in
  ((load_out <$> fks) ∪ attrs) !! k
  = (fun v => if decide (k ∈ all_attrs cols) then v else load_out v) <$> kw !! k.
Proof.
  intros attrs fks. rewrite lookup_union, lookup_fmap.
  destruct (kw !! k) as [v|] eqn:Ek; cbn.
  - destruct (decide (k ∈ all_attrs cols)) as [Ha|Ha].
    + assert (Hattr : attrs !! k = Some v) by (apply map_lookup_filter_Some; auto).
      assert (Hfk : fks !! k = None).
      { apply map_lookup_filter_None. right. intros v' _ Hn. cbn in Hn.
        apply Hn. apply elem_of_dom. eauto. }
      rewrite Hattr, Hfk. reflexivity.
    + assert (Hattr : attrs !! k = None).
      { apply map_lookup_filter_None. right. intros v' _ Hin. exact (Ha Hin). }
      assert (Hfk : fks !! k = Some v).
      { apply map_lookup_filter_Some. split; [exact Ek|]. cbn.
        rewrite elem_of_dom, Hattr. intros [? ?]; discriminate. }
      rewrite Hattr, Hfk. reflexivity.
  - assert (Hattr : attrs !! k = None) by (apply map_lookup_filter_None; auto).
    assert (Hfk : fks !! k = None) by (apply map_lookup_filter_None; auto).
    rewrite Hattr, Hfk. reflexivity.
Qed.

(** X15: what a [Load] built by [load] holds.  Its primary key is the
    value passed under the table's name, if any; its inputs are the other
    keywords, a value passed for an attribute column kept as it is and a
    [Load] passed for a foreign key replaced by the argument that names
    its output; its [LoadEntity] is that of the class. *)
Theorem load_result (c : table_class) (ins : bool) (kwargs : gmap string kwval)
    (L : Load) :
  load c ins kwargs = Ok L →
  _get_load_entity c = Ok (load_entity L)
  ∧ primary_key L = kwargs !! __tablename__ (cls c)
  ∧ insert L = ins
  ∧ ∃ cols, _columns c = Ok cols ∧
      ∀ k, inputs L !! k
           = (fun v => if decide (k ∈ all_attrs cols) then v else load_out v)
               <$> delete (__tablename__ (cls c)) kwargs !! k.
Proof.
  unfold load. intros H.
  destruct (filter _ (map_to_list kwargs)); [|discriminate].
  destruct (negb _ && negb _); [discriminate|].
  destruct (_columns c) as [cols|]; cbn in H; [|discriminate].
  destruct (filter _ (elements _)); [|discriminate].
  destruct (_get_load_entity c) as [le|]; cbn in H; [|discriminate].
  injection H as <-. cbn. split; [reflexivity|]. split; [reflexivity|].
  split; [reflexivity|]. exists cols. split; [reflexivity|].
  intros k. apply load_inputs.
Qed.

(** *** [foreign_key] *)

(** X17: for a class the metaclass built, [foreign_key] returns a field
    that refers to "<schema>.<table>.<primary key>", the class being a
    table with that one primary key. *)
Theorem foreign_key_target (d : class_decl) (c : table_class) (primary_key : bool)
    (f : Field) :
  EntityMetaclass_new d = Ok (cls c) →
  foreign_key c primary_key = Ok f →
  ∃ key,
    primary_key_names c = [key]
    ∧ _is_table (cls c) = true
    ∧ field_foreign_key f
      = (py_str (__schema__ (cls c)) +:+ "." +:+ d_tablename d) +:+ "." +:+ key
    ∧ field_primary_key f = primary_key.
Proof.
  intros Hd H.
  destruct (EntityMetaclass_new_inv d (cls c) Hd)
    as (_ & _ & _ & _ & _ & _ & _ & _ & _ & _ & _ & _ & _ & Hfull & _).
  unfold foreign_key in H.
  destruct (_get_load_entity c) as [le|] eqn:Hle; cbn in H; [|discriminate].
  injection H as <-. cbn. exists (le_primary_key_name le).
  unfold _get_load_entity in Hle.
  destruct (_is_table (cls c)); cbn in Hle; [|discriminate].
  destruct (_columns c); cbn in Hle; [|discriminate].
  destruct (primary_key_names c) as [|pk [|]]; try discriminate.
  destruct (foldl _ (Ok ∅) _); cbn in Hle; [|discriminate].
  injection Hle as <-. cbn. rewrite Hfull. auto.
Qed.

(** *** [create_entity] *)

Lemma annotations_underscore (l : list (string * field_def)) (acc : result (gset string)) :
  (∃ f, f ∈ l ∧ String.prefix "_" f.1 = true) →
  is_ok (foldl (fun acc (f : string * field_def) =>
                  annotations ← acc;
                  if String.prefix "_" f.1 then Raise ValueError
                  else
                    a ← f_annotation f.2;
                    Ok (if a : bool then annotations ∪ {[ f.1 ]} else annotations))
               acc l) = false.
Proof.
  revert acc. induction l as [|x l IH]; intros acc (f & Hf & Hp); [inversion Hf|].
  cbn. apply elem_of_cons in Hf as [->|Hf].
  - destruct acc as [a|e]; cbn.
    + rewrite Hp. clear. induction l as [|y l IH]; [reflexivity|exact IH].
    + clear. induction l as [|y l IH]; [reflexivity|exact IH].
  - apply IH. eauto.
Qed.

(** X18: [create_entity] returns no class when a field name starts with an
    underscore, and none when [all_id] is set: the namespace it builds
    always holds [__identifying__], which the metaclass refuses together
    with [all_id]. *)
Theorem create_entity_refuses (BaseEntity : base_class) (model_name : string)
    (field_definitions : list (string * field_def)) (base : option base_class)
    (identifying : option (gset string)) (schema : option string)
    (all_id table : bool) (registry : option bool)
    (fields : gset string) (tablename : string) (config_table : bool) :
  all_id = true ∨ (∃ f, f ∈ field_definitions ∧ String.prefix "_" f.1 = true) →
  is_ok (create_entity BaseEntity model_name field_definitions base identifying
           schema all_id table registry fields tablename config_table) = false.
Proof.
  intros [->|Hf]; unfold create_entity.
  - destruct (foldl _ (Ok ∅) field_definitions) as [annotations|]; [|reflexivity].
    cbn. destruct (bool_decide _); [reflexivity|].
    match goal with |- is_ok ?r = false => destruct r as [c|] eqn:E end; [|reflexivity].
    apply EntityMetaclass_new_inv in E
      as (? & ? & ? & ? & _ & _ & _ & Hid & _). cbn in Hid.
    destruct Hid as [Hid _]. discriminate.
  - pose proof (annotations_underscore field_definitions (Ok ∅) Hf) as H.
    destruct (foldl _ (Ok ∅) field_definitions); [discriminate|reflexivity].
Qed.

(** *** Sample classes *)

Lemma EntityMetaclass_new_invariants_witness :
  __identifying__ parent_class ⊆ __fields__ parent_class
  ∧ __identifying__ parent_class ⊆ _hashinclude_ parent_class
  ∧ __name__ parent_class = "Parent"
  ∧ __fields__ parent_class = {["test_id_col"]}
  ∧ (_is_table parent_class = true ↔
     d_config_table parent_decl = true ∧ d_table parent_decl = true
     ∧ ∀ b, b ∈ d_bases parent_decl → b_config_table b = false).
Proof.
  exact (EntityMetaclass_new_invariants parent_decl parent_class parent_declared).
Defined.

(** A class with a schema of its own, and a class derived from it. *)
Definition lab_decl : class_decl :=
  {| d_name := "Sample"; d_bases := [];
     d_identifying := Val {["label"]};
     d_hashexclude := Missing; d_hashinclude := Missing;
     d_schema := Val "lab"; d_annotations := {["label"]};
     d_all_id := false; d_table := false;
     d_fields := {["label"]};
     d_tablename := "sample"; d_config_table := false |}.

Definition lab_class : entity_class :=
  {| __name__ := "Sample";
     __identifying__ := {["label"]};
     _hashexclude_ := ∅;
     _hashinclude_ := {["label"]};
     _is_table := false;
     __schema__ := Val "lab";
     __tablename__ := "sample";
     __fulltablename__ := "lab.sample";
     __fields__ := {["label"]};
     config_table := false |}.

Definition derived_decl : class_decl :=
  {| d_name := "Wafer"; d_bases := [as_base lab_class];
     d_identifying := Missing;
     d_hashexclude := Missing; d_hashinclude := Missing;
     d_schema := Missing; d_annotations := {["size"]};
     d_all_id := false; d_table := true;
     d_fields := {["label"; "size"]};
     d_tablename := "wafer"; d_config_table := true |}.

Definition derived_class : entity_class :=
  {| __name__ := "Wafer";
     __identifying__ := {["label"]};
     _hashexclude_ := ∅;
     _hashinclude_ := {["label"]};
     _is_table := true;
     __schema__ := Val "lab";
     __tablename__ := "wafer";
     __fulltablename__ := "lab.wafer";
     __fields__ := {["label"; "size"]};
     config_table := true |}.

Lemma lab_declared : EntityMetaclass_new lab_decl = Ok lab_class.
Proof. vm_compute. reflexivity. Qed.

Lemma derived_declared : EntityMetaclass_new derived_decl = Ok derived_class.
Proof. vm_compute. reflexivity. Qed.

Lemma schema_of_derived_class_witness : __schema__ derived_class = Val "lab".
Proof.
  exact (schema_of_derived_class derived_decl lab_decl derived_class lab_class []
           lab_declared eq_refl derived_declared).
Defined.

Definition child_load_entity : LoadEntity :=
  {| le_name := "child"; le_schema := Val "public"; le_primary_key_name := "id";
     le_identifying_attributes := {[ "test_id_col" := "int" ]};
     le_identifying_foreign_keys := ["parent"] |}.

Lemma child_has_load_entity : _get_load_entity child = Ok child_load_entity.
Proof. vm_compute. reflexivity. Qed.

Lemma get_load_entity_identifying_witness :
  _is_table (cls child) = true
  ∧ primary_key_names child = ["id"]
  ∧ le_name child_load_entity = "child"
  ∧ le_schema child_load_entity = Val "public"
  ∧ ∃ cols,
      metadata_table child = Some cols
      ∧ (∀ x, x ∈ dom (le_identifying_attributes child_load_entity)
              ∨ x ∈ le_identifying_foreign_keys child_load_entity
            ↔ x ∈ __identifying__ (cls child) ∧ x ∈ col_name <$> cols)
      ∧ (∀ x ty, le_identifying_attributes child_load_entity !! x = Some ty →
           field_type_name child !! x = Some ty ∧ x ∈ all_attrs cols).
Proof.
  exact (get_load_entity_identifying child child_load_entity child_has_load_entity).
Defined.

(** The child is loaded with the load of its parent as foreign key. *)
Definition child_kwargs : gmap string kwval :=
  {[ "parent" := VLoad "p0"; "test_id_col" := VConst (CInt 1) ]}.

Definition child_row_load : Load :=
  {| load_entity := child_load_entity;
     primary_key := None;
     inputs := {[ "parent" := VArg "p0" "out"; "test_id_col" := VConst (CInt 1) ]};
     insert := true |}.

Lemma child_row_loaded : load child true child_kwargs = Ok child_row_load.
Proof. vm_compute. reflexivity. Qed.

Lemma load_result_witness :
  _get_load_entity child = Ok child_load_entity
  ∧ primary_key child_row_load = None
  ∧ insert child_row_load = true
  ∧ ∃ cols, _columns child = Ok cols ∧
      ∀ k, inputs child_row_load !! k
           = (fun v => if decide (k ∈ all_attrs cols) then v else load_out v)
               <$> delete "child" child_kwargs !! k.
Proof. exact (load_result child true child_kwargs child_row_load child_row_loaded). Defined.

Definition parent_table : table_class :=
  {| cls := parent_class;
     metadata_table :=
       Some [ {| col_name := "id"; col_foreign_keys := false |};
              {| col_name := "test_id_col"; col_foreign_keys := false |} ];
     primary_key_names := ["id"];
     field_type_name := {[ "id" := "UUID"; "test_id_col" := "int" ]} |}.

Lemma foreign_key_target_witness :
  ∃ key,
    primary_key_names parent_table = [key]
    ∧ _is_table (cls parent_table) = true
    ∧ field_foreign_key
        {| field_foreign_key := "public.parent.id"; field_primary_key := false |}
      = (py_str (__schema__ (cls parent_table)) +:+ "." +:+ d_tablename parent_decl)
        +:+ "." +:+ key
    ∧ field_primary_key
        {| field_foreign_key := "public.parent.id"; field_primary_key := false |}
      = false.
Proof.
  apply (foreign_key_target parent_decl parent_table false).
  - exact parent_declared.
  - vm_compute. reflexivity.
Defined.

Lemma create_entity_refuses_witness :
  is_ok (create_entity (as_base lab_class) "Wafer" [("size", FAnnotation true)]
           None None None true false None {["label"; "size"]} "wafer" false)
  = false.
Proof.
  apply create_entity_refuses. left. reflexivity.
Defined.

(** Without [all_id] the same call returns a class. *)
Example create_entity_returns :
  is_ok (create_entity (as_base lab_class) "Wafer" [("size", FAnnotation true)]
           None None None false false None {["label"; "size"]} "wafer" false)
  = true.
Proof. vm_compute. reflexivity. Qed.

End EntityMore.

(* ===================================================================== *)
(** ** More on the generator graph *)
(* ===================================================================== *)

Module GenMore.
Import Gen GenProps.

(** *** Folds that may raise *)

Lemma foldl_raise {A B} (f : result A → B → result A) (l : list B) e :
  (∀ x, f (Raise e) x = Raise e) → foldl f (Raise e) l = Raise e.
Proof.
  intros Hf. induction l as [|x l IH]; [reflexivity|]. cbn. rewrite Hf. exact IH.
Qed.

(** A loop that checks every element: it passes when every check passes,
    and raises the error of the first check that fails. *)
Lemma foldl_check {B} (check : B → result unit) (l : list B) :
  foldl (fun acc x => _ ← acc; check x) (Ok ()) l = Ok () ↔
  ∀ x, x ∈ l → check x = Ok ().
Proof.
  induction l as [|x l IH]; cbn.
  - split; [intros _ x Hx; inversion Hx|reflexivity].
  - destruct (check x) as [[]|e] eqn:E.
    + rewrite IH. split.
      * intros H y Hy. apply elem_of_cons in Hy as [->|Hy]; [exact E|exact (H y Hy)].
      * intros H y Hy. apply H. right. exact Hy.
    + rewrite foldl_raise by reflexivity. split; [discriminate|].
      intros H. rewrite (H x) in E; [discriminate|left].
Qed.

Lemma foldl_check_raise {B} (check : B → result unit) (l : list B) e :
  foldl (fun acc x => _ ← acc; check x) (Ok ()) l = Raise e →
  ∃ x, x ∈ l ∧ check x = Raise e.
Proof.
  induction l as [|x l IH]; cbn; [discriminate|].
  destruct (check x) as [[]|e'] eqn:E.
  - intros H. destruct (IH H) as (y & Hy & Hc). exists y. split; [right; exact Hy|exact Hc].
  - rewrite foldl_raise by reflexivity. intros [= ->]. exists x. split; [left|exact E].
Qed.

(** *** The nodes of a generator *)

Definition all_nodes (g : Generator) : list ComputationalNode :=
  (IsLoad <$> loads g) ++ (IsTransform <$> transforms g) ++ [IsExtract (extract g)].

Definition node_hash (n : ComputationalNode) : string := hash (data_of n).

Lemma nodes_of_keys g k : k ∈ (nodes_of g).*1 ↔ k ∈ node_hash <$> all_nodes g.
Proof.
  unfold nodes_of, dict_update, all_nodes.
  rewrite !dict_fold_keys, !dict_of_keys, !fmap_app, !elem_of_app. cbn.
  rewrite !list_elem_of_singleton. unfold node_hash. tauto.
Qed.

Lemma nodes_of_members g k n : (k, n) ∈ nodes_of g → n ∈ all_nodes g ∧ k = node_hash n.
Proof.
  unfold nodes_of, dict_update, all_nodes. intros H. rewrite !elem_of_app.
  apply dict_fold_entries in H as [H|H].
  - apply dict_fold_entries in H as [H|H].
    + apply list_elem_of_singleton in H. injection H as -> ->.
      split; [|reflexivity]. right. right. left.
    + apply dict_of_entries in H as (x & Hx & [= -> ->]). auto.
  - apply dict_of_entries in H as (x & Hx & [= -> ->]). auto.
Qed.

(** What [validate_nodes] checks. *)
Lemma validate_nodes_spec g :
  validate_nodes g = Ok () ↔
  ∀ n name key out, n ∈ all_nodes g → (name, Arg key out) ∈ inputs (data_of n) →
    key ∈ node_hash <$> all_nodes g.
Proof.
  unfold validate_nodes. fold (all_nodes g). rewrite foldl_check. split.
  - intros H n name key out Hn Hin. specialize (H n Hn).
    rewrite foldl_check in H. specialize (H (name, Arg key out) Hin). cbn in H.
    destruct (decide (key ∈ _)) as [Hk|]; [|discriminate].
    apply elem_of_list_to_set in Hk. exact Hk.
  - intros H n Hn. rewrite foldl_check. intros [name [key out|]] Hin; cbn; [|reflexivity].
    rewrite decide_True; [reflexivity|]. apply elem_of_list_to_set.
    exact (H n name key out Hn Hin).
Qed.

Lemma validate_nodes_raises g e : validate_nodes g = Raise e → e = ValueError.
Proof.
  unfold validate_nodes. intros H.
  apply foldl_check_raise in H as (n & _ & H).
  apply foldl_check_raise in H as ([name [key out|]] & _ & H); cbn in H; [|discriminate].
  destruct (decide _); [discriminate|]. congruence.
Qed.

(** *** When [build_graph] succeeds *)

Lemma node_edges_ok nodes node_id n es :
  (∀ name key out, (name, Arg key out) ∈ inputs (data_of n) → key ∈ nodes.*1) →
  node_edges nodes node_id n es = Ok (es ++ arg_edges node_id n).
Proof.
  unfold node_edges, arg_edges. generalize (inputs (data_of n)). intros l.
  revert es. induction l as [|[name a] l IH]; intros es Hl; cbn.
  - rewrite app_nil_r. reflexivity.
  - destruct a as [key out|]; cbn.
    + unfold dict_in. rewrite bool_decide_eq_true_2 by (apply (Hl name key out); left).
      rewrite IH; [rewrite <- app_assoc; reflexivity|].
      intros name' key' out' Hin. apply (Hl name' key' out'). right. exact Hin.
    + apply IH. intros name' key' out' Hin. apply (Hl name' key' out'). right. exact Hin.
Qed.

Lemma node_edges_raises nodes node_id n es e :
  node_edges nodes node_id n es = Raise e →
  e = DBgenMissingInfo ∧
  ∃ name key out, (name, Arg key out) ∈ inputs (data_of n) ∧ key ∉ nodes.*1.
Proof.
  unfold node_edges. generalize (inputs (data_of n)). intros l.
  revert es. induction l as [|[name a] l IH]; intros es; cbn; [discriminate|].
  destruct a as [key out|]; cbn.
  - unfold dict_in. case_bool_decide as Hk.
    + intros H. apply IH in H as (-> & name' & key' & out' & Hin & Hn).
      split; [reflexivity|]. exists name', key', out'. split; [right; exact Hin|exact Hn].
    + rewrite foldl_raise by reflexivity. intros [= <-]. split; [reflexivity|].
      exists name, key, out. split; [left|exact Hk].
  - intros H. apply IH in H as (-> & name' & key' & out' & Hin & Hn).
    split; [reflexivity|]. exists name', key', out'. split; [right; exact Hin|exact Hn].
Qed.

Lemma all_edges_ok nodes (l : dict ComputationalNode) es :
  (∀ k n name key out, (k, n) ∈ l → (name, Arg key out) ∈ inputs (data_of n) →
     key ∈ nodes.*1) →
  ∃ es', foldl (fun acc kv => edges ← acc; node_edges nodes kv.1 kv.2 edges) (Ok es) l
         = Ok es'.
Proof.
  revert es. induction l as [|[k n] l IH]; intros es Hl; cbn; [eauto|].
  rewrite node_edges_ok.
  - apply IH. intros k' n' name key out Hin. apply (Hl k' n' name key out). right. exact Hin.
  - intros name key out Hin. apply (Hl k n name key out); [left|exact Hin].
Qed.

Lemma all_edges_raises nodes (l : dict ComputationalNode) es e :
  foldl (fun acc kv => edges ← acc; node_edges nodes kv.1 kv.2 edges) (Ok es) l = Raise e →
  e = DBgenMissingInfo ∧
  ∃ k n name key out,
    (k, n) ∈ l ∧ (name, Arg key out) ∈ inputs (data_of n) ∧ key ∉ nodes.*1.
Proof.
  revert es. induction l as [|[k n] l IH]; intros es; cbn; [discriminate|].
  destruct (node_edges nodes k n es) as [es1|e1] eqn:E1.
  - intros H. apply IH in H as (-> & k' & n' & name & key & out & Hin & Ha & Hn).
    split; [reflexivity|]. exists k', n', name, key, out. split; [right; exact Hin|auto].
  - rewrite foldl_raise by reflexivity. intros [= <-].
    apply node_edges_raises in E1 as (-> & name & key & out & Ha & Hn).
    split; [reflexivity|]. exists k, n, name, key, out. split; [left|auto].
Qed.

Lemma build_graph_raises g e :
  build_graph g = Raise e →
  e = DBgenMissingInfo ∧
  ∃ n name key out,
    n ∈ all_nodes g ∧ (name, Arg key out) ∈ inputs (data_of n)
    ∧ key ∉ node_hash <$> all_nodes g.
Proof.
  unfold build_graph. fold (nodes_of g).
  destruct (foldl _ (Ok []) (nodes_of g)) as [es|e'] eqn:E; cbn; [discriminate|].
  intros [= ->]. apply all_edges_raises in E as (-> & k & n & name & key & out & Hin & Ha & Hn).
  split; [reflexivity|]. exists n, name, key, out.
  split; [exact (proj1 (nodes_of_members g k n Hin))|]. split; [exact Ha|].
  rewrite <- nodes_of_keys. exact Hn.
Qed.

Lemma build_graph_ok g :
  (∀ n name key out, n ∈ all_nodes g → (name, Arg key out) ∈ inputs (data_of n) →
     key ∈ node_hash <$> all_nodes g) →
  ∃ G, build_graph g = Ok G.
Proof.
  intros H. unfold build_graph. fold (nodes_of g).
  destruct (all_edges_ok (nodes_of g) (nodes_of g) []) as [es ->].
  - intros k n name key out Hin Ha. apply nodes_of_keys.
    exact (H n name key out (proj1 (nodes_of_members g k n Hin)) Ha).
  - cbn. eauto.
Qed.

(** X8: a generator that passes [validate_nodes] has a computational
    graph: building it does not raise (no missing-node error), its nodes
    are keyed by the hashes of the generator's nodes, and every edge joins
    two of them. *)
Theorem validated_generator_has_graph (g : Generator) :
  validate_nodes g = Ok () →
  ∃ G, build_graph g = Ok G
    ∧ (∀ k, k ∈ (g_nodes G).*1 ↔ k ∈ node_hash <$> all_nodes g)
    ∧ (∀ u v, (u, v) ∈ g_edges G → u ∈ (g_nodes G).*1 ∧ v ∈ (g_nodes G).*1).
Proof.
  intros Hv.
  destruct (build_graph_ok g (proj1 (validate_nodes_spec g) Hv)) as [G HG]. exists G. split; [exact HG|].
  destruct (build_graph_spec g G HG) as (Hnodes & Hedges & Hclosed).
  rewrite Hnodes. split; [apply nodes_of_keys|].
  intros u v Huv. split; [exact (Hclosed u v Huv)|].
  apply Hedges in Huv as (n & name & out & Hin & _).
  apply list_elem_of_fmap. exists (v, n). auto.
Qed.

(** *** Cycles *)

(** The place of a key in a list (its length when the key is absent). *)
Fixpoint index_of (k : string) (l : list string) : nat :=
  match l with
  | [] => 0
  | x :: l' => if decide (x = k) then 0 else S (index_of k l')
  end.

Lemma index_of_before k l1 l2 : k ∈ l1 → index_of k (l1 ++ l2) < length l1.
Proof.
  induction l1 as [|x l1 IH]; intros Hk; [inversion Hk|]. cbn.
  destruct (decide (x = k)); [lia|].
  apply elem_of_cons in Hk as [->|Hk]; [contradiction|]. specialize (IH Hk). lia.
Qed.

Lemma index_of_at k l1 l2 : k ∉ l1 → index_of k (l1 ++ k :: l2) = length l1.
Proof.
  induction l1 as [|x l1 IH]; intros Hk; cbn.
  - rewrite decide_True; reflexivity.
  - rewrite not_elem_of_cons in Hk. destruct Hk as [Hne Hk].
    rewrite decide_False by congruence. rewrite IH; auto.
Qed.

(** A graph as networkx keeps it: one entry per node, and the ends of
    every edge are nodes. *)
Definition well_formed (G : DiGraph) : Prop :=
  NoDup (g_nodes G).*1 ∧
  ∀ u v, (u, v) ∈ g_edges G → u ∈ (g_nodes G).*1 ∧ v ∈ (g_nodes G).*1.

(** [u] comes before [v] in [l]. *)
Definition before (l : list string) (u v : string) : Prop :=
  ∃ l1 l2 l3, l = l1 ++ u :: l2 ++ v :: l3.

Lemma sort_raises G e :
  lexicographical_topological_sort G = Raise e → e = NetworkXUnfeasible.
Proof.
  unfold lexicographical_topological_sort.
  destruct (kahn _ G _ []) as [[|x pending] produced]; [discriminate|]. congruence.
Qed.

Lemma topsort_raises G e : topsort_with_dict G = Raise e → e = ValueError.
Proof.
  unfold topsort_with_dict.
  destruct (lexicographical_topological_sort G) as [ids|e'] eqn:E; [discriminate|].
  apply sort_raises in E as ->. congruence.
Qed.

Lemma topsort_ok G ids :
  topsort_with_dict G = Ok ids ↔ kahn (length (g_nodes G).*1) G (g_nodes G).*1 [] = ([], ids).
Proof.
  unfold topsort_with_dict, lexicographical_topological_sort.
  destruct (kahn _ G _ []) as [[|x pending] produced].
  - split; [intros [= ->]; reflexivity|intros [= ->]; reflexivity].
  - split; discriminate.
Qed.

(** What a sort that returns tells about the graph. *)
Lemma topsort_sound G ids :
  well_formed G → topsort_with_dict G = Ok ids →
  lex_run G (g_nodes G).*1 [] ids
  ∧ NoDup ids
  ∧ (∀ k, k ∈ ids ↔ k ∈ (g_nodes G).*1)
  ∧ (∀ u v, (u, v) ∈ g_edges G → before ids u v).
Proof.
  intros [Hnd Hclosed] H. apply topsort_ok in H.
  apply kahn_run in H as (new & Hout & Hrun & Hpend & _); [|exact Hnd].
  cbn in Hout. subst new.
  destruct (lex_run_sound _ _ _ _ Hrun Hnd) as [Hndids Hsub].
  assert (Hall : ∀ k, k ∈ ids ↔ k ∈ (g_nodes G).*1).
  { intros k. split; [apply Hsub|]. intros Hk.
    destruct (decide (k ∈ ids)) as [|Hn]; [assumption|exfalso].
    assert (Hin : k ∈ filter (fun w => w ∉ ids) (g_nodes G).*1)
      by (apply list_elem_of_filter; auto).
    rewrite <- Hpend in Hin. inversion Hin. }
  split; [exact Hrun|]. split; [exact Hndids|]. split; [exact Hall|].
  intros u v Huv. destruct (Hclosed u v Huv) as [_ Hv].
  apply Hall in Hv. apply list_elem_of_split in Hv as (l1 & l3 & ->).
  apply predecessors_spec in Huv.
  pose proof (lex_run_topological _ _ _ _ Hrun l1 v l3 eq_refl u Huv) as Hu.
  cbn in Hu. apply list_elem_of_split in Hu as (l0 & l2 & ->).
  exists l0, l2, l3. rewrite <- app_assoc. reflexivity.
Qed.

Lemma before_index l u v : NoDup l → before l u v → index_of u l < index_of v l.
Proof.
  intros Hnd (l1 & l2 & l3 & ->).
  replace (l1 ++ u :: l2 ++ v :: l3) with ((l1 ++ u :: l2) ++ v :: l3) in *
    by (rewrite <- app_assoc; reflexivity).
  rewrite (index_of_at v).
  - apply index_of_before. apply elem_of_app. right. left.
  - apply NoDup_app in Hnd as (_ & Hdis & _). intros Hin. apply (Hdis v Hin). left.
Qed.

Lemma topsort_acyclic G ids :
  well_formed G → topsort_with_dict G = Ok ids → acyclic G.
Proof.
  intros Hwf H. destruct (topsort_sound G ids Hwf H) as (_ & Hnd & _ & Hbefore).
  exists (fun k => index_of k ids). intros u v Huv.
  apply before_index; [exact Hnd|exact (Hbefore u v Huv)].
Qed.

Lemma acyclic_topsort G :
  well_formed G → acyclic G → ∃ ids, topsort_with_dict G = Ok ids.
Proof.
  intros [Hnd Hclosed] Hacyc.
  destruct (kahn (length (g_nodes G).*1) G (g_nodes G).*1 []) as [pending' ids] eqn:Ek.
  destruct (kahn_complete G pending' ids Hnd Hacyc) as (-> & _);
    [intros u v Huv; exact (proj1 (Hclosed u v Huv))|exact Ek|].
  exists ids. apply topsort_ok. exact Ek.
Qed.

(** X9: [topsort_with_dict] sorts exactly the graphs without a cycle.  On
    a graph with a cycle it raises [ValueError]; otherwise it returns
    every node once, each edge going from an earlier node to a later
    one. *)
Theorem topsort_with_dict_cycle (G : DiGraph) :
  well_formed G →
  (acyclic G → ∃ ids, topsort_with_dict G = Ok ids)
  ∧ (¬ acyclic G → topsort_with_dict G = Raise ValueError)
  ∧ (∀ ids, topsort_with_dict G = Ok ids →
       acyclic G ∧ ids ≡ₚ (g_nodes G).*1
       ∧ ∀ u v, (u, v) ∈ g_edges G → before ids u v).
Proof.
  intros Hwf. split; [exact (acyclic_topsort G Hwf)|]. split.
  - intros Hcyc. destruct (topsort_with_dict G) as [ids|e] eqn:E.
    + exfalso. exact (Hcyc (topsort_acyclic G ids Hwf E)).
    + apply topsort_raises in E as ->. reflexivity.
  - intros ids H. split; [exact (topsort_acyclic G ids Hwf H)|].
    destruct (topsort_sound G ids Hwf H) as (_ & Hnd & Hall & Hbefore).
    split; [|exact Hbefore].
    apply NoDup_Permutation; [exact Hnd|exact (proj1 Hwf)|exact Hall].
Qed.

(** *** The ways [_sort_graph] ends *)

Lemma build_graph_well_formed g G : build_graph g = Ok G → well_formed G.
Proof.
  intros H. destruct (build_graph_spec g G H) as (Hnodes & Hedges & Hclosed).
  split; [rewrite Hnodes; apply nodes_of_NoDup|].
  intros u v Huv. rewrite Hnodes. split; [exact (Hclosed u v Huv)|].
  apply Hedges in Huv as (n & name & out & Hin & _).
  apply list_elem_of_fmap. exists (v, n). auto.
Qed.

Lemma _sort_graph_sorted g G ids :
  _graph g = None → build_graph g = Ok G → topsort_with_dict G = Ok ids →
  ∃ data,
    Forall2 (fun k d => dict_get (g_nodes G) k = Some d) ids data
    ∧ _sort_graph g
      = Ok (IsExtract (extract g) :: filter (fun d => isinstance_Extract d = false) data,
            set_graph g (Some G)).
Proof.
  intros Hcache Hbuild Hsort.
  destruct (topsort_sound G ids (build_graph_well_formed g G Hbuild) Hsort)
    as (_ & _ & Hall & _).
  destruct (lookup_all (g_nodes G) ids) as (data & Hdata & Hget);
    [intros k Hk; apply Hall, Hk|].
  exists data. split; [exact Hget|].
  unfold _sort_graph, _computational_graph. rewrite Hcache, Hbuild. cbn.
  rewrite Hsort. cbn. rewrite Hdata. reflexivity.
Qed.

Lemma _sort_graph_inv g order g' :
  _graph g = None → _sort_graph g = Ok (order, g') →
  ∃ G ids data,
    build_graph g = Ok G ∧ topsort_with_dict G = Ok ids
    ∧ Forall2 (fun k d => dict_get (g_nodes G) k = Some d) ids data
    ∧ order = IsExtract (extract g) :: filter (fun d => isinstance_Extract d = false) data
    ∧ g' = set_graph g (Some G).
Proof.
  intros Hcache H.
  destruct (build_graph g) as [G|e] eqn:Hbuild.
  2:{ unfold _sort_graph, _computational_graph in H. rewrite Hcache, Hbuild in H.
      discriminate. }
  destruct (topsort_with_dict G) as [ids|e] eqn:Hsort.
  2:{ unfold _sort_graph, _computational_graph in H. rewrite Hcache, Hbuild in H.
      cbn in H. rewrite Hsort in H. discriminate. }
  destruct (_sort_graph_sorted g G ids Hcache Hbuild Hsort) as (data & Hget & Heq).
  rewrite Heq in H. injection H as <- <-. exists G, ids, data. auto.
Qed.

(** X10: the only ways [_sort_graph] fails on a generator whose graph is
    not built yet: the missing-node error when an [Arg] names a hash that
    no node of the generator has, and [ValueError] when the graph has a
    cycle.  In particular the look-up of a sorted key never fails. *)
Theorem sort_graph_failures (g : Generator) (e : exn) :
  _graph g = None →
  _sort_graph g = Raise e →
  (e = DBgenMissingInfo
   ∧ ∃ n name key out,
       n ∈ all_nodes g ∧ (name, Arg key out) ∈ inputs (data_of n)
       ∧ key ∉ node_hash <$> all_nodes g)
  ∨ (e = ValueError ∧ ∃ G, build_graph g = Ok G ∧ ¬ acyclic G).
Proof.
  intros Hcache H.
  destruct (build_graph g) as [G|e'] eqn:Hbuild.
  - right. destruct (topsort_with_dict G) as [ids|e'] eqn:Hsort.
    + destruct (_sort_graph_sorted g G ids Hcache Hbuild Hsort) as (data & _ & Heq).
      rewrite Heq in H. discriminate.
    + pose proof (topsort_raises G e' Hsort) as ->.
      unfold _sort_graph, _computational_graph in H. rewrite Hcache, Hbuild in H.
      cbn in H. rewrite Hsort in H. injection H as <-.
      split; [reflexivity|]. exists G. split; [reflexivity|]. intros Hacyc.
      destruct (acyclic_topsort G (build_graph_well_formed g G Hbuild) Hacyc) as [ids Hids].
      congruence.
  - left. unfold _sort_graph, _computational_graph in H. rewrite Hcache, Hbuild in H.
    injection H as <-. exact (build_graph_raises g e' Hbuild).
Qed.

(** *** The loads in their order *)

Definition as_load (node : ComputationalNode) : option Load :=
  match node with IsLoad l => Some l | _ => None end.

Section dict_override.
Context {V : Type}.
Implicit Types (d : dict V) (k : string) (v : V).

Lemma dict_get_set_eq d k v : dict_get (dict_set d k v) k = Some v.
Proof.
  induction d as [|[k' v'] d IH]; cbn.
  - rewrite decide_True; reflexivity.
  - destruct (decide (k' = k)) as [->|Hne]; cbn.
    + rewrite decide_True; reflexivity.
    + rewrite decide_False by exact Hne. exact IH.
Qed.

(** [d.update(d')]: the values of [d'] replace those of [d]. *)
Lemma dict_fold_override d d' k v :
  NoDup d.*1 → k ∈ d'.*1 →
  (k, v) ∈ foldl (fun d kv => dict_set d kv.1 kv.2) d d' → (k, v) ∈ d'.
Proof.
  revert d. induction d' as [|[k0 v0] d' IH]; intros d Hnd Hk; [inversion Hk|].
  cbn. intros Hin. destruct (decide (k ∈ d'.*1)) as [Hk'|Hk'].
  - right. exact (IH _ (dict_set_NoDup d k0 v0 Hnd) Hk' Hin).
  - cbn in Hk. apply elem_of_cons in Hk as [->|Hk]; [|contradiction].
    apply dict_fold_entries in Hin as [Hin|Hin]; [|right; exact Hin].
    apply (dict_get_Some _ _ _ (dict_set_NoDup d k0 v0 Hnd)) in Hin.
    rewrite dict_get_set_eq in Hin. injection Hin as <-. left.
Qed.

End dict_override.

(** The node stored under the hash of a load is a load of the generator. *)
Lemma nodes_of_load g k n l :
  (k, n) ∈ nodes_of g → l ∈ loads g → hash (load_node l) = k →
  ∃ l', n = IsLoad l' ∧ l' ∈ loads g ∧ hash (load_node l') = k.
Proof.
  unfold nodes_of, dict_update. intros Hin Hl Hk.
  apply dict_fold_override in Hin.
  - apply dict_of_entries in Hin as (x & Hx & [= -> ->]).
    apply list_elem_of_fmap in Hx as (l' & -> & Hl'). exists l'. auto.
  - apply dict_fold_NoDup. cbn. constructor; [apply not_elem_of_nil|constructor].
  - apply dict_of_keys. apply list_elem_of_fmap. exists (IsLoad l).
    split; [symmetry; exact Hk|]. apply list_elem_of_fmap. eauto.
Qed.

Lemma nodes_of_as_load g k l : (k, IsLoad l) ∈ nodes_of g → l ∈ loads g.
Proof.
  unfold nodes_of, dict_update. intros H.
  apply dict_fold_entries in H as [H|H].
  - apply dict_fold_entries in H as [H|H].
    + apply list_elem_of_singleton in H. discriminate.
    + apply dict_of_entries in H as (x & Hx & [= _ Heq]).
      apply list_elem_of_fmap in Hx as (t & -> & _). discriminate.
  - apply dict_of_entries in H as (x & Hx & [= _ Heq]).
    apply list_elem_of_fmap in Hx as (l' & -> & Hl'). injection Heq as ->. exact Hl'.
Qed.

Lemma omap_app_cons_inv {A B} (f : A → option B) (data : list A) l1 l2 b :
  omap f data = l1 ++ b :: l2 →
  ∃ d1 a d2, data = d1 ++ a :: d2 ∧ f a = Some b ∧ omap f d1 = l1.
Proof.
  revert l1. induction data as [|a data IH]; intros l1; cbn.
  - destruct l1; discriminate.
  - destruct (f a) as [b'|] eqn:Ea.
    + destruct l1 as [|x l1]; cbn; intros [= <- E].
      * exists [], a, data. auto.
      * apply IH in E as (d1 & a' & d2 & -> & Ha' & <-).
        exists (a :: d1), a', d2. cbn. rewrite Ea. auto.
    + intros E. apply IH in E as (d1 & a' & d2 & -> & Ha' & <-).
      exists (a :: d1), a', d2. cbn. rewrite Ea. auto.
Qed.

Lemma omap_filter_as_load (data : list ComputationalNode) :
  omap as_load (filter (fun d => isinstance_Extract d = false) data) = omap as_load data.
Proof.
  induction data as [|d data IH]; [reflexivity|].
  rewrite filter_cons. destruct d as [e|t|l]; cbn.
  - rewrite decide_False by discriminate. exact IH.
  - rewrite decide_True by reflexivity. cbn. exact IH.
  - rewrite decide_True by reflexivity. cbn. f_equal. exact IH.
Qed.

Lemma as_load_hashes (data : list ComputationalNode) :
  ((fun l => hash (load_node l)) <$> omap as_load data) `sublist_of` (node_hash <$> data).
Proof.
  induction data as [|d data IH]; [constructor|].
  destruct d as [e|t|l]; cbn.
  - apply sublist_cons. exact IH.
  - apply sublist_cons. exact IH.
  - apply sublist_skip. exact IH.
Qed.

(** X11: [_sorted_loads] returns loads of the generator, one for every
    hash that a load of the generator has, and a load that consumes the
    output of another load (a foreign key) comes after it. *)
Theorem sorted_loads_complete (g g' : Generator) (ls : list Load) :
  _graph g = None →
  _sorted_loads g = Ok (ls, g') →
  (∀ l, l ∈ ls → l ∈ loads g)
  ∧ (∀ l, l ∈ loads g → ∃ l', l' ∈ ls ∧ hash (load_node l') = hash (load_node l))
  ∧ NoDup ((fun l => hash (load_node l)) <$> ls)
  ∧ (∀ l1 l l2 l0, ls = l1 ++ l :: l2 → l0 ∈ loads g →
       consumes (IsLoad l) (hash (load_node l0)) →
       ∃ m, m ∈ l1 ∧ hash (load_node m) = hash (load_node l0)).
Proof.
  intros Hcache H. unfold _sorted_loads in H.
  destruct (_sort_graph g) as [[order g1]|e] eqn:Hs; [|discriminate].
  injection H as <- <-.
  destruct (_sort_graph_inv g order g1 Hcache Hs)
    as (G & ids & data & Hbuild & Hsort & Hget & -> & _).
  pose proof (build_graph_well_formed g G Hbuild) as Hwf.
  destruct (build_graph_spec g G Hbuild) as (Hnodes & Hedges & _).
  destruct (topsort_sound G ids Hwf Hsort) as (Hrun & Hndids & Hall & _).
  change (omap _ (IsExtract (extract g) :: ?l)) with (omap as_load l).
  rewrite omap_filter_as_load.
  assert (Hentry : ∀ k d, (k ∈ ids ∧ dict_get (g_nodes G) k = Some d) → (k, d) ∈ nodes_of g).
  { intros k d [_ Hd]. apply (dict_get_Some _ _ _ (proj1 Hwf)) in Hd.
    rewrite Hnodes in Hd. exact Hd. }
  assert (Hdata : ∀ d, d ∈ data → ∃ k, k ∈ ids ∧ dict_get (g_nodes G) k = Some d).
  { intros d Hd. apply list_elem_of_lookup in Hd as [j Hj].
    destruct (Forall2_lookup_r _ _ _ _ _ Hget Hj) as (k & Hk & Hkd).
    exists k. split; [apply list_elem_of_lookup; eauto|exact Hkd]. }
  assert (Hhash : node_hash <$> data = ids).
  { clear -Hget Hnodes Hwf. induction Hget as [|k d ids data Hkd _ IH]; [reflexivity|].
    cbn. f_equal; [|exact IH].
    apply (dict_get_Some _ _ _ (proj1 Hwf)) in Hkd. rewrite Hnodes in Hkd.
    symmetry. exact (proj2 (nodes_of_members g k d Hkd)). }
  split; [|split; [|split]].
  - intros l Hl. apply list_elem_of_omap in Hl as (d & Hd & Hdl).
    destruct d as [|?|l']; try discriminate. injection Hdl as ->.
    destruct (Hdata _ Hd) as (k & Hk). exact (nodes_of_as_load g k l (Hentry _ _ Hk)).
  - intros l Hl.
    assert (Hk : hash (load_node l) ∈ ids).
    { apply Hall. rewrite Hnodes. apply nodes_of_keys. apply list_elem_of_fmap.
      exists (IsLoad l). split; [reflexivity|].
      unfold all_nodes. apply elem_of_app. left. apply list_elem_of_fmap. eauto. }
    apply list_elem_of_lookup in Hk as [j Hj].
    destruct (Forall2_lookup_l _ _ _ _ _ Hget Hj) as (d & Hd & Hkd).
    pose proof (Hentry _ d (conj (proj2 (list_elem_of_lookup _ _) (ex_intro _ j Hj)) Hkd))
      as Hin.
    destruct (nodes_of_load g _ d l Hin Hl eq_refl) as (l' & -> & _ & Hl').
    exists l'. split; [|exact Hl'].
    apply list_elem_of_omap. exists (IsLoad l'). split; [|reflexivity].
    apply list_elem_of_lookup. eauto.
  - apply (sublist_NoDup _ (node_hash <$> data)); [|apply as_load_hashes].
    rewrite Hhash. exact Hndids.
  - intros l1 l l2 l0 Hls Hl0 Hcons.
    apply omap_app_cons_inv in Hls as (d1 & a & d2 & -> & Ha & <-).
    destruct a as [|?|l']; try discriminate. injection Ha as ->.
    apply Forall2_app_inv_r in Hget as (i1 & i2' & Hget1 & Hget2 & ->).
    apply Forall2_cons_inv_r in Hget2 as (v & i2 & Hv & _ & ->).
    apply (dict_get_Some _ _ _ (proj1 Hwf)) in Hv. rewrite Hnodes in Hv.
    destruct Hcons as (name & out & Hin).
    assert (Hedge : (hash (load_node l0), v) ∈ g_edges G) by (apply Hedges; eauto).
    apply predecessors_spec in Hedge.
    pose proof (lex_run_topological _ _ _ _ Hrun i1 v i2 eq_refl _ Hedge) as Hk.
    cbn in Hk. apply list_elem_of_lookup in Hk as [j Hj].
    destruct (Forall2_lookup_l _ _ _ _ _ Hget1 Hj) as (m & Hm & Hkm).
    apply (dict_get_Some _ _ _ (proj1 Hwf)) in Hkm. rewrite Hnodes in Hkm.
    destruct (nodes_of_load g _ m l0 Hkm Hl0 eq_refl) as (l' & -> & _ & Hl').
    exists l'. split; [|exact Hl'].
    apply list_elem_of_omap. exists (IsLoad l'). split; [|reflexivity].
    apply list_elem_of_lookup. eauto.
Qed.

(** *** Adding nodes to a valid generator *)

(** The transform or load that [add_node] appends, if it appends one. *)
Definition appended (node : added_node) : option ComputationalNode :=
  match node with
  | Node (IsTransform t) | FunctionNode t => Some (IsTransform t)
  | Node (IsLoad l) => Some (IsLoad l)
  | Node (IsExtract _) | UnknownNode => None
  end.

Lemma add_node_all_nodes g node n g' :
  appended node = Some n → add_node g node = Ok g' →
  ∀ x, x ∈ all_nodes g' ↔ x ∈ all_nodes g ∨ x = n.
Proof.
  intros Hn Hadd x. unfold all_nodes.
  destruct node as [[e|t|l]|t|]; cbn in Hn; try discriminate;
    injection Hn as <-; cbn in Hadd; injection Hadd as <-; cbn;
    rewrite ?fmap_app, !elem_of_app; cbn; rewrite ?list_elem_of_singleton; tauto.
Qed.

(** X25: adding a transform or a load to a generator that passes
    [validate_nodes] gives a generator that passes it again exactly when
    every [Arg] of the new node names the hash of a node already there, or
    the hash of the new node itself. *)
Theorem add_node_keeps_valid (g g' : Generator) (node : added_node)
    (n : ComputationalNode) :
  validate_nodes g = Ok () →
  appended node = Some n →
  add_node g node = Ok g' →
  (validate_nodes g' = Ok () ↔
   ∀ name key out, (name, Arg key out) ∈ inputs (data_of n) →
     key ∈ node_hash <$> all_nodes g ∨ key = node_hash n).
Proof.
  intros Hv Hn Hadd. pose proof (add_node_all_nodes g node n g' Hn Hadd) as Hall.
  assert (Hhash : ∀ k, k ∈ node_hash <$> all_nodes g' ↔
                       k ∈ node_hash <$> all_nodes g ∨ k = node_hash n).
  { intros k. rewrite !list_elem_of_fmap. split.
    - intros (x & -> & Hx). apply Hall in Hx as [Hx| ->]; [left; eauto|right; reflexivity].
    - intros [(x & -> & Hx)| ->].
      + exists x. split; [reflexivity|]. apply Hall. left. exact Hx.
      + exists n. split; [reflexivity|]. apply Hall. right. reflexivity. }
  pose proof (proj1 (validate_nodes_spec g) Hv) as Hold.
  rewrite validate_nodes_spec. split.
  - intros H name key out Hin. apply Hhash.
    apply (H n name key out); [apply Hall; right; reflexivity|exact Hin].
  - intros H x name key out Hx Hin. apply Hhash. apply Hall in Hx as [Hx| ->].
    + left. exact (Hold x name key out Hx Hin).
    + exact (H name key out Hin).
Qed.

(** *** Distinct hashes *)

Section dict_distinct.
Context {V : Type}.
Implicit Types (d : dict V) (k : string) (v : V).

Lemma dict_set_keeps d k v k' v' :
  (k', v') ∈ d → k' ≠ k → (k', v') ∈ dict_set d k v.
Proof.
  induction d as [|[k0 v0] d IH]; intros Hin Hne; [inversion Hin|]. cbn.
  apply elem_of_cons in Hin as [[= <- <-]|Hin].
  - rewrite decide_False by exact Hne. left.
  - destruct (decide (k0 = k)); right; [exact Hin|exact (IH Hin Hne)].
Qed.

Lemma dict_set_new d k v : (k, v) ∈ dict_set d k v.
Proof.
  induction d as [|[k0 v0] d IH]; cbn; [left|].
  destruct (decide (k0 = k)); [left|right; exact IH].
Qed.

Lemma dict_fold_keeps d d' k v :
  (k, v) ∈ d → k ∉ d'.*1 → (k, v) ∈ foldl (fun d kv => dict_set d kv.1 kv.2) d d'.
Proof.
  revert d. induction d' as [|[k0 v0] d' IH]; intros d Hin Hk; [exact Hin|].
  cbn in *. rewrite not_elem_of_cons in Hk. destruct Hk as [Hne Hk].
  apply IH; [|exact Hk]. apply dict_set_keeps; [exact Hin|exact Hne].
Qed.

Lemma dict_fold_new d d' k v :
  NoDup d'.*1 → (k, v) ∈ d' → (k, v) ∈ foldl (fun d kv => dict_set d kv.1 kv.2) d d'.
Proof.
  revert d. induction d' as [|[k0 v0] d' IH]; intros d Hnd Hin; [inversion Hin|].
  cbn in *. apply NoDup_cons in Hnd as [Hk0 Hnd].
  apply elem_of_cons in Hin as [[= -> ->]|Hin].
  - apply dict_fold_keeps; [apply dict_set_new|exact Hk0].
  - apply IH; assumption.
Qed.

Lemma dict_of_new (key : V → string) (l : list V) x :
  NoDup (key <$> l) → x ∈ l → (key x, x) ∈ dict_of key l.
Proof.
  unfold dict_of. generalize (@nil (string * V)).
  induction l as [|a l IH]; intros d Hnd Hx; [inversion Hx|].
  cbn in *. apply NoDup_cons in Hnd as [Ha Hnd].
  apply elem_of_cons in Hx as [->|Hx].
  - assert (Hgen : ∀ d0, (key a, a) ∈ d0 →
                     (key a, a) ∈ foldl (fun d x => dict_set d (key x) x) d0 l).
    { clear -Ha. induction l as [|b l IH]; intros d0 Hin; [exact Hin|]. cbn in *.
      rewrite not_elem_of_cons in Ha. destruct Ha as [Hne Ha].
      apply IH; [exact Ha|]. apply dict_set_keeps; [exact Hin|exact Hne]. }
    apply Hgen, dict_set_new.
  - apply IH; assumption.
Qed.

Lemma dict_of_NoDup (key : V → string) (l : list V) : NoDup (dict_of key l).*1.
Proof.
  unfold dict_of. assert (Hgen : ∀ d : dict V, NoDup d.*1 →
                            NoDup (foldl (fun d x => dict_set d (key x) x) d l).*1).
  { induction l as [|a l IH]; intros d Hnd; cbn; [exact Hnd|].
    apply IH, dict_set_NoDup, Hnd. }
  apply Hgen. constructor.
Qed.

End dict_distinct.

(** With distinct hashes every node of the generator is in the graph. *)
Lemma nodes_of_all g n :
  NoDup (node_hash <$> all_nodes g) → n ∈ all_nodes g → (node_hash n, n) ∈ nodes_of g.
Proof.
  unfold all_nodes, nodes_of, dict_update. rewrite !fmap_app.
  intros Hnd Hn.
  apply NoDup_app in Hnd as (Hl & Hdis1 & Hnd). apply NoDup_app in Hnd as (Ht & Hdis2 & _).
  assert (Hkl : NoDup (dict_of (fun n => hash (data_of n)) (IsLoad <$> loads g)).*1).
  { apply dict_of_NoDup. }
  assert (Hkt : NoDup (dict_of (fun n => hash (data_of n)) (IsTransform <$> transforms g)).*1).
  { apply dict_of_NoDup. }
  apply elem_of_app in Hn as [Hn|Hn].
  - apply dict_fold_new; [exact Hkl|]. exact (dict_of_new _ _ n Hl Hn).
  - assert (Hnl : node_hash n ∉ (dict_of (fun n => hash (data_of n)) (IsLoad <$> loads g)).*1).
    { rewrite dict_of_keys. intros Hin. apply (Hdis1 _ Hin).
      rewrite <- fmap_app. apply list_elem_of_fmap. exists n. split; [reflexivity|exact Hn]. }
    apply dict_fold_keeps; [|exact Hnl].
    apply elem_of_app in Hn as [Hn|Hn].
    + apply dict_fold_new; [exact Hkt|]. exact (dict_of_new _ _ n Ht Hn).
    + apply list_elem_of_singleton in Hn as ->.
      apply dict_fold_keeps; [left|].
      rewrite dict_of_keys. intros Hin. apply (Hdis2 _ Hin). cbn. left.
Qed.

(** X26: on a generator whose nodes have distinct hashes, [validate_nodes]
    passes exactly when the computational graph can be built. *)
Theorem validate_nodes_iff_graph (g : Generator) :
  NoDup (node_hash <$> all_nodes g) →
  (validate_nodes g = Ok () ↔ ∃ G, build_graph g = Ok G).
Proof.
  intros Hnd. split.
  - intros Hv. exact (build_graph_ok g (proj1 (validate_nodes_spec g) Hv)).
  - intros [G HG]. apply validate_nodes_spec. intros n name key out Hn Hin.
    destruct (build_graph_spec g G HG) as (_ & Hedges & Hclosed).
    apply nodes_of_keys. apply (Hclosed key (node_hash n)). apply Hedges.
    exists n, name, out. split; [exact (nodes_of_all g n Hnd Hn)|exact Hin].
Qed.

(** *** Sample generators *)

Lemma validated_generator_has_graph_witness :
  ∃ G, build_graph chain_gen = Ok G
    ∧ (∀ k, k ∈ (g_nodes G).*1 ↔ k ∈ node_hash <$> all_nodes chain_gen)
    ∧ (∀ u v, (u, v) ∈ g_edges G → u ∈ (g_nodes G).*1 ∧ v ∈ (g_nodes G).*1).
Proof.
  apply (validated_generator_has_graph chain_gen). vm_compute. reflexivity.
Defined.

Lemma chain_well_formed : well_formed chain_graph.
Proof.
  split; [apply (bool_decide_unpack _); vm_compute; exact I|].
  intros u v H. cbn in H.
  repeat (apply elem_of_cons in H as [[= -> ->]|H];
          [split; apply (bool_decide_unpack _); vm_compute; exact I|]).
  inversion H.
Qed.

(** Two nodes that consume each other. *)
Definition loop_graph : DiGraph :=
  {| g_nodes :=
       [ ("a", IsTransform {| transform_node := node "a" [("x", Arg "b" "out")] |});
         ("b", IsTransform {| transform_node := node "b" [("x", Arg "a" "out")] |}) ];
     g_edges := [("b", "a"); ("a", "b")] |}.

Lemma loop_well_formed : well_formed loop_graph.
Proof.
  split; [apply (bool_decide_unpack _); vm_compute; exact I|].
  intros u v H. cbn in H.
  repeat (apply elem_of_cons in H as [[= -> ->]|H];
          [split; apply (bool_decide_unpack _); vm_compute; exact I|]).
  inversion H.
Qed.

Lemma loop_cyclic : ¬ acyclic loop_graph.
Proof.
  intros [rank H].
  assert (H1 : rank "a" < rank "b") by (apply H; cbn; right; left).
  assert (H2 : rank "b" < rank "a") by (apply H; cbn; left).
  lia.
Qed.

Lemma topsort_with_dict_cycle_witness :
  (∃ ids, topsort_with_dict chain_graph = Ok ids)
  ∧ topsort_with_dict loop_graph = Raise ValueError.
Proof.
  split.
  - exact (proj1 (topsort_with_dict_cycle chain_graph chain_well_formed) chain_acyclic).
  - exact (proj1 (proj2 (topsort_with_dict_cycle loop_graph loop_well_formed)) loop_cyclic).
Defined.

Definition loop_gen : Generator :=
  {| name := "loop";
     extract := plain_extract;
     transforms :=
       [ {| transform_node := node "a" [("x", Arg "b" "out")] |};
         {| transform_node := node "b" [("x", Arg "a" "out")] |} ];
     loads := [];
     _graph := None |}.

Lemma sort_graph_failures_witness :
  (ValueError = DBgenMissingInfo
   ∧ ∃ n name key out,
       n ∈ all_nodes loop_gen ∧ (name, Arg key out) ∈ inputs (data_of n)
       ∧ key ∉ node_hash <$> all_nodes loop_gen)
  ∨ (ValueError = ValueError ∧ ∃ G, build_graph loop_gen = Ok G ∧ ¬ acyclic G).
Proof.
  apply (sort_graph_failures loop_gen ValueError).
  - reflexivity.
  - vm_compute. reflexivity.
Defined.

(** A child table loaded with a foreign key to its parent: the load of the
    child consumes the output of the load of the parent, although its hash
    comes first in the lexicographic order. *)
Definition load_parent : Load := {| load_node := node "l9" [("name", Arg "e0" "name")] |}.
Definition load_child : Load :=
  {| load_node := node "l1" [("parent_id", Arg "l9" "out"); ("age", Arg "e0" "age")] |}.

Definition family_gen : Generator :=
  {| name := "family"; extract := plain_extract; transforms := [];
     loads := [load_child; load_parent]; _graph := None |}.

Definition family_graph : DiGraph :=
  {| g_nodes := [ ("e0", IsExtract plain_extract); ("l1", IsLoad load_child);
                  ("l9", IsLoad load_parent) ];
     g_edges := [("l9", "l1"); ("e0", "l1"); ("e0", "l9")] |}.

Lemma sorted_loads_complete_witness :
  _sorted_loads family_gen
  = Ok ([load_parent; load_child], set_graph family_gen (Some family_graph))
  ∧ (∀ l0, l0 ∈ loads family_gen →
       consumes (IsLoad load_child) (hash (load_node l0)) →
       ∃ m, m ∈ [load_parent] ∧ hash (load_node m) = hash (load_node l0)).
Proof.
  assert (H : _sorted_loads family_gen
              = Ok ([load_parent; load_child], set_graph family_gen (Some family_graph)))
    by (vm_compute; reflexivity).
  split; [exact H|].
  destruct (sorted_loads_complete family_gen _ _ eq_refl H) as (_ & _ & _ & Horder).
  exact (fun l0 => Horder [load_parent] load_child [] l0 eq_refl).
Defined.

Example chain_loads :
  (fun r => match r with
            | Ok (ls, _) => Some ((fun l => hash (load_node l)) <$> ls)
            | Raise _ => None
            end) (_sorted_loads chain_gen) = Some ["l1"].
Proof. vm_compute. reflexivity. Qed.

(** One more load at the end of the chain. *)
Definition load_l2 : Load := {| load_node := node "l2" [("w", Arg "l1" "out")] |}.

Definition longer_chain : Generator :=
  {| name := "chain"; extract := extract chain_gen; transforms := transforms chain_gen;
     loads := loads chain_gen ++ [load_l2]; _graph := None |}.

Lemma add_node_keeps_valid_witness : validate_nodes longer_chain = Ok ().
Proof.
  apply (add_node_keeps_valid chain_gen longer_chain (Node (IsLoad load_l2))
           (IsLoad load_l2)).
  - vm_compute. reflexivity.
  - reflexivity.
  - reflexivity.
  - intros name key out Hin. cbn in Hin. apply list_elem_of_singleton in Hin.
    injection Hin as -> -> ->. left. apply (bool_decide_unpack _). vm_compute. exact I.
Defined.

Lemma validate_nodes_iff_graph_witness :
  validate_nodes chain_gen = Ok () ↔ ∃ G, build_graph chain_gen = Ok G.
Proof.
  apply (validate_nodes_iff_graph chain_gen).
  apply (bool_decide_unpack _). vm_compute. exact I.
Defined.

(** Two transforms with one hash: the graph holds the second only and can
    be built, yet validation refuses the first. *)
Definition shadowed_gen : Generator :=
  {| name := "shadowed"; extract := plain_extract;
     transforms := [ {| transform_node := node "t1" [("x", Arg "gone" "out")] |};
                     {| transform_node := node "t1" [] |} ];
     loads := []; _graph := None |}.

Example shadowed_node_not_in_graph :
  is_ok (build_graph shadowed_gen) = true
  ∧ validate_nodes shadowed_gen = Raise ValueError.
Proof. split; vm_compute; reflexivity. Qed.

End GenMore.

(* ===================================================================== *)
(** ** More on [run_gen] *)
(* ===================================================================== *)

Module RunGenMore.
Import QArith_base Qround Qreduction.
#[local] Close Scope Q_scope.
Import RunGen RunGenProps.

Section run_gen_more.
Context {value db : Type}.
Context (hash_ : string → string) (str : value → string)
        (safe_div : Q → nat → Q) (empty_row : value)
        (imap_unordered :
           (value * string → @M db unit) → list (value * string) → @M db unit).

#[local] Abbreviation state := (@state db).
#[local] Abbreviation M := (@M db).
#[local] Abbreviation Gen := (@Gen value db).
#[local] Abbreviation run_gen := (run_gen hash_ str safe_div empty_row imap_unordered).
#[local] Abbreviation select_inputs := (select_inputs hash_ str empty_row).
#[local] Abbreviation repeat_checking := (repeat_checking hash_ str).
#[local] Abbreviation hasher := (hasher hash_ str).

(** The rows the batch path starts from: the result of the query on the
    main database, or the single row [{}]. *)
Definition query_rows (gen : Gen) (s : state) : list value :=
  match query gen with
  | None => [empty_row]
  | Some q => q (main s)
  end.

(** What the run leaves in the [gens] row when it completes with [tot]
    inputs. *)
Definition completed (gen : Gen) (run_id : Z) (start finish : Q) (tot : nat)
    (s : state) : state :=
  let t := Qminus finish start in
  with_gens s
    (alter (set_stats (py_round (safe_div t tot) 2)
                      (py_round (Qdiv t (inject_Z 60)) 4) tot)
           (run_id, name gen)
           (alter (set_status "completed") (run_id, name gen) (gens s))).

(** *** Code that moves the state along a preorder *)

Definition steps {A} (R : relation state) (m : M A) : Prop :=
  ∀ s s' r, m s = (s', r) → R s s'.

Lemma steps_ret {A} R `{!Reflexive R} (a : A) : steps R (ret a).
Proof. intros s s' r [= <- _]. reflexivity. Qed.

Lemma steps_lift {A} R `{!Reflexive R} (x : result A) : steps R (lift x).
Proof. intros s s' r [= <- _]. reflexivity. Qed.

Lemma steps_get R `{!Reflexive R} : steps R get.
Proof. intros s s' r [= <- _]. reflexivity. Qed.

Lemma steps_raise {A} R `{!Reflexive R} e : steps R (@raise db A e).
Proof. intros s s' r [= <- _]. reflexivity. Qed.

Lemma steps_bind {A B} R `{!Transitive R} (m : M A) (k : A → M B) :
  steps R m → (∀ a, steps R (k a)) → steps R (bind m k).
Proof.
  intros Hm Hk s s' r. unfold bind. destruct (m s) as [s1 [a|e]] eqn:E.
  - intros H. transitivity s1; [exact (Hm _ _ _ E)|exact (Hk _ _ _ _ H)].
  - intros [= <- _]. exact (Hm _ _ _ E).
Qed.

Lemma steps_for_each {A} R `{!PreOrder R} (l : list A) (f : A → M unit) :
  (∀ x, steps R (f x)) → steps R (for_each l f).
Proof.
  intros Hf. induction l as [|x l IH]; cbn.
  - apply steps_ret; apply _.
  - apply steps_bind; [apply _|apply Hf|intros _; exact IH].
Qed.

Lemma steps_try {A} R `{!Transitive R} (body : M A) (handler : string → M A) :
  steps R body → (∀ msg, steps R (handler msg)) →
  steps R (try_except_ExternalError body handler).
Proof.
  intros Hb Hh s s' r. unfold try_except_ExternalError.
  destruct (body s) as [s1 [a|e]] eqn:E.
  - intros [= <- _]. exact (Hb _ _ _ E).
  - destruct e; try (intros [= <- _]; exact (Hb _ _ _ E)).
    intros H. transitivity s1; [exact (Hb _ _ _ E)|exact (Hh _ _ _ _ H)].
Qed.

Lemma steps_modify R (f : state → state) : (∀ s, R s (f s)) → steps R (modify f).
Proof. intros Hf s s' r [= <- _]. apply Hf. Qed.

(** Actions touch the main database only. *)
Lemma steps_actions R `{!PreOrder R} (acts : list (@Action value db)) d :
  (∀ s m, R s (with_main s m)) → steps R (run_actions acts d).
Proof.
  intros Hmain. apply steps_for_each; [apply _|]. intros a s s' r.
  destruct (act a d (main s)) as [m r'] eqn:E.
  intros [= <- _]. apply Hmain.
Qed.

(** [same field]: the field is left as it was. *)
Definition same {B} (field : state → B) : relation state :=
  fun s s' => field s' = field s.

#[local] Instance same_preorder {B} (field : state → B) : PreOrder (same field).
Proof.
  split.
  - intros s. reflexivity.
  - intros s1 s2 s3 H1 H2. unfold same in *. congruence.
Qed.

(** [grows]: no row of [repeats] is deleted or changed. *)
Definition grows : relation state :=
  fun s s' => ∀ k v, repeats s !! k = Some v → repeats s' !! k = Some v.

#[local] Instance grows_preorder : PreOrder grows.
Proof.
  split.
  - intros s k v H. exact H.
  - intros s1 s2 s3 H1 H2 k v H. apply H2, H1, H.
Qed.

Lemma same_grows s s' : same repeats s s' → grows s s'.
Proof. intros H k v. unfold same in H. rewrite H. auto. Qed.

Lemma steps_weaken {A} (R R' : relation state) (m : M A) :
  (∀ s s', R s s' → R' s s') → steps R m → steps R' m.
Proof. intros HR Hm s s' r H. apply HR, (Hm _ _ _ H). Qed.

Lemma steps_insert_repeat R `{!Reflexive R} a_id run_id hsh :
  (∀ s k v, repeats s !! k = None → R s (with_repeats s (<[k := v]> (repeats s)))) →
  steps R (insert_repeat a_id run_id hsh).
Proof.
  intros Hr. apply steps_modify. intros s.
  destruct (repeats s !! (a_id, hsh)) eqn:E; [reflexivity|apply Hr; exact E].
Qed.

Lemma steps_apply_and_act R `{!PreOrder R}
    (pbs : list (@PyBlock value)) (acts : list (@Action value db))
    row hsh a_id run_id :
  (∀ s m, R s (with_main s m)) →
  (∀ s k v, repeats s !! k = None → R s (with_repeats s (<[k := v]> (repeats s)))) →
  steps R (apply_and_act pbs acts row hsh a_id run_id).
Proof.
  intros Hm Hr.
  unfold apply_and_act. apply steps_bind; [apply _|apply steps_lift; apply _|]. intros d.
  apply steps_bind; [apply _| |intros _; apply steps_insert_repeat; [apply _|exact Hr]].
  apply steps_actions; [apply _|exact Hm].
Qed.

Lemma steps_repeat_checking R `{!PreOrder R} (gen : Gen) a_id inputs :
  (∀ s t, R s (with_temp s t)) →
  steps R (repeat_checking gen a_id inputs).
Proof.
  intros Ht. unfold RunGen.repeat_checking.
  apply steps_bind; [apply _|apply steps_modify; intros s; apply Ht|]. intros _.
  apply steps_bind; [apply _|apply steps_get; apply _|]. intros s0.
  apply steps_bind; [apply _|apply steps_lift; apply _|]. intros l.
  apply steps_bind; [apply _|apply steps_modify; intros s; apply Ht|]. intros _.
  apply steps_ret; apply _.
Qed.

Lemma steps_select_inputs R `{!PreOrder R} (gen : Gen) a_id retry' :
  (∀ s t, R s (with_temp s t)) →
  steps R (select_inputs gen a_id retry').
Proof.
  intros Ht. unfold RunGen.select_inputs.
  apply steps_bind; [apply _|apply steps_get; apply _|]. intros s0.
  destruct (match query gen with Some q => q (main s0) | None => [empty_row] end).
  - apply steps_ret; apply _.
  - destruct retry'; [apply steps_ret; apply _|apply steps_repeat_checking; [apply _|exact Ht]].
Qed.

Lemma steps_stream_body R `{!PreOrder R} (gen : Gen) a_id run_id retry' :
  (∀ s m, R s (with_main s m)) →
  steps R (stream_body hash_ str gen a_id run_id retry').
Proof.
  intros Hm. unfold stream_body. destruct (query gen) as [q|]; [|apply steps_raise; apply _].
  apply steps_bind; [apply _|apply steps_get; apply _|]. intros s0.
  apply steps_bind; [apply _| |intros _; apply steps_ret; apply _].
  apply steps_for_each; [apply _|]. intros row.
  apply steps_bind; [apply _|apply steps_get; apply _|]. intros s1.
  match goal with |- context [if ?c then _ else _] => destruct c end;
    [apply steps_ret; apply _|].
  apply steps_bind; [apply _|apply steps_lift; apply _|]. intros d.
  apply steps_actions; [apply _|exact Hm].
Qed.

(** The end of [run_gen]: the status and the statistics, or the failure,
    go to the [gens] row of the run. *)
Lemma steps_run_gen R `{!PreOrder R} (gen : Gen) (run_id : Z) (start finish : Q)
    (body : M (option nat)) :
  (∀ s f, R s (with_gens s (alter f (run_id, name gen) (gens s)))) →
  steps R body →
  steps R (try_except_ExternalError
    (bind body (fun tot =>
     bind (update_status gen run_id "completed") (fun _ =>
     let tot_time := Qminus finish start in
     let rate := py_round (Qdiv tot_time (inject_Z 60)) 4 in
     match tot with
     | None => raise UnboundLocalError
     | Some tot =>
         let runtime := py_round (safe_div tot_time tot) 2 in
         bind (update_stats gen run_id runtime rate tot) (fun _ =>
         ret 0%Z)
     end)))
    (fun msg =>
       bind (update_failed gen run_id msg) (fun _ => ret 1%Z))).
Proof.
  intros Hg Hbody. apply steps_try; [apply _| |].
  - apply steps_bind; [apply _|exact Hbody|]. intros tot.
    apply steps_bind; [apply _|apply steps_modify; intros s; apply Hg|]. intros _.
    cbn zeta. destruct tot as [tot|]; [|apply steps_raise; apply _].
    apply steps_bind; [apply _|apply steps_modify; intros s; apply Hg|]. intros _.
    apply steps_ret; apply _.
  - intros msg. apply steps_bind; [apply _|apply steps_modify; intros s; apply Hg|].
    intros _. apply steps_ret; apply _.
Qed.

Lemma steps_serial_run R `{!PreOrder R} (gen : Gen) run_id retry serial start finish :
  (∀ s m, R s (with_main s m)) →
  (∀ s t, R s (with_temp s t)) →
  (∀ s k v, repeats s !! k = None → R s (with_repeats s (<[k := v]> (repeats s)))) →
  (∀ s f, R s (with_gens s (alter f (run_id, name gen) (gens s)))) →
  parallel serial gen = false →
  steps R (run_gen gen run_id retry serial start finish).
Proof.
  intros Hm Ht Hr Hg Hpar. unfold RunGen.run_gen. rewrite Hpar.
  apply steps_run_gen; [apply _|exact Hg|].
  case_bool_decide; [apply steps_stream_body; [apply _|exact Hm]|].
  unfold batch_body.
  apply steps_bind; [apply _|apply steps_select_inputs; [apply _|exact Ht]|].
  intros inputs.
  apply steps_bind; [apply _| |intros _; apply steps_ret; apply _].
  apply steps_for_each; [apply _|]. intros x.
  apply steps_apply_and_act; [apply _|exact Hm|exact Hr].
Qed.

Lemma steps_stream_run R `{!PreOrder R} (gen : Gen) run_id retry serial start finish :
  (∀ s m, R s (with_main s m)) →
  (∀ s f, R s (with_gens s (alter f (run_id, name gen) (gens s)))) →
  "stream" ∈ tags gen →
  steps R (run_gen gen run_id retry serial start finish).
Proof.
  intros Hm Hg Hstream. unfold RunGen.run_gen.
  rewrite (bool_decide_eq_true_2 _ Hstream).
  apply steps_run_gen; [apply _|exact Hg|].
  apply steps_stream_body; [apply _|exact Hm].
Qed.

(** *** The repeat check *)

Lemma select_rows (a_id : Z) (rpt : gmap (Z * string) Z) (h : value → string)
    (all inputs : list value) (n : nat) :
  (∀ i x, inputs !! i = Some x → all !! (n + i) = Some x) →
  foldr (fun (ui : string * nat) acc =>
           rest ← acc;
           match all !! ui.2 with
           | Some x => Ok ((x, ui.1) :: rest)
           | None => Raise IndexError
           end) (Ok [])
        (filter (fun ui : string * nat => rpt !! (a_id, ui.1) = None)
                (imap (fun i x => (h x, n + i)) inputs))
  = Ok (filter (fun xh : value * string => rpt !! (a_id, xh.2) = None)
               ((fun x => (x, h x)) <$> inputs)).
Proof.
  revert n. induction inputs as [|x inputs IH]; intros n Hall; [reflexivity|].
  cbn [imap fmap list_fmap]. rewrite !filter_cons. cbn [fst snd].
  assert (Hrest : ∀ i y, inputs !! i = Some y → all !! (S n + i) = Some y).
  { intros i y Hi. replace (S n + i) with (n + S i) by lia. apply Hall. exact Hi. }
  specialize (IH (S n) Hrest).
  rewrite (imap_ext _ (fun i y => (h y, S n + i))); [|intros i y _; cbn; f_equal; lia].
  destruct (decide (rpt !! (a_id, h x) = None)) as [Hx|Hx].
  - cbn [foldr]. rewrite IH. cbn. rewrite (Hall 0 x eq_refl). reflexivity.
  - exact IH.
Qed.

Lemma repeat_checking_spec (gen : Gen) (a_id : Z) (inputs : list value) (s : state) :
  temp s = [] →
  repeat_checking gen a_id inputs s
  = (s, Ok (filter (fun xh : value * string => repeats s !! (a_id, xh.2) = None)
                   ((fun x => (x, hasher gen x)) <$> inputs))).
Proof.
  intros Ht. unfold RunGen.repeat_checking, bind, modify, get, lift, ret. cbn.
  rewrite Ht. cbn.
  pose proof (select_rows a_id (repeats s) (hasher gen) inputs inputs 0
                (fun i x Hi => Hi)) as Hsel.
  change (fun (i : nat) (x : value) => (hasher gen x, 0 + i))
    with (fun (i : nat) (x : value) => (hasher gen x, i)) in Hsel.
  rewrite Hsel. destruct s as [m g r t]. cbn in *. subst t. reflexivity.
Qed.

Lemma select_inputs_spec (gen : Gen) (a_id : Z) (retry' : bool) (s : state) :
  temp s = [] →
  select_inputs gen a_id retry' s
  = (s, Ok (if retry' then (fun x => (x, hasher gen x)) <$> query_rows gen s
            else filter (fun xh : value * string => repeats s !! (a_id, xh.2) = None)
                        ((fun x => (x, hasher gen x)) <$> query_rows gen s))).
Proof.
  intros Ht. unfold RunGen.select_inputs, query_rows, bind, get.
  destruct (match query gen with Some q => q (main s) | None => [empty_row] end)
    as [|x rows] eqn:E.
  - destruct retry'; reflexivity.
  - destruct retry'; [reflexivity|]. apply repeat_checking_spec. exact Ht.
Qed.

(** *** Runs that complete *)

Lemma serial_run (gen : Gen) run_id retry serial start finish
    (s s1 s2 : state) inputs :
  "stream" ∉ tags gen →
  parallel serial gen = false →
  select_inputs gen (get_id gen) (retry_ retry gen) s = (s1, Ok inputs) →
  for_each inputs (apply_serial gen (get_id gen) run_id) s1 = (s2, Ok tt) →
  run_gen gen run_id retry serial start finish s
  = (completed gen run_id start finish (length inputs) s2, Ok 0%Z).
Proof.
  intros Hstream Hpar Hsel Hfor. unfold RunGen.run_gen, try_except_ExternalError.
  rewrite (bool_decide_eq_false_2 _ Hstream), Hpar.
  unfold batch_body. unfold bind at 1 2 3. rewrite Hsel.
  unfold bind at 1. rewrite Hfor. reflexivity.
Qed.

Lemma serial_run_inv (gen : Gen) run_id retry serial start finish (s s' : state) :
  parallel serial gen = false →
  run_gen gen run_id retry serial start finish s = (s', Ok 0%Z) →
  ("stream" ∉ tags gen) ∧
  ∃ inputs s1 s2,
    select_inputs gen (get_id gen) (retry_ retry gen) s = (s1, Ok inputs)
    ∧ for_each inputs (apply_serial gen (get_id gen) run_id) s1 = (s2, Ok tt)
    ∧ s' = completed gen run_id start finish (length inputs) s2.
Proof.
  intros Hpar H.
  destruct (decide ("stream" ∈ tags gen)) as [Hs|Hs].
  { exfalso. exact (stream_run_never_returns_0 _ _ _ _ _ _ _ _ _ _ _ _ _ Hs H). }
  split; [exact Hs|].
  unfold RunGen.run_gen, try_except_ExternalError in H.
  rewrite (bool_decide_eq_false_2 _ Hs), Hpar in H.
  unfold batch_body in H. unfold bind at 1 2 3 in H.
  destruct (select_inputs gen (get_id gen) (retry_ retry gen) s)
    as [s1 [inputs|e]] eqn:Esel.
  2:{ destruct e; try discriminate; cbn in H; discriminate. }
  unfold bind at 1 in H.
  destruct (for_each inputs (apply_serial gen (get_id gen) run_id) s1)
    as [s2 [[]|e]] eqn:Efor.
  2:{ destruct e; try discriminate; cbn in H; discriminate. }
  cbn in H. injection H as <-. exists inputs, s1, s2. auto.
Qed.

(** A run with no input to process touches the [gens] row only. *)
Lemma idle_run (gen : Gen) run_id retry serial start finish (s : state) :
  "stream" ∉ tags gen →
  parallel serial gen = false →
  select_inputs gen (get_id gen) (retry_ retry gen) s = (s, Ok []) →
  run_gen gen run_id retry serial start finish s
  = (completed gen run_id start finish 0 s, Ok 0%Z).
Proof.
  intros Hstream Hpar Hsel.
  exact (serial_run gen run_id retry serial start finish s s s [] Hstream Hpar Hsel eq_refl).
Qed.

Lemma recorded_rows (gen : Gen) run_id retry serial start finish (s s' : state) :
  parallel serial gen = false →
  temp s = [] →
  run_gen gen run_id retry serial start finish s = (s', Ok 0%Z) →
  temp s' = [] ∧
  ∀ x, x ∈ query_rows gen s →
       is_Some (repeats s' !! (get_id gen, hasher gen x)).
Proof.
  intros Hpar Ht H.
  destruct (serial_run_inv _ _ _ _ _ _ _ _ Hpar H)
    as (Hstream & inputs & s1 & s2 & Hsel & Hfor & ->).
  rewrite (select_inputs_spec gen _ _ s Ht) in Hsel. injection Hsel as <- <-.
  split.
  - cbn.
    rewrite (steps_for_each (same temp) _ _
               (fun x => steps_apply_and_act (same temp) _ _ _ _ _ _
                           (fun _ _ => eq_refl) (fun _ _ _ _ => eq_refl)) _ _ _ Hfor).
    exact Ht.
  - intros x Hx. cbn.
    destruct (for_each_records _ _ _ _ _ _ Hfor) as [Hnew Hold].
    destruct (repeats s !! (get_id gen, hasher gen x)) as [v|] eqn:E.
    + apply Hold. rewrite E. eauto.
    + apply (Hnew (x, hasher gen x)).
      destruct (retry_ retry gen).
      * apply list_elem_of_fmap. eauto.
      * apply list_elem_of_filter. split; [exact E|]. apply list_elem_of_fmap. eauto.
Qed.

(** The run under which a uid is recorded once its row is processed: the
    run that recorded it first. *)
Definition recorded_run (s : state) (a_id run_id : Z) (hsh : string) : Z :=
  default run_id (repeats s !! (a_id, hsh)).

Lemma apply_and_act_recorded (pbs : list (@PyBlock value)) (acts : list (@Action value db))
    row hsh a_id run_id (s s' : state) :
  apply_and_act pbs acts row hsh a_id run_id s = (s', Ok tt) →
  repeats s' !! (a_id, hsh) = Some (recorded_run s a_id run_id hsh)
  ∧ ∀ k, k ≠ (a_id, hsh) → repeats s' !! k = repeats s !! k.
Proof.
  unfold apply_and_act, bind, lift, recorded_run.
  destruct (run_funcs pbs _) as [d|e']; [|discriminate].
  destruct (run_actions acts d s) as [s1 [[]|e1]] eqn:E; [|discriminate].
  apply keeps_repeats_actions in E. unfold insert_repeat, modify.
  intros [= <-]. rewrite <- E. destruct (repeats s1 !! (a_id, hsh)) as [v|] eqn:Er.
  - rewrite Er. auto.
  - cbn. rewrite lookup_insert_eq. split; [reflexivity|].
    intros k Hk. rewrite lookup_insert_ne by congruence. reflexivity.
Qed.

Lemma grows_insert (s : state) k v :
  repeats s !! k = None → grows s (with_repeats s (<[k := v]> (repeats s))).
Proof.
  intros Hnone k' v' Hk. cbn. rewrite lookup_insert_ne; [exact Hk|].
  intros <-. congruence.
Qed.

Lemma for_each_grows (gen : Gen) a_id run_id (l : list (value * string)) :
  steps grows (for_each l (apply_serial gen a_id run_id)).
Proof.
  apply steps_for_each; [apply _|]. intros x.
  apply steps_apply_and_act; [apply _| |exact grows_insert].
  intros s m k v Hk. exact Hk.
Qed.

Lemma for_each_recorded (gen : Gen) a_id run_id (pre : list (value * string))
    (s s' : state) :
  for_each pre (apply_serial gen a_id run_id) s = (s', Ok tt) →
  ∀ inp, inp ∈ pre →
    repeats s' !! (a_id, inp.2) = Some (recorded_run s a_id run_id inp.2).
Proof.
  revert s. induction pre as [|x pre IH]; intros s; cbn.
  - intros _ inp Hin. inversion Hin.
  - unfold bind at 1. destruct (apply_serial gen a_id run_id x s) as [s1 [[]|e]] eqn:E;
      [|discriminate].
    intros H inp Hin.
    pose proof (for_each_grows gen a_id run_id pre _ _ _ H) as Hgrow.
    apply apply_and_act_recorded in E as [Hx Hother].
    destruct (decide (inp.2 = x.2)) as [Heq|Hne].
    + rewrite Heq. apply Hgrow. exact Hx.
    + apply elem_of_cons in Hin as [->|Hin]; [contradiction|].
      rewrite (IH _ H inp Hin). unfold recorded_run.
      rewrite Hother by congruence. reflexivity.
Qed.

(** X1: with [temp] empty, the batch path selects rows of the query
    paired with their uid and leaves the databases as they were, [temp]
    empty again.  Under [retry_] the inputs are all the rows, in the order
    of the query.  Otherwise they are the rows whose uid has no row in
    [repeats] for this generator, each as often as the query returns it;
    nothing is said of their order, which is that of the database's answer
    to the repeat check. *)
Theorem select_inputs_skips_repeats (gen : Gen) (a_id : Z) (retry' : bool) (s : state) :
  temp s = [] →
  ∃ inputs,
    select_inputs gen a_id retry' s = (s, Ok inputs)
    ∧ if retry' then inputs = (fun x => (x, hasher gen x)) <$> query_rows gen s
      else inputs ≡ₚ
             filter (fun xh : value * string => repeats s !! (a_id, xh.2) = None)
                    ((fun x => (x, hasher gen x)) <$> query_rows gen s).
Proof.
  intros Ht. eexists. split; [exact (select_inputs_spec gen a_id retry' s Ht)|].
  destruct retry'; reflexivity.
Qed.

(** X2: a serial batch run whose query returns no row completes at once:
    it returns 0, and the only change is the [gens] row of the run, which
    gets status "completed" and [n_inputs] 0. *)
Theorem run_gen_no_rows (gen : Gen) run_id retry serial start finish (s : state) q :
  "stream" ∉ tags gen →
  parallel serial gen = false →
  query gen = Some q →
  q (main s) = [] →
  run_gen gen run_id retry serial start finish s
  = (completed gen run_id start finish 0 s, Ok 0%Z).
Proof.
  intros Hstream Hpar Hq Hrows. apply idle_run; [exact Hstream|exact Hpar|].
  unfold RunGen.select_inputs, bind, get. rewrite Hq, Hrows. reflexivity.
Qed.

(** X3: after a serial batch run that returned 0, every row of the query
    has its uid in [repeats] under the generator's id: under the run that
    recorded it before if the uid had a row already, retry or not (the
    insertion leaves an existing row alone), under this run otherwise. *)
Theorem completed_run_records_rows (gen : Gen) run_id retry serial start finish
    (s s' : state) :
  parallel serial gen = false →
  temp s = [] →
  run_gen gen run_id retry serial start finish s = (s', Ok 0%Z) →
  ∀ x, x ∈ query_rows gen s →
       repeats s' !! (get_id gen, hasher gen x)
       = Some (recorded_run s (get_id gen) run_id (hasher gen x)).
Proof.
  intros Hpar Ht H x Hx.
  destruct (serial_run_inv _ _ _ _ _ _ _ _ Hpar H)
    as (Hstream & inputs & s1 & s2 & Hsel & Hfor & ->).
  rewrite (select_inputs_spec gen _ _ s Ht) in Hsel. injection Hsel as <- <-. cbn.
  destruct (repeats s !! (get_id gen, hasher gen x)) as [v|] eqn:E.
  - unfold recorded_run. rewrite E. cbn.
    exact (for_each_grows gen _ run_id _ _ _ _ Hfor _ _ E).
  - apply (for_each_recorded gen _ run_id _ _ _ Hfor (x, hasher gen x)).
    destruct (retry_ retry gen).
    + apply list_elem_of_fmap. eauto.
    + apply list_elem_of_filter. split; [exact E|]. apply list_elem_of_fmap. eauto.
Qed.

(** X4: running a generator again is idle.  After a serial batch run that
    returned 0, a second run without retry of the same generator (not
    tagged "io") whose query returns the same rows processes no input: it
    returns 0 and changes nothing but its own [gens] row, where it records
    [n_inputs] 0. *)
Theorem run_gen_rerun_is_idle (gen : Gen) run_id run_id' retry serial
    start finish start' finish' (s s' : state) :
  "io" ∉ tags gen →
  parallel serial gen = false →
  temp s = [] →
  run_gen gen run_id retry serial start finish s = (s', Ok 0%Z) →
  query_rows gen s' = query_rows gen s →
  run_gen gen run_id' false serial start' finish' s'
  = (completed gen run_id' start' finish' 0 s', Ok 0%Z).
Proof.
  intros Hio Hpar Ht H Hrows.
  destruct (recorded_rows _ _ _ _ _ _ _ _ Hpar Ht H) as [Ht' Hrec].
  destruct (serial_run_inv _ _ _ _ _ _ _ _ Hpar H) as [Hstream _].
  apply idle_run; [exact Hstream|exact Hpar|].
  assert (Hr : retry_ false gen = false).
  { unfold retry_. rewrite (bool_decide_eq_false_2 _ Hio). reflexivity. }
  rewrite Hr, (select_inputs_spec gen _ _ s' Ht'). f_equal. f_equal.
  apply EntityProps.filter_is_nil. intros [x h] Hin Hfresh. cbn in Hfresh.
  apply list_elem_of_fmap in Hin as (y & [= -> ->] & Hy).
  rewrite Hrows in Hy. destruct (Hrec y Hy) as [v Hv]. congruence.
Qed.

(** X5: a serial run never deletes or changes a row of [repeats]: a uid
    recorded under some run stays recorded under that run, whatever the
    outcome of the run. *)
Theorem run_gen_keeps_repeats_rows (gen : Gen) run_id retry serial start finish
    (s s' : state) (r : result Z) :
  parallel serial gen = false →
  run_gen gen run_id retry serial start finish s = (s', r) →
  ∀ k v, repeats s !! k = Some v → repeats s' !! k = Some v.
Proof.
  intros Hpar H.
  refine (steps_serial_run grows gen run_id retry serial start finish _ _ _ _ Hpar _ _ _ H).
  - intros s0 m k v Hk. exact Hk.
  - intros s0 t k v Hk. exact Hk.
  - exact grows_insert.
  - intros s0 f k v Hk. exact Hk.
Qed.

(** X6: a serial run writes no row of [gens] but its own: the rows of
    other runs and of other generators are as they were, whatever the
    outcome. *)
Theorem run_gen_writes_own_gens_row (gen : Gen) run_id retry serial start finish
    (s s' : state) (r : result Z) :
  parallel serial gen = false →
  run_gen gen run_id retry serial start finish s = (s', r) →
  ∀ k, k ≠ (run_id, name gen) → gens s' !! k = gens s !! k.
Proof.
  intros Hpar H.
  set (R := fun s s' : state => ∀ k, k ≠ (run_id, name gen) → gens s' !! k = gens s !! k).
  assert (HR : PreOrder R).
  { split.
    - intros s0 k _. reflexivity.
    - intros s1 s2 s3 H1 H2 k Hk. rewrite (H2 k Hk). exact (H1 k Hk). }
  refine (steps_serial_run R gen run_id retry serial start finish _ _ _ _ Hpar _ _ _ H).
  - intros s0 m k _. reflexivity.
  - intros s0 t k _. reflexivity.
  - intros s0 k0 v0 _ k _. reflexivity.
  - intros s0 f k Hk. cbn. apply lookup_alter_ne. congruence.
Qed.

(** X7: a run of a generator tagged "stream" writes nothing to [repeats]
    or [temp], so that no row it loads is known as a repeat later, and it
    never returns 0. *)
Theorem stream_run_records_nothing (gen : Gen) run_id retry serial start finish
    (s s' : state) (r : result Z) :
  "stream" ∈ tags gen →
  run_gen gen run_id retry serial start finish s = (s', r) →
  repeats s' = repeats s ∧ temp s' = temp s ∧ r ≠ Ok 0%Z.
Proof.
  intros Hstream H. split; [|split].
  - refine (steps_stream_run (same repeats) gen run_id retry serial start finish
              _ _ Hstream _ _ _ H); intros; reflexivity.
  - refine (steps_stream_run (same temp) gen run_id retry serial start finish
              _ _ Hstream _ _ _ H); intros; reflexivity.
  - intros ->. exact (stream_run_never_returns_0 _ _ _ _ _ _ _ _ _ _ _ _ _ Hstream H).
Qed.

End run_gen_more.

(** *** The sample generator of [RunGenProps], run again *)

Definition no_rows_gen : @Gen Z (list Z) :=
  {| name := "g"; hash := "h"; tags := [];
     query := Some (fun _ => []);
     funcs := [times_ten None]; actions := [store]; get_id := 5%Z |}.

(** A state in which an earlier run, 3, has recorded row 1. *)
Definition earlier_state : @state (list Z) :=
  {| main := [10%Z];
     gens := {[ (7%Z, "g") := running; (3%Z, "g") := set_status "completed" running ]};
     repeats := {[ (5%Z, "h1") := 3%Z ]};
     temp := [] |}.

Definition idle (s : @state (list Z)) : @state (list Z) :=
  completed guarded_div (rows_gen [] None) 7%Z (inject_Z 0) (inject_Z 120) 0 s.

Lemma select_inputs_skips_repeats_witness :
  ∃ inputs,
    select_inputs (fun x => x) str_Z 0%Z (rows_gen [] None) 5%Z false after_first
    = (after_first, Ok inputs)
    ∧ inputs ≡ₚ [(2%Z, "h2"); (3%Z, "h3")].
Proof.
  destruct (select_inputs_skips_repeats (fun x => x) str_Z 0%Z
              (rows_gen [] None) 5%Z false after_first eq_refl)
    as (inputs & Hsel & Hperm).
  exists inputs. split; [exact Hsel|]. exact Hperm.
Defined.

Lemma run_gen_no_rows_witness :
  run no_rows_gen false true start_state
  = (completed guarded_div no_rows_gen 7%Z (inject_Z 0) (inject_Z 120) 0 start_state,
     Ok 0%Z).
Proof.
  apply (run_gen_no_rows (fun x => x) str_Z guarded_div 0%Z in_order no_rows_gen 7%Z
           false true (inject_Z 0) (inject_Z 120) start_state (fun _ => [])).
  - apply (bool_decide_unpack _). vm_compute. exact I.
  - reflexivity.
  - reflexivity.
  - reflexivity.
Defined.

Lemma completed_run_records_rows_witness :
  repeats completed_state !! (5%Z, "h2") = Some 7%Z.
Proof.
  apply (completed_run_records_rows (fun x => x) str_Z guarded_div 0%Z in_order
           (rows_gen [] None) 7%Z false true (inject_Z 0) (inject_Z 120)
           start_state completed_state eq_refl eq_refl completed_run 2%Z).
  apply (bool_decide_unpack _). vm_compute. exact I.
Defined.

(** A retry over a uid that run 3 recorded processes the row again and
    leaves it recorded under run 3. *)
Example retry_keeps_the_earlier_run :
  (run (rows_gen [] None) true true earlier_state).2 = Ok 0%Z
  ∧ main (run (rows_gen [] None) true true earlier_state).1 = [10; 10; 20; 30]%Z
  ∧ repeats (run (rows_gen [] None) true true earlier_state).1 !! (5%Z, "h1")
    = Some 3%Z.
Proof. repeat split; vm_compute; reflexivity. Qed.

Lemma run_gen_rerun_is_idle_witness :
  run (rows_gen [] None) false true completed_state = (idle completed_state, Ok 0%Z).
Proof.
  apply (run_gen_rerun_is_idle (fun x => x) str_Z guarded_div 0%Z in_order
           (rows_gen [] None) 7%Z 7%Z false true
           (inject_Z 0) (inject_Z 120) (inject_Z 0) (inject_Z 120)
           start_state completed_state).
  - apply (bool_decide_unpack _). vm_compute. exact I.
  - reflexivity.
  - reflexivity.
  - exact completed_run.
  - reflexivity.
Defined.

Lemma run_gen_keeps_repeats_rows_witness :
  repeats (run (rows_gen [] None) false true earlier_state).1 !! (5%Z, "h1") = Some 3%Z.
Proof.
  apply (run_gen_keeps_repeats_rows (fun x => x) str_Z guarded_div 0%Z in_order
           (rows_gen [] None) 7%Z false true (inject_Z 0) (inject_Z 120)
           earlier_state _ (run (rows_gen [] None) false true earlier_state).2
           eq_refl).
  - apply surjective_pairing.
  - reflexivity.
Defined.

Lemma run_gen_writes_own_gens_row_witness :
  gens (run (rows_gen [] None) false true earlier_state).1 !! (3%Z, "g")
  = Some (set_status "completed" running).
Proof.
  refine (eq_trans
            (run_gen_writes_own_gens_row (fun x => x) str_Z guarded_div 0%Z in_order
               (rows_gen [] None) 7%Z false true (inject_Z 0) (inject_Z 120)
               earlier_state _ (run (rows_gen [] None) false true earlier_state).2
               eq_refl _ (3%Z, "g") _) _).
  - apply surjective_pairing.
  - discriminate.
  - reflexivity.
Defined.

Lemma stream_run_records_nothing_witness :
  repeats (run (rows_gen ["stream"] None) false true start_state).1 = repeats start_state
  ∧ temp (run (rows_gen ["stream"] None) false true start_state).1 = temp start_state
  ∧ (run (rows_gen ["stream"] None) false true start_state).2 ≠ Ok 0%Z.
Proof.
  apply (stream_run_records_nothing (fun x => x) str_Z guarded_div 0%Z in_order
           (rows_gen ["stream"] None) 7%Z false true (inject_Z 0) (inject_Z 120)
           start_state).
  - apply (bool_decide_unpack _). vm_compute. exact I.
  - apply surjective_pairing.
Defined.

(** The second run loads nothing: the main database is as the first run
    left it. *)
Example rerun_loads_nothing :
  main (run (rows_gen [] None) false true completed_state).1 = [10; 20; 30]%Z.
Proof. vm_compute. reflexivity. Qed.

End RunGenMore.

(* ===================================================================== *)
(** ** More on serialization *)
(* ===================================================================== *)

Module SerialMore.
Import Serial SerialProps.
#[local] Set Warnings "-register-all".

(** *** Sequencing, read backwards *)

Lemma list_sequence_inv {A} (l : list (result A)) (l' : list A) :
  list_sequence l = Ok l' → l = Ok <$> l'.
Proof.
  revert l'. induction l as [|r l IH]; intros l'; cbn.
  - intros [= <-]. reflexivity.
  - fold (list_sequence l). destruct r as [a|e]; [|discriminate].
    destruct (list_sequence l) as [l0|e]; [|discriminate].
    intros [= <-]. cbn. f_equal. apply IH. reflexivity.
Qed.

Lemma map_sequence_inv {A} (m : gmap string (result A)) (m' : gmap string A) :
  map_sequence m = Ok m' → m = Ok <$> m'.
Proof.
  unfold map_sequence. revert m'.
  apply (map_fold_weak_ind (fun r m => ∀ m', r = Ok m' → m = Ok <$> m')).
  - intros m' [= <-]. rewrite fmap_empty. reflexivity.
  - intros i x m0 r Hi IH m'. destruct r as [m1|e]; [|discriminate].
    destruct x as [a|e]; [|discriminate].
    intros [= <-]. rewrite fmap_insert, (IH m1 eq_refl). reflexivity.
Qed.

Section serial_more.
Context {text : Type}.
Context (dumps : pyval → text) (loads : text → result pyval)
        (hash_ : text → string)
        (argspec : string → list string) (importable : string → bool).

#[local] Abbreviation to_dict := (to_dict dumps hash_ argspec).
#[local] Abbreviation from_dict := (from_dict argspec importable).
#[local] Abbreviation hash := (Serial.hash dumps hash_ argspec).

(** *** The output of [to_dict] *)

Lemma to_dict_json x : ∀ io j, to_dict x io = Ok j → json j.
Proof.
  induction x as [| | | | |l IH|l IH|l IH|d IH|T d IH] using pyval_induction;
    intros io j; cbn [Serial.to_dict]; try (intros [= <-]; constructor).
  - destruct (list_sequence _) as [l'|] eqn:E; cbn; [|discriminate].
    intros [= <-]. constructor. apply list_sequence_inv in E.
    apply Forall_forall. intros y Hy.
    assert (Hin : Ok y ∈ (fun v => to_dict v io) <$> l)
      by (rewrite E; apply list_elem_of_fmap; eauto).
    apply list_elem_of_fmap in Hin as (v & Hv & Hl).
    rewrite Forall_forall in IH. exact (IH v Hl io y (eq_sym Hv)).
  - destruct (list_sequence _) as [l'|] eqn:E; cbn; [|discriminate].
    intros [= <-]. constructor. apply list_sequence_inv in E.
    intros k y Hk. apply lookup_insert_Some in Hk as [[_ <-]|[_ Hk]]; [constructor|].
    apply lookup_singleton_Some in Hk as [_ <-]. constructor.
    apply Forall_forall. intros y Hy.
    assert (Hin : Ok y ∈ (fun v => to_dict v io) <$> l)
      by (rewrite E; apply list_elem_of_fmap; eauto).
    apply list_elem_of_fmap in Hin as (v & Hv & Hl).
    rewrite Forall_forall in IH. exact (IH v Hl io y (eq_sym Hv)).
  - destruct (list_sequence _) as [l'|] eqn:E; cbn; [|discriminate].
    intros [= <-]. constructor. apply list_sequence_inv in E.
    intros k y Hk. apply lookup_insert_Some in Hk as [[_ <-]|[_ Hk]]; [constructor|].
    apply lookup_singleton_Some in Hk as [_ <-]. constructor.
    apply Forall_forall. intros y Hy.
    assert (Hin : Ok y ∈ (fun v => to_dict v io) <$> l)
      by (rewrite E; apply list_elem_of_fmap; eauto).
    apply list_elem_of_fmap in Hin as (v & Hv & Hl).
    rewrite Forall_forall in IH. exact (IH v Hl io y (eq_sym Hv)).
  - destruct (map_sequence _) as [d'|] eqn:E; cbn; [|discriminate].
    intros [= <-]. constructor. apply map_sequence_inv in E.
    intros k y Hk.
    assert (Hin : ((fun v => to_dict v io) <$> d) !! k = Some (Ok y))
      by (rewrite E, lookup_fmap, Hk; reflexivity).
    rewrite lookup_fmap in Hin. destruct (d !! k) as [v|] eqn:Hv; [|discriminate].
    injection Hin as Hin. exact (IH k v Hv io y Hin).
  - destruct (map_sequence _) as [data|] eqn:E; cbn; [|discriminate].
    apply map_sequence_inv in E.
    assert (Hdata : map_Forall (fun _ => json) data).
    { intros k y Hk.
      assert (Hin : (Ok <$> data) !! k = Some (Ok y)) by (rewrite lookup_fmap, Hk; reflexivity).
      rewrite <- E in Hin. apply map_lookup_filter_Some in Hin as [Hin _].
      rewrite lookup_fmap in Hin. destruct (d !! k) as [v|] eqn:Hv; [|discriminate].
      injection Hin as Hin. exact (IH k v Hv io y Hin). }
    destruct io.
    + intros [= <-]. constructor. intros k y Hk.
      apply lookup_union_Some_raw in Hk as [Hk|[_ Hk]]; [exact (Hdata k y Hk)|].
      apply lookup_singleton_Some in Hk as [_ <-]. constructor.
    + destruct (hash_args _ data) as [args|]; cbn; [|discriminate].
      intros [= <-]. constructor. intros k y Hk.
      apply lookup_union_Some_raw in Hk as [Hk|[_ Hk]]; [exact (Hdata k y Hk)|].
      apply lookup_insert_Some in Hk as [[_ <-]|[_ Hk]]; [constructor|].
      apply lookup_singleton_Some in Hk as [_ <-]. constructor.
Qed.

Lemma to_dict_of_json j : json j → ∀ io, to_dict j io = Ok j.
Proof.
  induction j as [| | | | |l IH|l IH|l IH|d IH|T d IH] using pyval_induction;
    intros Hj io; inversion Hj; subst; cbn [Serial.to_dict]; try reflexivity.
  - rewrite (list_fmap_Ok (fun v => to_dict v io) (fun x => x)).
    + rewrite list_fmap_id, list_sequence_Ok. reflexivity.
    + apply Forall_forall. intros x Hx.
      rewrite Forall_forall in IH. apply IH; [exact Hx|].
      match goal with H : Forall json _ |- _ => rewrite Forall_forall in H; exact (H x Hx) end.
  - rewrite (map_fmap_Ok (fun v => to_dict v io) (fun x => x)).
    + rewrite map_fmap_id, map_sequence_Ok. reflexivity.
    + intros k x Hk. apply (IH k x Hk).
      match goal with H : map_Forall _ _ |- _ => exact (H k x Hk) end.
Qed.

(** X19: what [to_dict] returns is made of the JSON types only (no tuple,
    no set, no object is left in it), and serializing it again, with
    either value of [id_only], returns it unchanged. *)
Theorem to_dict_idempotent (x j : pyval) (id_only : bool) :
  to_dict x id_only = Ok j →
  json j ∧ ∀ id_only', to_dict j id_only' = Ok j.
Proof.
  intros H. pose proof (to_dict_json x id_only j H) as Hj.
  split; [exact Hj|]. exact (to_dict_of_json j Hj).
Qed.

(** *** What the hash depends on *)

Lemma hash_args_ext kw (d1 d2 : gmap string pyval) :
  (∀ k, k ∈ kw → d1 !! k = d2 !! k) → hash_args kw d1 = hash_args kw d2.
Proof.
  induction kw as [|a kw IH]; intros H; [reflexivity|]. cbn.
  unfold hash_args in IH. rewrite IH by (intros k Hk; apply H; right; exact Hk).
  rewrite (H a) by left. reflexivity.
Qed.

(** The serialized attributes of an object, at a constructor argument and
    at a private name that is no argument. *)
Lemma object_data T (vars data : gmap string pyval) (io : bool) :
  map_sequence
    (filter (fun kv : string * result pyval =>
               kv.1 ∈ argspec T ∨ (io = false ∧ private kv.1 = false))
            ((fun v => to_dict v io) <$> vars)) = Ok data →
  (∀ k, k ∈ argspec T → Ok <$> data !! k = (fun v => to_dict v io) <$> vars !! k)
  ∧ (∀ k, k ∉ argspec T → private k = true → data !! k = None).
Proof.
  intros H. apply map_sequence_inv in H. split.
  - intros k Hk. rewrite <- !lookup_fmap, <- H.
    rewrite (filter_key_lookup _ (k ∈ argspec T ∨ (io = false ∧ private k = false)))
      by (intros; reflexivity).
    rewrite decide_True by (left; exact Hk). reflexivity.
  - intros k Hk Hp.
    assert (Hn : (Ok <$> data) !! k = None).
    { rewrite <- H.
      rewrite (filter_key_lookup _ (k ∈ argspec T ∨ (io = false ∧ private k = false)))
        by (intros; reflexivity).
      rewrite decide_False; [reflexivity|]. intros [?|[_ Hpub]]; [contradiction|congruence]. }
    rewrite lookup_fmap in Hn. destruct (data !! k); [discriminate|reflexivity].
Qed.

Lemma hash_of_object T vars h :
  hash (PObj T vars) = Ok h →
  ∃ data args,
    map_sequence
      (filter (fun kv : string * result pyval =>
                 kv.1 ∈ argspec T ∨ (false = false ∧ private kv.1 = false))
              ((fun v => to_dict v false) <$> vars)) = Ok data
    ∧ hash_args (argspec T) data = Ok args
    ∧ h = default (PStr (hash_ (dumps (PDict (args ∪ {[ "_pytype" := PStr T ]})))))
                  (data !! "_uid").
Proof.
  unfold Serial.hash. cbn [Serial.to_dict].
  destruct (map_sequence _) as [data|] eqn:E; cbn; [|discriminate].
  destruct (hash_args _ data) as [args|] eqn:Ea; cbn; [|discriminate].
  rewrite lookup_union.
  rewrite lookup_insert_ne by discriminate. rewrite lookup_singleton_eq.
  intros H. exists data, args. split; [reflexivity|]. split; [exact Ea|].
  destruct (data !! "_uid"); cbn in *; congruence.
Qed.

(** X20: the hash of an object depends on its class and on the attributes
    that are constructor arguments only: two objects of one class that
    agree on them have the same hash, whatever else they hold. *)
Theorem hash_depends_on_args_only (T : string) (vars1 vars2 : gmap string pyval)
    (h1 h2 : pyval) :
  (∀ a, a ∈ argspec T → vars1 !! a = vars2 !! a) →
  hash (PObj T vars1) = Ok h1 →
  hash (PObj T vars2) = Ok h2 →
  h1 = h2.
Proof.
  intros Hargs H1 H2.
  apply hash_of_object in H1 as (d1 & a1 & E1 & Ea1 & ->).
  apply hash_of_object in H2 as (d2 & a2 & E2 & Ea2 & ->).
  destruct (object_data T vars1 d1 false E1) as [Hk1 Hp1].
  destruct (object_data T vars2 d2 false E2) as [Hk2 Hp2].
  assert (Hsame : ∀ k, k ∈ argspec T → d1 !! k = d2 !! k).
  { intros k Hk. specialize (Hk1 k Hk). specialize (Hk2 k Hk).
    rewrite (Hargs k Hk), <- Hk2 in Hk1.
    destruct (d1 !! k), (d2 !! k); cbn in Hk1; congruence. }
  rewrite (hash_args_ext _ d1 d2 Hsame), Ea2 in Ea1. injection Ea1 as <-.
  destruct (decide ("_uid" ∈ argspec T)) as [Hu|Hu].
  - rewrite (Hsame _ Hu). reflexivity.
  - rewrite (Hp1 _ Hu eq_refl), (Hp2 _ Hu eq_refl). reflexivity.
Qed.

(** *** Data *)

(** Values of the JSON types in which no dictionary has the key "_pytype"
    or the key "_ptype". *)
Inductive untagged : pyval → Prop :=
| untagged_none : untagged PNone
| untagged_bool b : untagged (PBool b)
| untagged_int z : untagged (PInt z)
| untagged_float z : untagged (PFloat z)
| untagged_str s : untagged (PStr s)
| untagged_list l : Forall untagged l → untagged (PList l)
| untagged_dict d :
    d !! "_pytype" = None → d !! "_ptype" = None →
    map_Forall (fun _ => untagged) d → untagged (PDict d).

(** X21: data made of the JSON types, without the reserved keys, goes
    through [to_dict] and [from_dict] unchanged. *)
Theorem data_round_trip (j : pyval) (id_only : bool) :
  untagged j →
  to_dict j id_only = Ok j ∧ from_dict j = Ok j.
Proof.
  induction j as [| | | | |l IH|l IH|l IH|d IH|T d IH] using pyval_induction;
    intros Hj; inversion Hj; subst; cbn [Serial.to_dict Serial.from_dict];
    try (split; reflexivity).
  - assert (Hall : Forall (fun v => to_dict v id_only = Ok v ∧ from_dict v = Ok v) l)
      by (rewrite Forall_forall in *; auto).
    rewrite (list_fmap_Ok (fun v => to_dict v id_only) (fun x => x)),
            (list_fmap_Ok from_dict (fun x => x)).
    + rewrite list_fmap_id, list_sequence_Ok. split; reflexivity.
    + eapply Forall_impl; [exact Hall|]. intros v [_ H]. exact H.
    + eapply Forall_impl; [exact Hall|]. intros v [H _]. exact H.
  - assert (Hall : map_Forall (fun _ v => to_dict v id_only = Ok v ∧ from_dict v = Ok v) d)
      by (intros k v Hk; apply (IH k v Hk); eauto).
    match goal with H : d !! "_pytype" = None |- _ => rewrite H end.
    cbn. rewrite bool_decide_eq_false_2.
    2:{ match goal with H : d !! "_ptype" = None |- _ => rewrite H end.
        intros [? ?]; discriminate. }
    rewrite (map_fmap_Ok (fun v => to_dict v id_only) (fun x => x)),
            (map_fmap_Ok from_dict (fun x => x)).
    + rewrite map_fmap_id, map_sequence_Ok. split; reflexivity.
    + intros k v Hk. exact (proj2 (Hall k v Hk)).
    + intros k v Hk. exact (proj1 (Hall k v Hk)).
Qed.

(** X22: a tuple or a set is not restored by the round trip: [to_dict]
    tags it "builtins.tuple" or "builtins.set", [from_dict] knows neither
    tag, and what comes back is a dictionary. *)
Theorem containers_come_back_as_dict (x j r : pyval) (l : list pyval) (id_only : bool) :
  x = PTuple l ∨ x = PSet l →
  to_dict x id_only = Ok j →
  from_dict j = Ok r →
  ∃ d, r = PDict d ∧ is_Some (d !! "_pytype") ∧ is_Some (d !! "_value").
Proof.
  intros Hx Hto Hfrom.
  assert (Hj : ∃ tag l',
             j = PDict {[ "_pytype" := PStr tag; "_value" := PList l' ]}
             ∧ (tag = "builtins.tuple" ∨ tag = "builtins.set")).
  { destruct Hx as [-> | ->]; cbn [Serial.to_dict] in Hto;
      destruct (list_sequence _) as [l'|]; cbn in Hto; try discriminate;
      injection Hto as <-; eauto 6. }
  destruct Hj as (tag & l' & -> & Htag).
  cbn [Serial.from_dict] in Hfrom. rewrite lookup_insert_eq in Hfrom.
  cbn [default from_option id dbgen_in is_str] in Hfrom.
  assert (Hc : contains "dbgen" tag = false) by (destruct Htag as [-> | ->]; reflexivity).
  assert (Ht : String.eqb "builtins/tuple" tag = false)
    by (destruct Htag as [-> | ->]; reflexivity).
  assert (Hs : String.eqb "builtins/set" tag = false)
    by (destruct Htag as [-> | ->]; reflexivity).
  rewrite Hc, Ht, Hs in Hfrom.
  rewrite bool_decide_eq_false_2 in Hfrom.
  2:{ rewrite lookup_insert_ne by discriminate.
      rewrite lookup_singleton_ne by discriminate. intros [? ?]; discriminate. }
  destruct (map_sequence _) as [d'|] eqn:E; cbn in Hfrom; [|discriminate].
  injection Hfrom as <-. exists d'. split; [reflexivity|].
  apply map_sequence_inv in E.
  assert (Hk : ∀ k, is_Some (({[ "_pytype" := PStr tag; "_value" := PList l' ]}
                               : gmap string pyval) !! k) → is_Some (d' !! k)).
  { intros k [v Hv].
    assert (Hin : is_Some ((Ok <$> d') !! k))
      by (rewrite <- E, lookup_fmap, Hv; cbn; eauto).
    rewrite lookup_fmap in Hin. destruct (d' !! k); [eauto|].
    destruct Hin as [? Hin]. discriminate. }
  split; apply Hk.
  - rewrite lookup_insert_eq. eauto.
  - rewrite lookup_insert_ne by discriminate. rewrite lookup_singleton_eq. eauto.
Qed.

End serial_more.
(** *** Sample values *)

Definition tagged (tag : string) (l : list pyval) : pyval :=
  PDict {[ "_pytype" := PStr tag; "_value" := PList l ]}.

Lemma to_dict_idempotent_witness :
  json (tagged "builtins.tuple" [PInt 1])
  ∧ ∀ id_only',
      to_dict (fun j => j) uid_of const_argspec (tagged "builtins.tuple" [PInt 1]) id_only'
      = Ok (tagged "builtins.tuple" [PInt 1]).
Proof.
  apply (to_dict_idempotent (fun j => j) uid_of const_argspec (PTuple [PInt 1]) _ false).
  vm_compute. reflexivity.
Defined.

(** Two constants with the same value; the second carries a note and a
    private cache. *)
Definition noted_obj : pyval :=
  PObj "dbgen.core.Const"
       {[ "val" := PInt 1; "note" := PStr "checked"; "_cache" := PInt 7 ]}.

Lemma hash_depends_on_args_only_witness :
  ∃ h1 h2,
    Serial.hash (fun j => j) uid_of const_argspec (const_obj (PInt 1)) = Ok h1
    ∧ Serial.hash (fun j => j) uid_of const_argspec noted_obj = Ok h2
    ∧ h1 = h2.
Proof.
  eexists _, _. split; [vm_compute; reflexivity|]. split; [vm_compute; reflexivity|].
  apply (hash_depends_on_args_only (fun j => j) uid_of const_argspec
           "dbgen.core.Const" {[ "val" := PInt 1 ]}
           {[ "val" := PInt 1; "note" := PStr "checked"; "_cache" := PInt 7 ]}).
  - intros a Ha. apply list_elem_of_singleton in Ha as ->. reflexivity.
  - vm_compute. reflexivity.
  - vm_compute. reflexivity.
Defined.

Definition sample_data : pyval :=
  PDict {[ "sizes" := PList [PInt 1; PNone]; "name" := PStr "a" ]}.

Lemma sample_data_untagged : untagged sample_data.
Proof.
  apply untagged_dict; [reflexivity|reflexivity|].
  intros k v Hk. apply lookup_insert_Some in Hk as [[_ <-]|[_ Hk]].
  - repeat constructor.
  - apply lookup_singleton_Some in Hk as [_ <-]. constructor.
Qed.

Lemma data_round_trip_witness :
  to_dict (fun j => j) uid_of const_argspec sample_data true = Ok sample_data
  ∧ from_dict const_argspec const_importable sample_data = Ok sample_data.
Proof.
  exact (data_round_trip (fun j => j) uid_of const_argspec const_importable
           sample_data true sample_data_untagged).
Defined.

Lemma containers_come_back_as_dict_witness :
  ∃ d, tagged "builtins.set" [PInt 1] = PDict d
       ∧ is_Some (d !! "_pytype") ∧ is_Some (d !! "_value").
Proof.
  apply (containers_come_back_as_dict (fun j => j) uid_of const_argspec const_importable
           (PSet [PInt 1]) (tagged "builtins.set" [PInt 1]) _ [PInt 1] false).
  - right. reflexivity.
  - vm_compute. reflexivity.
  - vm_compute. reflexivity.
Defined.

End SerialMore.

(* ===================================================================== *)
(** ** Properties of [dbgen/core/expr/sqltypes.py] *)
(* ===================================================================== *)

Module SqlTypesProps.
Import Stdlib.Strings.Ascii.
Import SqlTypes.

(** *** Strings *)

Definition chars (s : string) : list ascii := String.list_ascii_of_string s.

Lemma chars_app s1 s2 : chars (s1 +:+ s2) = chars s1 ++ chars s2.
Proof.
  unfold chars. induction s1 as [|c s1 IH]; [reflexivity|].
  change (String c s1 +:+ s2) with (String c (s1 +:+ s2)). cbn. f_equal. exact IH.
Qed.

(** A substring starts with its first character. *)
Lemma contains_first a sub s :
  Serial.contains (String a sub) s = true → a ∈ chars s.
Proof.
  induction s as [|c s IH]; cbn.
  - discriminate.
  - destruct (ascii_dec a c) as [->|Hne].
    + intros _. left.
    + cbn. intros H. right. apply IH. exact H.
Qed.

Lemma split_piece delims piece c rest :
  (∀ x, x ∈ chars piece → x ∉ delims) → c ∈ delims →
  split delims (piece +:+ String c rest) = piece :: split delims rest.
Proof.
  intros Hp Hc. induction piece as [|x piece IH].
  - change ("" +:+ String c rest) with (String c rest). cbn [split].
    rewrite bool_decide_eq_true_2 by exact Hc. reflexivity.
  - change (String x piece +:+ String c rest) with (String x (piece +:+ String c rest)).
    cbn [split]. rewrite bool_decide_eq_false_2 by (apply Hp; left).
    rewrite IH by (intros y Hy; apply Hp; right; exact Hy). reflexivity.
Qed.

Lemma split_last delims piece :
  (∀ x, x ∈ chars piece → x ∉ delims) → split delims piece = [piece].
Proof.
  intros Hp. induction piece as [|x piece IH]; cbn [split]; [reflexivity|].
  rewrite bool_decide_eq_false_2 by (apply Hp; left).
  rewrite IH by (intros y Hy; apply Hp; right; exact Hy). reflexivity.
Qed.

(** The characters of a decimal numeral. *)
Definition numeral (s : string) : Prop :=
  ∀ c, c ∈ chars s → c ∈ chars "-0123456789".

Section sqltypes_facts.
Context (int : string → result Z) (fmt_d : Z → string).

(** What is assumed of the builtins: ["%d" % n] writes a decimal numeral,
    and [int] reads it back. *)
Hypothesis fmt_d_numeral : ∀ n, numeral (fmt_d n).
Hypothesis int_fmt_d : ∀ n, int (fmt_d n) = Ok n.

#[local] Abbreviation __str__ := (__str__ fmt_d).
#[local] Abbreviation from_str := (from_str int).

Lemma numeral_not (n : Z) (c : ascii) :
  c ∉ chars "-0123456789" → c ∉ chars (fmt_d n).
Proof. intros Hc Hin. exact (Hc (fmt_d_numeral n c Hin)). Qed.

Ltac not_numeral :=
  apply numeral_not; apply (bool_decide_unpack _); vm_compute; exact I.

Ltac each_delimiter :=
  let x := fresh "x" in
  let Hx := fresh "Hx" in
  intros x Hx;
  repeat (apply elem_of_cons in Hx as [->|Hx];
          [apply (bool_decide_unpack _); vm_compute; exact I|]);
  inversion Hx.

Lemma no_delimiter (n : Z) (delims : list ascii) :
  (∀ x, x ∈ delims → x ∉ chars "-0123456789") →
  ∀ x, x ∈ chars (fmt_d n) → x ∉ delims.
Proof. intros Hd x Hx Hin. exact (Hd x Hin (fmt_d_numeral n x Hx)). Qed.

Lemma Varchar_restored mem : from_str ("VARCHAR(" +:+ fmt_d mem +:+ ")") = Ok (Varchar mem).
Proof.
  unfold SqlTypes.from_str.
  replace (Serial.contains "VARCHAR" ("VARCHAR(" +:+ fmt_d mem +:+ ")")) with true
    by reflexivity.
  change ("VARCHAR(" +:+ fmt_d mem +:+ ")")
    with ("VARCHAR" +:+ String "(" (fmt_d mem +:+ String ")" "")).
  rewrite split_piece.
  - rewrite split_piece.
    + cbn. rewrite int_fmt_d. reflexivity.
    + apply no_delimiter. each_delimiter.
    + right. left.
  - each_delimiter.
  - left.
Qed.

Lemma Decimal_restored prec scale :
  from_str ("DECIMAL(" +:+ fmt_d prec +:+ "," +:+ fmt_d scale +:+ ")")
  = Ok (Decimal prec scale).
Proof.
  unfold SqlTypes.from_str.
  assert (Hv : Serial.contains "VARCHAR"
                 ("DECIMAL(" +:+ fmt_d prec +:+ "," +:+ fmt_d scale +:+ ")") = false).
  { apply not_true_is_false. intros H. apply contains_first in H.
    rewrite !chars_app in H. rewrite !elem_of_app in H.
    destruct H as [H|[H|[H|[H|H]]]].
    - revert H. apply (bool_decide_unpack _). vm_compute. exact I.
    - revert H. not_numeral.
    - revert H. apply (bool_decide_unpack _). vm_compute. exact I.
    - revert H. not_numeral.
    - revert H. apply (bool_decide_unpack _). vm_compute. exact I. }
  rewrite Hv.
  replace (Serial.contains "DECIMAL"
             ("DECIMAL(" +:+ fmt_d prec +:+ "," +:+ fmt_d scale +:+ ")")) with true
    by reflexivity.
  change ("DECIMAL(" +:+ fmt_d prec +:+ "," +:+ fmt_d scale +:+ ")")
    with ("DECIMAL" +:+ String "("
            (fmt_d prec +:+ String "," (fmt_d scale +:+ String ")" ""))).
  assert (Hd : ∀ x, x ∈ ["("; ")"; ","]%char → x ∉ chars "-0123456789")
    by each_delimiter.
  rewrite split_piece.
  - rewrite split_piece.
    + rewrite split_piece.
      * cbn. rewrite !int_fmt_d. reflexivity.
      * apply no_delimiter. exact Hd.
      * right. left.
    + apply no_delimiter. exact Hd.
    + right. right. left.
  - each_delimiter.
  - left.
Qed.

(** X23: what [from_str] makes of the string of a type.  [Varchar] and
    [Decimal] come back as they were, and so do the kinds "medium" and
    "big" of [Int], with their sign; an [Int] of kind "small" comes back as
    "medium"; a [Text] loses its kind; the other types are not parsed. *)
Theorem from_str_of_str (t : SQLType) :
  (∀ kind signed, t = Int kind signed → kind ∈ ["small"; "medium"; "big"]) →
  (s ← __str__ t; from_str s)
  = match t with
    | Varchar _ | Decimal _ _ => Ok t
    | Int kind signed =>
        Ok (Int (if decide (kind = "small") then "medium" else kind) signed)
    | Text _ => Ok (Text "")
    | _ => Raise NotImplementedError
    end.
Proof.
  intros Hkind. destruct t as [mem|prec scale| |kind signed|kind| | | | |];
    try (vm_compute; reflexivity).
  - apply Varchar_restored.
  - apply Decimal_restored.
  - specialize (Hkind kind signed eq_refl).
    repeat (apply elem_of_cons in Hkind as [->|Hkind];
            [destruct signed; vm_compute; reflexivity|]).
    inversion Hkind.
Qed.

(** X24: an [Int] that [from_str] returns is of kind "medium" or "big",
    never "small"; and a string that names a tiny integer is refused by
    the constructor of [Int]. *)
Theorem from_str_Int_kinds (s : string) :
  (∀ kind signed, from_str s = Ok (Int kind signed) →
     (kind = "medium" ∨ kind = "big")
     ∧ signed = negb (Serial.contains "UNSIGNED" s))
  ∧ (Serial.contains "VARCHAR" s = false → Serial.contains "DECIMAL" s = false →
     Serial.contains "INT" s = true → Serial.contains "TINY" s = true →
     from_str s = Raise AssertionError).
Proof.
  split.
  - intros kind signed. unfold SqlTypes.from_str.
    destruct (Serial.contains "VARCHAR" s).
    { destruct (split _ s !! 1); [|discriminate].
      destruct (int s0); cbn; discriminate. }
    destruct (Serial.contains "DECIMAL" s).
    { destruct (take 2 _) as [|p [|sc [|]]]; try discriminate.
      destruct (int p); cbn; [|discriminate]. destruct (int sc); cbn; discriminate. }
    destruct (Serial.contains "INT" s).
    + destruct (Serial.contains "TINY" s); [discriminate|].
      destruct (Serial.contains "BIG" s); cbn; intros [= <- <-]; auto.
    + destruct (Serial.contains "TEXT" s); discriminate.
  - intros Hv Hd Hi Ht. unfold SqlTypes.from_str. rewrite Hv, Hd, Hi, Ht. reflexivity.
Qed.

End sqltypes_facts.

(** *** Decimal numerals *)

(** The numeral ["%d"] writes, and a reader of such numerals. *)
Definition decimal (n : Z) : string :=
  DecimalString.NilZero.string_of_int (Z.to_int n).

Definition read_decimal (s : string) : result Z :=
  match DecimalString.NilZero.int_of_string s with
  | Some d => Ok (Z.of_int d)
  | None => Raise ValueError
  end.

Lemma read_decimal_decimal n : read_decimal (decimal n) = Ok n.
Proof.
  unfold read_decimal, decimal. rewrite DecimalString.NilZero.isi.
  - rewrite DecimalZ.of_to. reflexivity.
  - destruct n as [|p|p]; cbn; try discriminate.
    intros [= H]. exact (DecimalPos.Unsigned.to_uint_nonnil p H).
  - destruct n as [|p|p]; cbn; try discriminate.
    intros [= H]. exact (DecimalPos.Unsigned.to_uint_nonnil p H).
Qed.

Lemma digits_numeral (d : Decimal.uint) :
  numeral (DecimalString.NilEmpty.string_of_uint d).
Proof.
  induction d as [|d IH|d IH|d IH|d IH|d IH|d IH|d IH|d IH|d IH|d IH];
    intros c Hc; cbn in Hc; [inversion Hc|..];
    (apply elem_of_cons in Hc as [->|Hc];
     [apply (bool_decide_unpack _); vm_compute; exact I|exact (IH c Hc)]).
Qed.

Lemma decimal_numeral n : numeral (decimal n).
Proof.
  assert (Hu : ∀ d, numeral (DecimalString.NilZero.string_of_uint d)).
  { intros d. destruct d; try apply digits_numeral.
    intros c Hc. cbn in Hc. apply list_elem_of_singleton in Hc as ->.
    apply (bool_decide_unpack _). vm_compute. exact I. }
  unfold decimal. destruct (Z.to_int n) as [d|d]; cbn.
  - apply Hu.
  - intros c Hc. cbn in Hc. apply elem_of_cons in Hc as [->|Hc].
    + apply (bool_decide_unpack _). vm_compute. exact I.
    + exact (Hu d c Hc).
Qed.

Lemma from_str_of_str_witness :
  (s ← __str__ decimal (Decimal 15 6); from_str read_decimal s) = Ok (Decimal 15 6).
Proof.
  apply (from_str_of_str read_decimal decimal decimal_numeral read_decimal_decimal
           (Decimal 15 6)).
  discriminate.
Defined.

Lemma from_str_Int_kinds_witness :
  ("big" = "medium" ∨ "big" = "big")
  ∧ false = negb (Serial.contains "UNSIGNED" "BIGINT UNSIGNED").
Proof.
  apply (proj1 (from_str_Int_kinds read_decimal "BIGINT UNSIGNED") "big" false).
  vm_compute. reflexivity.
Defined.

(** A small integer does not come back as small, and a tiny one is
    refused. *)
Example small_comes_back_medium :
  (s ← __str__ decimal (Int "small" true); from_str read_decimal s)
  = Ok (Int "medium" true)
  ∧ from_str read_decimal "TINYINT" = Raise AssertionError.
Proof. split; vm_compute; reflexivity. Qed.

End SqlTypesProps.
